(** * usePopcorn: the search controller, the watched list and its aggregates

    A shallow embedding of [src/useMovies.js], of [src/useKey.js] and of
    the components of [src/App.js], with the properties the specification
    states about them and further properties of the code.

    Conventions.
    - A JavaScript string is a Rocq [string]; every [ascii] stands for one
      UTF-16 code unit below 256, so [String.length] is [.length].
    - A JavaScript Number is an IEEE 754 binary64 value: Rocq's primitive
      [float], round-to-nearest, ties-to-even.
    - [undefined] and [null] are [None] of an [option].
    - React state setters are state transformers; an effect and each
      continuation of an [async] function run to completion, one after the
      other, as the single-threaded event loop schedules them. *)

From Stdlib Require Import List String Ascii Bool ZArith NArith QArith Lia.
From Stdlib Require Import Floats Uint63.
Import ListNotations.

Local Close Scope Q_scope.
Local Open Scope string_scope.
Local Open Scope list_scope.

(* ================================================================== *)
(** ** The JavaScript built-ins the program calls *)
(* ================================================================== *)

Module JS.

(** *** Numbers *)

Definition Number := float.

Definition NaN : Number := nan.

(** The nearest integer to [n / d] (for [0 <= n], [0 < d]), ties to even. *)
Definition round_nearest_even (n d : Z) : Z :=
  let m := (n / d)%Z in
  let r := (n mod d)%Z in
  match (2 * r ?= d)%Z with
  | Lt => m
  | Gt => (m + 1)%Z
  | Eq => if Z.even m then m else (m + 1)%Z
  end.

(** [p / q] scaled by [2 ^ (- e)], as a fraction of integers. *)
Definition scaled (p q e : Z) : Z * Z :=
  (p * 2 ^ Z.max 0 (- e), q * 2 ^ Z.max 0 e)%Z.

(** The Number value for a positive rational: the binary64 value nearest
    to [p / q], with a 53-bit significand above the subnormal range and
    infinity beyond the largest finite value. *)
Definition Number_of_pos (p q : Z) : Number :=
  let e0 := (Z.log2 p - Z.log2 q - 52)%Z in
  let '(n0, d0) := scaled p q e0 in
  let e1 := if (n0 / d0 <? 2 ^ 52)%Z then (e0 - 1)%Z else e0 in
  let e := Z.max e1 (-1074) in
  let '(n, d) := scaled p q e in
  Z.ldexp (of_uint63 (Uint63.of_Z (round_nearest_even n d))) e.

(** The Number value for the mathematical value [x] of a literal whose
    sign is [neg]; a zero keeps the sign of the literal. *)
Definition Number_of_MV (neg : bool) (x : Q) : Number :=
  let f := match Qnum x with
           | Zpos p => Number_of_pos (Zpos p) (Zpos (Qden x))
           | _ => zero
           end in
  if neg then (- f)%float else f.

(** [arr.length] as a Number. *)
Definition Number_of_nat (n : nat) : Number :=
  Number_of_MV false (inject_Z (Z.of_nat n)).

(** *** Strings *)

(** [StrWhiteSpaceChar] below U+0100: TAB, LF, VT, FF, CR, SP, NBSP. *)
Definition isStrWhiteSpaceChar (c : ascii) : bool :=
  let n := N_of_ascii c in
  ((9 <=? n) && (n <=? 13) || (n =? 32) || (n =? 160))%N.

Fixpoint trimStart (s : list ascii) : list ascii :=
  match s with
  | c :: s' => if isStrWhiteSpaceChar c then trimStart s' else s
  | [] => []
  end.

Definition trim (s : list ascii) : list ascii :=
  rev (trimStart (rev (trimStart s))).

(** [s.split(sep)] for a separator of one code unit: the pieces of [s]
    between the occurrences of [sep], never an empty array. *)
Fixpoint split (sep : ascii) (s : string) : list string :=
  match s with
  | EmptyString => [EmptyString]
  | String c s' =>
      if Ascii.eqb c sep then EmptyString :: split sep s'
      else match split sep s' with
           | w :: ws => String c w :: ws
           | [] => [String c EmptyString]
           end
  end.

(** [arr.at(i)]: a negative index counts from the end; [undefined]
    outside the array. *)
Definition at_ {A} (arr : list A) (i : Z) : option A :=
  let k := if (i <? 0)%Z then (Z.of_nat (List.length arr) + i)%Z else i in
  if (k <? 0)%Z then None else nth_error arr (Z.to_nat k).

(** [arr.reduce(callback, initialValue)]: the callback receives the
    accumulator, the element, its index and the array itself. *)
Fixpoint reduce_from {A B} (callback : B -> A -> nat -> list A -> B)
    (arr : list A) (i : nat) (rest : list A) (acc : B) : B :=
  match rest with
  | [] => acc
  | cur :: rest' => reduce_from callback arr (S i) rest' (callback acc cur i arr)
  end.

Definition reduce {A B} (arr : list A)
    (callback : B -> A -> nat -> list A -> B) (initialValue : B) : B :=
  reduce_from callback arr 0 arr initialValue.

(** *** StringToNumber, the conversion behind unary [+] *)

(** The value of [c] as a digit of the given radix. *)
Definition digit_value (radix : N) (c : ascii) : option N :=
  let n := N_of_ascii c in
  let v := if ((48 <=? n) && (n <=? 57))%N then Some (n - 48)%N
           else if ((97 <=? n) && (n <=? 102))%N then Some (n - 87)%N
           else if ((65 <=? n) && (n <=? 70))%N then Some (n - 55)%N
           else None in
  match v with
  | Some d => if (d <? radix)%N then Some d else None
  | None => None
  end.

(** The longest prefix of digits, as their values, and what follows it. *)
Fixpoint span_digits (radix : N) (s : list ascii) : list N * list ascii :=
  match s with
  | c :: s' =>
      match digit_value radix c with
      | Some d => let (ds, r) := span_digits radix s' in (d :: ds, r)
      | None => ([], s)
      end
  | [] => ([], [])
  end.

Definition digits_value (radix : N) (ds : list N) : N :=
  fold_left (fun acc d => (radix * acc + d)%N) ds 0%N.

(** The mathematical value [m * 10 ^ e]. *)
Definition decimal_MV (m : N) (e : Z) : Q :=
  if (0 <=? e)%Z then inject_Z (Z.of_N m * 10 ^ e)
  else Qmake (Z.of_N m) (Z.to_pos (10 ^ (- e))).

Inductive magnitude :=
| Infinite
| Finite (x : Q).

(** An optional sign: whether it is [-], and what follows it. *)
Definition sign_prefix (s : list ascii) : bool * list ascii :=
  match s with
  | c :: r => if Ascii.eqb c "+" then (false, r)
              else if Ascii.eqb c "-" then (true, r)
              else (false, s)
  | [] => (false, s)
  end.

(** [ExponentPart] after its indicator: an optional sign and digits. *)
Definition SignedInteger (s : list ascii) : option (Z * list ascii) :=
  let '(neg, s1) := sign_prefix s in
  match span_digits 10 s1 with
  | ([], _) => None
  | (ds, r) => let v := Z.of_N (digits_value 10 ds) in
               Some (if neg then (- v)%Z else v, r)
  end.

(** The digits after a decimal point, if there is one, and what follows. *)
Definition fraction_part (s : list ascii) : list N * list ascii :=
  match s with
  | c :: r => if Ascii.eqb c "." then span_digits 10 r else ([], s)
  | [] => ([], s)
  end.

(** [ExponentPart], if there is one, up to the end of the literal; the
    exponent is 0 without it. *)
Definition exponent_part (s : list ascii) : option Z :=
  match s with
  | [] => Some 0%Z
  | c :: r =>
      if (Ascii.eqb c "e" || Ascii.eqb c "E")%bool then
        match SignedInteger r with
        | Some (x, []) => Some x
        | _ => None
        end
      else None
  end.

Definition StrUnsignedDecimalLiteral (s : list ascii) : option magnitude :=
  if list_eq_dec ascii_dec s (list_ascii_of_string "Infinity") then Some Infinite
  else
    let (ip, r1) := span_digits 10 s in
    let (fp, r2) := fraction_part r1 in
    match ip ++ fp with
    | [] => None
    | ds =>
        match exponent_part r2 with
        | Some x => Some (Finite (decimal_MV (digits_value 10 ds)
                                             (x - Z.of_nat (List.length fp))))
        | None => None
        end
    end.

Definition StrDecimalLiteral (s : list ascii) : option (bool * magnitude) :=
  let '(neg, s1) := sign_prefix s in
  match StrUnsignedDecimalLiteral s1 with
  | Some m => Some (neg, m)
  | None => None
  end.

(** [0b], [0o] and [0x] literals (either case of the letter). *)
Definition radix_of (c : ascii) : option N :=
  if (Ascii.eqb c "b" || Ascii.eqb c "B")%bool then Some 2%N
  else if (Ascii.eqb c "o" || Ascii.eqb c "O")%bool then Some 8%N
  else if (Ascii.eqb c "x" || Ascii.eqb c "X")%bool then Some 16%N
  else None.

Definition NonDecimalIntegerLiteral (s : list ascii) : option N :=
  match s with
  | c0 :: c :: r =>
      if Ascii.eqb c0 "0" then
        match radix_of c with
        | Some b => match span_digits b r with
                    | (d :: ds, []) => Some (digits_value b (d :: ds))
                    | _ => None
                    end
        | None => None
        end
      else None
  | _ => None
  end.

Definition StringToNumber (str : string) : Number :=
  match trim (list_ascii_of_string str) with
  | [] => zero
  | s =>
      match NonDecimalIntegerLiteral s with
      | Some n => Number_of_MV false (inject_Z (Z.of_N n))
      | None =>
          match StrDecimalLiteral s with
          | Some (neg, Infinite) => if neg then neg_infinity else infinity
          | Some (neg, Finite x) => Number_of_MV neg x
          | None => NaN
          end
      end
  end.

(** [+v] for a value that is a string or [undefined]. *)
Definition unary_plus (v : option string) : Number :=
  match v with
  | Some s => StringToNumber s
  | None => NaN
  end.

(** *** Errors and promises *)

(** What [catch] reads of a thrown value. *)
Record Error := {
  name : string;
  message : string
}.

(** [new Error(message)]. *)
Definition new_Error (message : string) : Error :=
  {| name := "Error"; message := message |}.

(** How an awaited promise settles. *)
Inductive settlement (A : Type) :=
| Fulfilled (value : A)
| Rejected (reason : Error).
Arguments Fulfilled {A} value.
Arguments Rejected {A} reason.

End JS.

(* ================================================================== *)
(** ** [src/App.js]: the application shell and the watched list *)
(* ================================================================== *)

Module App.

(** The object [handleAdd] builds and the watched list holds. *)
Record WatchedMovie := {
  imdbID : string;
  title : option string;
  year : option string;
  poster : option string;
  runtime : JS.Number;
  imdbRating : JS.Number;
  userRating : JS.Number;
  countRatingDecision : nat
}.

(** The cells of [App] that its handlers change. The [query] cell is
    read by [useMovies] alone and is the [query] of [UseMovies.world]. *)
Record state := {
  selectedId : option string;
  watched : list WatchedMovie
}.

Definition setSelectedId (update : option string -> option string) (s : state) : state :=
  {| selectedId := update (selectedId s); watched := watched s |}.

(** Modelled from the spec: [useLocalStoragestate] (the file
    [./useLocalStorageState] is not among the sources). Its setter
    "accepts either a literal replacement value or a pure function of the
    previous value"; [App] only passes functions. The write to the durable
    store that follows each change is outside this state. *)
Definition setWatched (update : list WatchedMovie -> list WatchedMovie) (s : state) : state :=
  {| selectedId := selectedId s; watched := update (watched s) |}.

(** [id === selectedId], for an identifier and a selection that is an
    identifier or [null]. *)
Definition strict_eq (id : string) (selected : option string) : bool :=
  match selected with
  | Some cur => String.eqb id cur
  | None => false
  end.

(** [handleSelectMovie] closes over the [selectedId] of the render that
    created it; its updater ignores the previous value. *)
Definition handleSelectMovie (selectedId : option string) (id : string) : state -> state :=
  setSelectedId (fun _ => if strict_eq id selectedId then None else Some id).

(** The handler of the current render, called in the state it rendered. *)
Definition onSelectMovie (id : string) (s : state) : state :=
  handleSelectMovie (selectedId s) id s.

Definition handleCloseMovie : state -> state :=
  setSelectedId (fun _ => None).

Definition handleAddWatched (movie : WatchedMovie) : state -> state :=
  setWatched (fun watched => watched ++ [movie]).

Definition handleDeleteWatched (id : string) : state -> state :=
  setWatched (fun watched => filter (fun movie => negb (String.eqb (imdbID movie) id)) watched).

(** *** The watched summary *)

Definition average (arr : list JS.Number) : JS.Number :=
  JS.reduce arr
    (fun acc cur (i : nat) arr => (acc + cur / JS.Number_of_nat (List.length arr))%float)
    zero.

Record summary := {
  avgImdbRating : JS.Number;
  avgUserRating : JS.Number;
  avgRuntime : JS.Number
}.

Definition WatchedSummary (watched : list WatchedMovie) : summary :=
  {| avgImdbRating := average (map (fun movie => imdbRating movie) watched);
     avgUserRating := average (map (fun movie => userRating movie) watched);
     avgRuntime := average (map (fun movie => runtime movie) watched) |}.

(** *** The detail view *)

(** The [movie] cell of [MovieDetails]: the catalog's detail object, or
    the initial [{}], whose every property is [undefined]. *)
Module Detail.
Record t := {
  Title : option string;
  Year : option string;
  Plot : option string;
  Poster : option string;
  Runtime : option string;
  imdbRating : option string;
  Released : option string;
  Actors : option string;
  Director : option string;
  Genre : option string
}.
End Detail.

(** [handleAdd] of [MovieDetails], with what its closure holds: the
    [selectedId] prop, the [movie] and [userRating] cells and the current
    value of the [countRatingDecision] ref. [None] is the [TypeError] of
    [runtime.split] on [undefined]; nothing is added then. *)
Definition handleAdd (selectedId : string) (movie : Detail.t)
    (userRating : JS.Number) (countRatingDecision : nat) (s : state) : option state :=
  match Detail.Runtime movie with
  | None => None
  | Some runtime =>
      let newWatchedMovie :=
        {| imdbID := selectedId;
           title := Detail.Title movie;
           year := Detail.Year movie;
           poster := Detail.Poster movie;
           runtime := JS.unary_plus (JS.at_ (JS.split " " runtime) 0);
           imdbRating := JS.unary_plus (Detail.imdbRating movie);
           userRating := userRating;
           countRatingDecision := countRatingDecision |} in
      Some (handleCloseMovie (handleAddWatched newWatchedMovie s))
  end.

End App.

(* ================================================================== *)
(** ** [src/useMovies.js]: the search controller *)
(* ================================================================== *)

Module UseMovies.

Definition OMDB_KEY : string := "af2eaa9a".

(** An element of the catalog's [Search] array. *)
Record MovieSummary := {
  imdbID : string;
  Title : string;
  Year : string;
  Poster : string
}.

(** What [fetchMovies] reads of the [Response] that [fetch] resolves to. *)
Record FetchResponse := {
  ok : bool
}.

(** What [fetchMovies] reads of the object [res.json()] resolves to; a
    property that is absent is [undefined]. *)
Record Payload := {
  Response : option string;
  Search : option (list MovieSummary)
}.

(** The rejection of a [fetch], or of the body read of its response,
    whose signal was aborted. The text is the browser's; only the name is
    read. *)
Definition AbortError : JS.Error :=
  {| JS.name := "AbortError"; JS.message := "signal is aborted without reason" |}.

(** [data.Response] of a [data] that is [null]. The text is the
    engine's. *)
Definition null_data_TypeError : JS.Error :=
  {| JS.name := "TypeError";
     JS.message := "Cannot read properties of null (reading 'Response')" |}.

(** Where a call of [fetchMovies] stands: suspended at one of its two
    [await]s, or past its [finally]. *)
Inductive stage :=
| AwaitingFetch
| AwaitingJson
| Settled.

(** A call of [fetchMovies]: the request it sent, the [aborted] flag of
    the signal of its [controller], and its stage. *)
Record attempt := {
  url : string;
  aborted : bool;
  at_stage : stage
}.

Section Hook.

(** The caller's state and the [callback] argument acting on it; [App]
    passes [handleCloseMovie]. *)
Context {X : Type}.
Variable callback : option (X -> X).

Record world := {
  outside : X;
  mounted : bool;
  query : string;                       (* the [query] argument of the last render *)
  movies : option (list MovieSummary);  (* the three [useState] cells *)
  isLoading : bool;
  error : string;
  attempts : list attempt;              (* every [fetchMovies] call, oldest first *)
  cleanup : option nat;                 (* the attempt the pending cleanup aborts *)
  console : list string                 (* the lines of [console.error] *)
}.

(** *** Code that changes cells and may throw *)

Definition M (A : Type) : Type := world -> (JS.Error + A) * world.

Definition ret {A} (a : A) : M A := fun w => (inr a, w).

Definition bind {A B} (m : M A) (k : A -> M B) : M B :=
  fun w => match m w with
           | (inl e, w') => (inl e, w')
           | (inr a, w') => k a w'
           end.

Definition throw {A} (e : JS.Error) : M A := fun w => (inl e, w).

(** [await p] for a promise that settles as [r]. *)
Definition await {A} (r : JS.settlement A) : M A :=
  match r with
  | JS.Fulfilled v => ret v
  | JS.Rejected e => throw e
  end.

Definition exec {A} (m : M A) (w : world) : world := snd (m w).

(** A setter of an unmounted component does nothing. *)
Definition setMovies (v : option (list MovieSummary)) : M unit :=
  fun w => (inr tt,
            if mounted w then
              {| outside := outside w; mounted := mounted w; query := query w;
                 movies := v; isLoading := isLoading w; error := error w;
                 attempts := attempts w; cleanup := cleanup w; console := console w |}
            else w).

Definition setIsLoading (v : bool) : M unit :=
  fun w => (inr tt,
            if mounted w then
              {| outside := outside w; mounted := mounted w; query := query w;
                 movies := movies w; isLoading := v; error := error w;
                 attempts := attempts w; cleanup := cleanup w; console := console w |}
            else w).

Definition setError (v : string) : M unit :=
  fun w => (inr tt,
            if mounted w then
              {| outside := outside w; mounted := mounted w; query := query w;
                 movies := movies w; isLoading := isLoading w; error := v;
                 attempts := attempts w; cleanup := cleanup w; console := console w |}
            else w).

Definition console_error (line : string) : M unit :=
  fun w => (inr tt,
            {| outside := outside w; mounted := mounted w; query := query w;
               movies := movies w; isLoading := isLoading w; error := error w;
               attempts := attempts w; cleanup := cleanup w;
               console := console w ++ [line] |}).

Definition with_attempts (f : list attempt -> list attempt) (w : world) : world :=
  {| outside := outside w; mounted := mounted w; query := query w;
     movies := movies w; isLoading := isLoading w; error := error w;
     attempts := f (attempts w); cleanup := cleanup w; console := console w |}.

Definition with_cleanup (c : option nat) (w : world) : world :=
  {| outside := outside w; mounted := mounted w; query := query w;
     movies := movies w; isLoading := isLoading w; error := error w;
     attempts := attempts w; cleanup := c; console := console w |}.

(** [fetch(url, { signal })]: the request leaves and the call waits. *)
Definition fetch (url : string) : M unit :=
  fun w => (inr tt,
            with_attempts (fun l => l ++ [{| url := url; aborted := false;
                                              at_stage := AwaitingFetch |}]) w).

Notation "x <- m ;; k" := (bind m (fun x => k))
  (at level 61, m at next level, right associativity).
Notation "m ;; k" := (bind m (fun _ => k))
  (at level 61, right associativity).

(** *** [fetchMovies] *)

Definition search_url (query : string) : string :=
  "https://www.omdbapi.com/?apikey=" ++ OMDB_KEY ++ "&s=" ++ query.

(** [data.Response === "False"]. *)
Definition Response_is_False (data : Payload) : bool :=
  match Response data with
  | Some r => String.eqb r "False"
  | None => false
  end.

(** The [try] block up to its first [await]. *)
Definition fetchMovies_start (query : string) : M stage :=
  setIsLoading true ;;
  setError "" ;;
  fetch (search_url query) ;;
  ret AwaitingFetch.

(** The [try] block from [await fetch(...)] to [await res.json()]. *)
Definition fetchMovies_after_fetch (r : JS.settlement FetchResponse) : M stage :=
  res <- await r ;;
  if negb (ok res)
  then throw (JS.new_Error "Something went wrong while fetching movies")
  else ret AwaitingJson.

(** The [try] block from [await res.json()] to its end. *)
Definition fetchMovies_after_json (r : JS.settlement (option Payload)) : M stage :=
  data <- await r ;;
  match data with
  | None => throw null_data_TypeError
  | Some data =>
      if Response_is_False data
      then throw (JS.new_Error "Movie not found")
      else setMovies (Search data) ;;
           setError "" ;;
           ret Settled
  end.

Definition fetchMovies_catch (err : JS.Error) : M unit :=
  if negb (String.eqb (JS.name err) "AbortError")
  then console_error (JS.message err) ;;
       setError (JS.message err)
  else ret tt.

Definition fetchMovies_finally : M unit :=
  setIsLoading false.

Definition set_stage (st : stage) (a : attempt) : attempt :=
  {| url := url a; aborted := aborted a; at_stage := st |}.

Definition set_aborted (a : attempt) : attempt :=
  {| url := url a; aborted := true; at_stage := at_stage a |}.

(** [update id f l]: [l] with [f] applied to its element at [id]. *)
Fixpoint update (id : nat) (f : attempt -> attempt) (l : list attempt) : list attempt :=
  match l, id with
  | [], _ => []
  | a :: l', O => f a :: l'
  | a :: l', S id' => a :: update id' f l'
  end.

(** A part of the [try] block run inside [try ... catch ... finally]:
    it stops at the next [await], or it ends, or it throws, and the
    last two reach [finally]. *)
Definition resume (id : nat) (part : M stage) (w : world) : world :=
  match part w with
  | (inr Settled, w') =>
      with_attempts (update id (set_stage Settled)) (exec fetchMovies_finally w')
  | (inr st, w') =>
      with_attempts (update id (set_stage st)) w'
  | (inl err, w') =>
      with_attempts (update id (set_stage Settled))
        (exec (fetchMovies_catch err ;; fetchMovies_finally) w')
  end.

(** *** The effect and its cleanup *)

(** [controller.abort()] for the controller of attempt [id]. *)
Definition abort (id : nat) (w : world) : world :=
  with_attempts (update id set_aborted) w.

Definition run_cleanup (w : world) : world :=
  match cleanup w with
  | Some id => with_cleanup None (abort id w)
  | None => w
  end.

Definition call_callback (w : world) : world :=
  match callback with
  | Some f =>
      {| outside := f (outside w); mounted := mounted w; query := query w;
         movies := movies w; isLoading := isLoading w; error := error w;
         attempts := attempts w; cleanup := cleanup w; console := console w |}
  | None => w
  end.

(** The body of the effect, for the [query] of the render; what it
    returns is kept in [cleanup]. *)
Definition effect (w : world) : world :=
  let w := call_callback w in
  if (String.length (query w) <? 3)%nat then
    with_cleanup None (exec (setMovies (Some []) ;; setError "") w)
  else
    let id := List.length (attempts w) in
    with_cleanup (Some id) (resume id (fetchMovies_start (query w)) w).

Definition with_query (q : string) (w : world) : world :=
  {| outside := outside w; mounted := mounted w; query := q;
     movies := movies w; isLoading := isLoading w; error := error w;
     attempts := attempts w; cleanup := cleanup w; console := console w |}.

Definition unmounted (w : world) : world :=
  {| outside := outside w; mounted := false; query := query w;
     movies := movies w; isLoading := isLoading w; error := error w;
     attempts := attempts w; cleanup := cleanup w; console := console w |}.

(** *** The events of the controller *)

Inductive event :=
| QueryChange (q : string)
    (* a render with another [query]: the dependency array fires
       ([callback] keeps its identity, [App] wraps it in [useCallback]);
       the cleanup of the last effect and the new effect run in one step,
       as React flushes the effects of an input event before it returns *)
| Unmount
| FetchSettles (id : nat) (r : JS.settlement FetchResponse)
    (* the promise of [fetch] of attempt [id] settles *)
| JsonSettles (id : nat) (r : JS.settlement (option Payload)).
    (* the promise of [res.json()] of attempt [id] settles *)

(** The signal decides how a promise of an aborted attempt settles:
    it rejects with [AbortError], whatever the network did. *)
Definition delivered {A} (a : attempt) (r : JS.settlement A) : JS.settlement A :=
  if aborted a then JS.Rejected AbortError else r.

Definition step (w : world) (ev : event) : world :=
  match ev with
  | QueryChange q =>
      if negb (mounted w) || String.eqb q (query w) then w
      else effect (with_query q (run_cleanup w))
  | Unmount =>
      if mounted w then unmounted (run_cleanup w) else w
  | FetchSettles id r =>
      match nth_error (attempts w) id with
      | Some a =>
          match at_stage a with
          | AwaitingFetch => resume id (fetchMovies_after_fetch (delivered a r)) w
          | _ => w
          end
      | None => w
      end
  | JsonSettles id r =>
      match nth_error (attempts w) id with
      | Some a =>
          match at_stage a with
          | AwaitingJson => resume id (fetchMovies_after_json (delivered a r)) w
          | _ => w
          end
      | None => w
      end
  end.

Definition run (w : world) (evs : list event) : world :=
  fold_left step evs w.

(** The first render, with the initial [query] of the caller, and the
    first run of the effect. *)
Definition mount (x : X) (q : string) : world :=
  effect {| outside := x; mounted := true; query := q;
            movies := Some []; isLoading := false; error := "";
            attempts := []; cleanup := None; console := [] |}.

End Hook.

End UseMovies.

(* ================================================================== *)
(** ** Notions the properties are stated with *)
(* ================================================================== *)

Module Props.

Import App.

(** [w'] is [w] with one entry taken out, an entry whose identifier is
    [id]; the entries before and after it are kept as they are. *)
Definition removes_exactly_one (id : string) (w w' : list WatchedMovie) : Prop :=
  exists l1 e l2, w = l1 ++ e :: l2 /\ imdbID e = id /\ w' = l1 ++ l2.

(** The number of entries of [w] whose identifier is [id]. *)
Definition count_id (id : string) (w : list WatchedMovie) : nat :=
  List.length (filter (fun movie => String.eqb (imdbID movie) id) w).

(** [subseq l' l]: [l'] is [l] with some elements left out, the others in
    their order. *)
Inductive subseq {A : Type} : list A -> list A -> Prop :=
| subseq_nil : subseq [] []
| subseq_skip x l' l : subseq l' l -> subseq l' (x :: l)
| subseq_keep x l' l : subseq l' l -> subseq (x :: l') (x :: l).

(** Two entries that share the identifier [tt1]. *)
Definition alien : WatchedMovie :=
  {| imdbID := "tt1"; title := Some "Alien"; year := Some "1979";
     poster := Some "p.jpg"; runtime := 117%float; imdbRating := 8.5%float;
     userRating := 9%float; countRatingDecision := 1 |}.

Definition alien_again : WatchedMovie :=
  {| imdbID := "tt1"; title := Some "Alien"; year := Some "1979";
     poster := Some "p.jpg"; runtime := 117%float; imdbRating := 8.5%float;
     userRating := 7%float; countRatingDecision := 2 |}.

Definition aliens : WatchedMovie :=
  {| imdbID := "tt2"; title := Some "Aliens"; year := Some "1986";
     poster := Some "q.jpg"; runtime := 137%float; imdbRating := 7.5%float;
     userRating := 8%float; countRatingDecision := 1 |}.

Definition empty_app : state := {| selectedId := None; watched := [] |}.

(** *** Decimal numerals *)

(** The character of a decimal digit. *)
Definition digit_char (d : N) : ascii := ascii_of_N (48 + d).

(** The string that spells the digits [ds]. *)
Definition numeral (ds : list N) : string :=
  string_of_list_ascii (map digit_char ds).

(** A non-empty sequence of decimal digits. *)
Definition decimal_digits (ds : list N) : Prop :=
  ds <> [] /\ Forall (fun d => (d < 10)%N) ds.

(** The integer that the digits [ds] spell in positional notation. *)
Fixpoint positional (ds : list N) : N :=
  match ds with
  | [] => 0
  | d :: ds' => d * 10 ^ N.of_nat (List.length ds') + positional ds'
  end.

(** The number that the numeral [ip.fp] denotes: the integer its digits
    spell, divided by ten for every digit after the point. *)
Definition decimal_value (ip fp : list N) : Q :=
  Qmake (Z.of_N (positional (ip ++ fp))) (Z.to_pos (10 ^ Z.of_nat (List.length fp))).

(** [decimal_numeral r ip fp]: the string [r] is the numeral [ip], with no
    digits after a point, or the numeral [ip.fp]. *)
Inductive decimal_numeral : string -> list N -> list N -> Prop :=
| numeral_integer ip :
    decimal_digits ip -> decimal_numeral (numeral ip) ip []
| numeral_fraction ip fp :
    decimal_digits ip -> decimal_digits fp ->
    decimal_numeral (numeral ip ++ "." ++ numeral fp)%string ip fp.

(** The characters of [ip], or of [ip.fp]. *)
Definition spelled (ip fp : list N) (point : bool) : list ascii :=
  map digit_char ip ++ (if point then "."%char :: map digit_char fp else []).

(** The detail of the scenario of the specification. *)
Definition alien_detail : Detail.t :=
  {| Detail.Title := Some "Alien"; Detail.Year := Some "1979";
     Detail.Plot := None; Detail.Poster := Some "p.jpg";
     Detail.Runtime := Some "117 min"; Detail.imdbRating := Some "8.5";
     Detail.Released := None; Detail.Actors := None; Detail.Director := None;
     Detail.Genre := None |}.

End Props.

(* ================================================================== *)
(** ** Notions the properties of the controller are stated with *)
(* ================================================================== *)

Module HookProps.

Import UseMovies.

Section Hook.

Context {X : Type}.

(** Attempt [id] has been started and is not past its [finally]. *)
Definition in_flight (w : @world X) (id : nat) : Prop :=
  exists a, nth_error (attempts w) id = Some a /\ at_stage a <> Settled.

(** Attempt [id] is in flight and is not the attempt of the current
    effect: a later query change, or the unmount, has run the cleanup that
    was pending when it started. *)
Definition superseded (w : @world X) (id : nat) : Prop :=
  in_flight w id /\ cleanup w <> Some id.

(** [ev] is the settling of a promise that attempt [id] awaits. *)
Definition settles (id : nat) (ev : event) : Prop :=
  match ev with
  | FetchSettles i _ | JsonSettles i _ => i = id
  | QueryChange _ | Unmount => False
  end.

(** Every attempt in flight other than the current one has an aborted
    signal. *)
Definition stale_aborted (w : @world X) : Prop :=
  forall id a,
    nth_error (attempts w) id = Some a ->
    at_stage a <> Settled ->
    cleanup w <> Some id ->
    aborted a = true.

(** While the component is mounted, Loading is set only if an attempt is
    in flight. *)
Definition loading_has_attempt (w : @world X) : Prop :=
  mounted w = true -> isLoading w = true -> exists id, in_flight w id.

(** The most recent attempt, if there is one, is past its [finally]. *)
Definition latest_terminated (w : @world X) : Prop :=
  match rev (attempts w) with
  | a :: _ => at_stage a = Settled
  | [] => True
  end.

(** "Loading is false only when the most recent attempt has terminated". *)
Definition loading_tracks_latest (w : @world X) : Prop :=
  isLoading w = false -> latest_terminated w.

(** The values of Loading in [w] and after each of the events [evs]. *)
Fixpoint loading_trace (callback : option (X -> X)) (w : @world X) (evs : list event)
  : list bool :=
  isLoading w ::
  match evs with
  | [] => []
  | ev :: evs' => loading_trace callback (step callback w ev) evs'
  end.

End Hook.

(** The number of Loading-to-non-Loading transitions in a sequence of
    values of the flag. *)
Fixpoint transitions (flags : list bool) : nat :=
  match flags with
  | true :: ((false :: _) as rest) => S (transitions rest)
  | _ :: rest => transitions rest
  | [] => 0
  end.

(** The outcomes of a response, as the controller shows them. *)
Definition transport_failure_message : string :=
  "Something went wrong while fetching movies".

Definition not_found_message : string := "Movie not found".

Inductive outcome :=
| TransportError
| NotFound
| Success.

(** [shows w0 data w o]: the world [w], reached from [w0] by a response
    whose payload is [data], is in the state of outcome [o]. Loading is
    cleared in each; an Error state carries its message and the movie list
    of before, the Success state the [Search] list and no error. *)
Definition shows {X : Type} (w0 : @world X) (data : Payload) (w : @world X)
    (o : outcome) : Prop :=
  isLoading w = false /\
  match o with
  | TransportError => error w = transport_failure_message /\ movies w = movies w0
  | NotFound => error w = not_found_message /\ movies w = movies w0
  | Success => error w = "" /\ movies w = Search data
  end.

(** A catalog answer with one match, and the scenario's queries. *)
Definition alien_summary : MovieSummary :=
  {| imdbID := "tt1"; Title := "Alien"; Year := "1979"; Poster := "p.jpg" |}.

Definition found_alien : Payload :=
  {| Response := Some "True"; Search := Some [alien_summary] |}.

Definition no_match : Payload :=
  {| Response := Some "False"; Search := None |}.

(** [App] calls [useMovies(query, handleCloseMovie)] and mounts with an
    empty query. *)
Definition app_callback : option (App.state -> App.state) :=
  Some App.handleCloseMovie.

Definition app_mount : @world App.state :=
  mount app_callback {| App.selectedId := None; App.watched := [] |} "".

End HookProps.

(* ================================================================== *)
(** ** [src/App.js]: what [App] renders of the search *)
(* ================================================================== *)

Module Render.

Import UseMovies.

(** A string in a condition: the empty string is falsy. *)
Definition truthy (s : string) : bool := negb (String.eqb s "").

Inductive view :=
| Loader
| MovieList (items : list MovieSummary)
| ErrorMessage (message : string).

(** [movies?.map(...)] of [MovieList]: nothing for [undefined]. *)
Definition MovieList_items (movies : option (list MovieSummary)) : list MovieSummary :=
  match movies with
  | Some l => l
  | None => []
  end.

(** The children that [App] gives to its first [Box], in the order of the
    JSX: [isLoading && <Loader />],
    [!isLoading && !error && <MovieList />], [error && <ErrorMessage />]. *)
Definition results_children {X : Type} (w : @world X) : list view :=
  (if isLoading w then [Loader] else []) ++
  (if negb (isLoading w) && negb (truthy (error w))
   then [MovieList (MovieList_items (movies w))] else []) ++
  (if truthy (error w) then [ErrorMessage (error w)] else []).

(** [Box]: [{isOpen && children}], under the button that toggles
    [isOpen]. *)
Definition Box (isOpen : bool) (children : list view) : list view :=
  if isOpen then children else [].

(** [movies.length] of [NumResults]; [None] is the [TypeError] of reading
    [length] of [undefined]. *)
Definition NumResults (movies : option (list MovieSummary)) : option nat :=
  match movies with
  | Some l => Some (List.length l)
  | None => None
  end.

(** What is on screen of the search: the number that [NumResults] shows
    and the content of the first [Box]. *)
Record screen := {
  found : nat;
  results_box : list view
}.

(** A render of [App] from the cells of the controller, with the [isOpen]
    cell of the first [Box]. [NumResults] is an element of the same render
    as the box: when it throws, the render has no result and React takes
    the whole tree off the screen. [None] is a screen without [App]: after
    such a render, or when [App] is not mounted. *)
Definition App_render {X : Type} (isOpen : bool) (w : @world X) : option screen :=
  if mounted w then
    match NumResults (movies w) with
    | Some n => Some {| found := n; results_box := Box isOpen (results_children w) |}
    | None => None
    end
  else None.

(** The [callback] argument applied, if there is one. *)
Definition called {X : Type} (callback : option (X -> X)) (x : X) : X :=
  match callback with
  | Some f => f x
  | None => x
  end.

(** An answer that fills the movie list does so with a list: the payload
    of a body read that succeeds carries a [Search] array. *)
Definition carries_Search (ev : event) : Prop :=
  match ev with
  | JsonSettles _ (JS.Fulfilled (Some data)) => Search data <> None
  | _ => True
  end.

(** Loading is shown without an error. *)
Definition loading_without_error {X : Type} (w : @world X) : Prop :=
  isLoading w = true -> error w = "".

(** The current attempt asks for the current query, which is not short. *)
Definition current_is_query {X : Type} (w : @world X) : Prop :=
  forall id a,
    cleanup w = Some id -> nth_error (attempts w) id = Some a ->
    url a = search_url (query w) /\ 3 <= String.length (query w).

(** In the mounted controller, a query of fewer than three characters goes
    with an empty list, no error and no current attempt. *)
Definition short_is_cleared {X : Type} (w : @world X) : Prop :=
  mounted w = true -> String.length (query w) < 3 ->
  movies w = Some [] /\ error w = "" /\ cleanup w = None.

(** The request of an attempt is a search for a query of three characters
    or more. *)
Definition searches_long_query (a : attempt) : Prop :=
  exists q, url a = search_url q /\ 3 <= String.length q.

End Render.

(* ================================================================== *)
(** ** [src/App.js]: the detail view, [MovieDetails] *)
(* ================================================================== *)

Module MovieDetails.

Import App.

(** *** The rating controls *)

(** The rating the watched list holds for the selected movie: that of the
    last entry with its identifier, 0 without one. *)
Definition watchedUserRating (selectedId : string) (watched : list WatchedMovie)
  : JS.Number :=
  JS.reduce watched
    (fun acc movie (_ : nat) (_ : list WatchedMovie) =>
       if String.eqb (imdbID movie) selectedId then userRating movie else acc)
    zero.

(** The callback of that [reduce], for the identifier [id]. *)
Definition pick (id : string) (acc : JS.Number) (movie : WatchedMovie) : JS.Number :=
  if String.eqb (imdbID movie) id then userRating movie else acc.

(** What the [rating] division renders: the rating given before, or the
    stars, with the add button once a rating above 0 is chosen. *)
Inductive rating_view :=
| YouRated (rating : JS.Number)
| StarRating (add_button : bool).

Definition rating_section (selectedId : string) (watched : list WatchedMovie)
    (userRating : JS.Number) : rating_view :=
  let r := watchedUserRating selectedId watched in
  if (0 <? r)%float then YouRated r else StarRating (0 <? userRating)%float.

(** [!isLoading && !error]: whether the detail, with the rating division,
    is rendered at all. *)
Definition detail_shown (isLoading : bool) (error : string) : bool :=
  negb isLoading && negb (Render.truthy error).

(** Whether there is an add button to click. *)
Definition add_button_shown (isLoading : bool) (error : string)
    (selectedId : string) (watched : list WatchedMovie) (userRating : JS.Number) : bool :=
  detail_shown isLoading error &&
  match rating_section selectedId watched userRating with
  | StarRating add_button => add_button
  | YouRated _ => false
  end.

(** *** Clicks on the second box of [App] *)

(** [selectedId ? <MovieDetails /> : <> <WatchedSummary /> ... </>]. *)
Definition details_open (s : state) : option string :=
  match selectedId s with
  | Some id => if Render.truthy id then Some id else None
  | None => None
  end.

(** A click on a movie of the result list, on the back button, on the add
    button (with the cells of [MovieDetails] at that time) or on the delete
    button of a watched entry. *)
Inductive click :=
| ClickMovie (id : string)
| ClickBack
| ClickAdd (movie : Detail.t) (isLoading : bool) (error : string)
           (userRating : JS.Number) (countRatingDecision : nat)
| ClickDelete (id : string).

(** A click on a control that is not rendered does not happen; a handler
    that throws has set no state. *)
Definition click_step (s : state) (c : click) : state :=
  match c with
  | ClickMovie id => onSelectMovie id s
  | ClickBack =>
      match details_open s with
      | Some _ => handleCloseMovie s
      | None => s
      end
  | ClickAdd movie isLoading error userRating countRatingDecision =>
      match details_open s with
      | Some id =>
          if add_button_shown isLoading error id (watched s) userRating then
            match handleAdd id movie userRating countRatingDecision s with
            | Some s' => s'
            | None => s
            end
          else s
      | None => s
      end
  | ClickDelete id =>
      match details_open s with
      | Some _ => s
      | None => handleDeleteWatched id s
      end
  end.

(** Every identifier occurs once and every rating is above 0. *)
Definition rated_once (watched : list WatchedMovie) : Prop :=
  NoDup (map imdbID watched) /\
  Forall (fun movie => (0 <? userRating movie)%float = true) watched.

(** *** [getMovieDetails] *)

(** What [getMovieDetails] reads of the parsed body: [Response], and the
    properties that [MovieDetails] takes from the [movie] cell. *)
Record Payload := {
  Response : option string;
  detail : Detail.t
}.

(** The initial [movie]: [{}]. *)
Definition no_movie : Detail.t :=
  {| Detail.Title := None; Detail.Year := None; Detail.Plot := None;
     Detail.Poster := None; Detail.Runtime := None; Detail.imdbRating := None;
     Detail.Released := None; Detail.Actors := None; Detail.Director := None;
     Detail.Genre := None |}.

(** A call of [getMovieDetails]: its request and its stage. No signal is
    passed to [fetch]. *)
Record request := {
  url : string;
  at_stage : UseMovies.stage
}.

Record world := {
  mounted : bool;
  movie : Detail.t;
  isLoading : bool;
  error : string;
  requests : list request;      (* every [getMovieDetails] call, oldest first *)
  console : list (list string)  (* the arguments of each [console.error] *)
}.

Definition M (A : Type) : Type := world -> (JS.Error + A) * world.

Definition ret {A} (a : A) : M A := fun w => (inr a, w).

Definition bind {A B} (m : M A) (k : A -> M B) : M B :=
  fun w => match m w with
           | (inl e, w') => (inl e, w')
           | (inr a, w') => k a w'
           end.

Definition throw {A} (e : JS.Error) : M A := fun w => (inl e, w).

Definition await {A} (r : JS.settlement A) : M A :=
  match r with
  | JS.Fulfilled v => ret v
  | JS.Rejected e => throw e
  end.

Definition exec {A} (m : M A) (w : world) : world := snd (m w).

Notation "x <- m ;; k" := (bind m (fun x => k))
  (at level 61, m at next level, right associativity).
Notation "m ;; k" := (bind m (fun _ => k))
  (at level 61, right associativity).

(** A setter of an unmounted component does nothing. *)
Definition setMovie (v : Detail.t) : M unit :=
  fun w => (inr tt,
            if mounted w then
              {| mounted := mounted w; movie := v; isLoading := isLoading w;
                 error := error w; requests := requests w; console := console w |}
            else w).

Definition setIsLoading (v : bool) : M unit :=
  fun w => (inr tt,
            if mounted w then
              {| mounted := mounted w; movie := movie w; isLoading := v;
                 error := error w; requests := requests w; console := console w |}
            else w).

Definition setError (v : string) : M unit :=
  fun w => (inr tt,
            if mounted w then
              {| mounted := mounted w; movie := movie w; isLoading := isLoading w;
                 error := v; requests := requests w; console := console w |}
            else w).

Definition console_error (args : list string) : M unit :=
  fun w => (inr tt,
            {| mounted := mounted w; movie := movie w; isLoading := isLoading w;
               error := error w; requests := requests w;
               console := console w ++ [args] |}).

Definition with_requests (f : list request -> list request) (w : world) : world :=
  {| mounted := mounted w; movie := movie w; isLoading := isLoading w;
     error := error w; requests := f (requests w); console := console w |}.

(** [fetch(url)]. *)
Definition fetch (url : string) : M unit :=
  fun w => (inr tt,
            with_requests (fun l => l ++ [{| url := url;
                                             at_stage := UseMovies.AwaitingFetch |}]) w).

Definition detail_url (selectedId : string) : string :=
  "https://www.omdbapi.com/?apikey=" ++ UseMovies.OMDB_KEY ++ "&i=" ++ selectedId.

(** [data.Response === "False"]. *)
Definition Response_is_False (data : Payload) : bool :=
  match Response data with
  | Some r => String.eqb r "False"
  | None => false
  end.

(** [data.Response] of a [data] that is [null]. The text is the
    engine's. *)
Definition null_data_TypeError : JS.Error := UseMovies.null_data_TypeError.

(** The [try] block up to its first [await]. *)
Definition getMovieDetails_start (selectedId : string) : M UseMovies.stage :=
  setIsLoading true ;;
  setError "" ;;
  fetch (detail_url selectedId) ;;
  ret UseMovies.AwaitingFetch.

(** The [try] block from [await fetch(...)] to [await res.json()]. *)
Definition getMovieDetails_after_fetch (r : JS.settlement UseMovies.FetchResponse)
  : M UseMovies.stage :=
  res <- await r ;;
  if negb (UseMovies.ok res)
  then throw (JS.new_Error "Something went wrong while fetching movie details")
  else ret UseMovies.AwaitingJson.

(** The [try] block from [await res.json()] to its end. *)
Definition getMovieDetails_after_json (r : JS.settlement (option Payload))
  : M UseMovies.stage :=
  data <- await r ;;
  match data with
  | None => throw null_data_TypeError
  | Some data =>
      if Response_is_False data
      then throw (JS.new_Error "Movie not found")
      else setMovie (detail data) ;;
           setError "" ;;
           ret UseMovies.Settled
  end.

(** [catch]: every error is logged and shown. *)
Definition getMovieDetails_catch (err : JS.Error) : M unit :=
  console_error ["Error: "; JS.message err] ;;
  setError (JS.message err).

Definition getMovieDetails_finally : M unit :=
  setIsLoading false.

Definition set_stage (st : UseMovies.stage) (r : request) : request :=
  {| url := url r; at_stage := st |}.

Fixpoint update (id : nat) (f : request -> request) (l : list request) : list request :=
  match l, id with
  | [], _ => []
  | r :: l', O => f r :: l'
  | r :: l', S id' => r :: update id' f l'
  end.

(** A part of the [try] block inside [try ... catch ... finally]. *)
Definition resume (id : nat) (part : M UseMovies.stage) (w : world) : world :=
  match part w with
  | (inr UseMovies.Settled, w') =>
      with_requests (update id (set_stage UseMovies.Settled))
        (exec getMovieDetails_finally w')
  | (inr st, w') =>
      with_requests (update id (set_stage st)) w'
  | (inl err, w') =>
      with_requests (update id (set_stage UseMovies.Settled))
        (exec (getMovieDetails_catch err ;; getMovieDetails_finally) w')
  end.

(** The effect of the dependencies [selectedId] and [watched]: it calls
    [getMovieDetails] and returns no cleanup. *)
Definition effect (selectedId : string) (w : world) : world :=
  resume (List.length (requests w)) (getMovieDetails_start selectedId) w.

Inductive event :=
| Trigger (selectedId : string)
    (* a render with another [selectedId] or another [watched] *)
| Unmount
| FetchSettles (id : nat) (r : JS.settlement UseMovies.FetchResponse)
| JsonSettles (id : nat) (r : JS.settlement (option Payload)).

Definition step (w : world) (ev : event) : world :=
  match ev with
  | Trigger selectedId => if mounted w then effect selectedId w else w
  | Unmount =>
      {| mounted := false; movie := movie w; isLoading := isLoading w;
         error := error w; requests := requests w; console := console w |}
  | FetchSettles id r =>
      match nth_error (requests w) id with
      | Some rq =>
          match at_stage rq with
          | UseMovies.AwaitingFetch => resume id (getMovieDetails_after_fetch r) w
          | _ => w
          end
      | None => w
      end
  | JsonSettles id r =>
      match nth_error (requests w) id with
      | Some rq =>
          match at_stage rq with
          | UseMovies.AwaitingJson => resume id (getMovieDetails_after_json r) w
          | _ => w
          end
      | None => w
      end
  end.

Definition run (w : world) (evs : list event) : world :=
  fold_left step evs w.

(** The first render of a detail view and the first run of its effect. *)
Definition mount (selectedId : string) : world :=
  effect selectedId
    {| mounted := true; movie := no_movie; isLoading := false; error := "";
       requests := []; console := [] |}.

Definition in_flight (w : world) (id : nat) : Prop :=
  exists rq, nth_error (requests w) id = Some rq /\ at_stage rq <> UseMovies.Settled.

(** A mounted view that shows Loading has a call in flight. *)
Definition loading_is_awaited (w : world) : Prop :=
  mounted w = true -> isLoading w = true -> exists i, in_flight w i.

(** The settlement that [ev] brings is awaited: its call is at the
    [await] that the event resumes. *)
Definition awaited (w : world) (ev : event) : Prop :=
  match ev with
  | FetchSettles id _ =>
      exists rq, nth_error (requests w) id = Some rq /\
                 at_stage rq = UseMovies.AwaitingFetch
  | JsonSettles id _ =>
      exists rq, nth_error (requests w) id = Some rq /\
                 at_stage rq = UseMovies.AwaitingJson
  | Trigger _ | Unmount => False
  end.

(** The message of the error that a settlement makes the [try] block throw,
    if it makes it throw. *)
Definition failure (ev : event) : option string :=
  match ev with
  | FetchSettles _ (JS.Rejected err) => Some (JS.message err)
  | FetchSettles _ (JS.Fulfilled res) =>
      if UseMovies.ok res then None
      else Some "Something went wrong while fetching movie details"
  | JsonSettles _ (JS.Rejected err) => Some (JS.message err)
  | JsonSettles _ (JS.Fulfilled None) => Some (JS.message null_data_TypeError)
  | JsonSettles _ (JS.Fulfilled (Some data)) =>
      if Response_is_False data then Some "Movie not found" else None
  | Trigger _ | Unmount => None
  end.

(** Two details the catalog may answer with. *)
Definition alien_payload : Payload :=
  {| Response := Some "True"; detail := Props.alien_detail |}.

Definition aliens_payload : Payload :=
  {| Response := Some "True";
     detail := {| Detail.Title := Some "Aliens"; Detail.Year := Some "1986";
                  Detail.Plot := None; Detail.Poster := Some "q.jpg";
                  Detail.Runtime := Some "137 min"; Detail.imdbRating := Some "8.4";
                  Detail.Released := None; Detail.Actors := None;
                  Detail.Director := None; Detail.Genre := None |} |}.

End MovieDetails.

(* ------------------------------------------------------------------ *)
(** ** The search effect of the [App] that has no [useMovies] *)
(* ------------------------------------------------------------------ *)

Module InlineSearch.

Import UseMovies.

(** The cells of the search, the caller's state apart. *)
Definition cells {X : Type} (w : @world X) :=
  (mounted w, query w, movies w, isLoading w, error w, attempts w, cleanup w,
   console w).

(** [handleCloseMovie()] in the effect. *)
Definition close_movie (w : @world App.state) : @world App.state :=
  {| outside := App.handleCloseMovie (outside w); mounted := mounted w;
     query := query w; movies := movies w; isLoading := isLoading w;
     error := error w; attempts := attempts w; cleanup := cleanup w;
     console := console w |}.

(** The body of the effect of that [App]: the guard, then
    [handleCloseMovie()], then [fetchMovies()], whose text is that of the
    hook. *)
Definition effect (w : @world App.state) : @world App.state :=
  if (String.length (query w) <? 3)%nat then
    with_cleanup None
      (exec (bind (setMovies (Some [])) (fun _ => setError "")) w)
  else
    let w := close_movie w in
    let id := List.length (attempts w) in
    with_cleanup (Some id) (resume id (fetchMovies_start (query w)) w).

Definition step (w : @world App.state) (ev : event) : @world App.state :=
  match ev with
  | QueryChange q =>
      if negb (mounted w) || String.eqb q (query w) then w
      else effect (with_query q (run_cleanup w))
  | Unmount =>
      if mounted w then unmounted (run_cleanup w) else w
  | FetchSettles id r =>
      match nth_error (attempts w) id with
      | Some a =>
          match at_stage a with
          | AwaitingFetch => resume id (fetchMovies_after_fetch (delivered a r)) w
          | _ => w
          end
      | None => w
      end
  | JsonSettles id r =>
      match nth_error (attempts w) id with
      | Some a =>
          match at_stage a with
          | AwaitingJson => resume id (fetchMovies_after_json (delivered a r)) w
          | _ => w
          end
      | None => w
      end
  end.

Definition run (w : @world App.state) (evs : list event) : @world App.state :=
  fold_left step evs w.

Definition mount (x : App.state) (q : string) : @world App.state :=
  effect {| outside := x; mounted := true; query := q; movies := Some [];
            isLoading := false; error := ""; attempts := []; cleanup := None;
            console := [] |}.

End InlineSearch.

(* ------------------------------------------------------------------ *)
(** ** The effect of [MovieDetails] on [document.title] *)
(* ------------------------------------------------------------------ *)

Module DocumentTitle.

(** The title of the [movie] cell at the last run of the effect, the title
    of the document, and whether the last run returned a cleanup. *)
Record world := {
  mounted : bool;
  title : option string;
  document_title : string;
  cleanup : bool
}.

(** [!title]. *)
Definition no_title (title : option string) : bool :=
  match title with
  | Some t => negb (Render.truthy t)
  | None => true
  end.

(** [`Movie | ${title}`]. *)
Definition movie_title (title : option string) : string :=
  "Movie | " ++ match title with Some t => t | None => "undefined" end.

Definition effect (w : world) : world :=
  if no_title (title w) then w
  else {| mounted := mounted w; title := title w;
          document_title := movie_title (title w); cleanup := true |}.

(** [() => (document.title = "usePopcorn")], if the last run returned it. *)
Definition run_cleanup (w : world) : world :=
  if cleanup w then
    {| mounted := mounted w; title := title w;
       document_title := "usePopcorn"; cleanup := false |}
  else w.

Definition with_title (t : option string) (w : world) : world :=
  {| mounted := mounted w; title := t; document_title := document_title w;
     cleanup := cleanup w |}.

Definition unmounted (w : world) : world :=
  {| mounted := false; title := title w; document_title := document_title w;
     cleanup := cleanup w |}.

Definition same_title (t t' : option string) : bool :=
  match t, t' with
  | Some a, Some b => String.eqb a b
  | None, None => true
  | _, _ => false
  end.

Inductive event :=
| Render (title : option string)   (* a render in which the movie has this title *)
| Unmount.

Definition step (w : world) (ev : event) : world :=
  match ev with
  | Render t =>
      if negb (mounted w) || same_title t (title w) then w
      else effect (with_title t (run_cleanup w))
  | Unmount =>
      if mounted w then unmounted (run_cleanup w) else w
  end.

Definition run (w : world) (evs : list event) : world :=
  fold_left step evs w.

(** The first render, in a document of title [d]. *)
Definition mount (d : string) (t : option string) : world :=
  effect {| mounted := true; title := t; document_title := d; cleanup := false |}.

(** The document is titled after the movie while a detail view with a
    title is mounted; otherwise it has the title of the cleanup or the
    title [d] of before the mount, and no cleanup is pending. *)
Definition titled (d : string) (w : world) : Prop :=
  if mounted w && negb (no_title (title w))
  then document_title w = movie_title (title w) /\ cleanup w = true
  else cleanup w = false /\
       (document_title w = "usePopcorn" \/ document_title w = d).

End DocumentTitle.

(* ------------------------------------------------------------------ *)
(** ** [useKey] *)
(* ------------------------------------------------------------------ *)

Module UseKey.

Section Hook.

(** What the actions act on. *)
Context {S : Type}.

(** The identity of a function object: the callback that the [n]-th run of
    the effect of this hook creates, or a function of the rest of the page.
    The callback is a constant of the effect and is given to [document]
    only, so that nothing else can register or remove it. *)
Inductive function :=
| Callback (n : nat)
| Other (n : nat).

Definition same_function (f g : function) : bool :=
  match f, g with
  | Callback a, Callback b => Nat.eqb a b
  | Other a, Other b => Nat.eqb a b
  | _, _ => false
  end.

Definition is_other (f : function) : bool :=
  match f with
  | Other _ => true
  | Callback _ => false
  end.

(** A function registered for [keydown]: its identity, and what a call of
    it with an event of code [code] does. *)
Record listener := {
  ident : function;
  handle : string -> S -> S
}.

(** The [keydown] listeners of [document], in the order of their
    registration; the number of runs of the effect so far; the cleanup of
    the last run. *)
Record world := {
  listeners : list listener;
  runs : nat;
  mounted : bool;
  cleanup : option nat
}.

(** [document.addEventListener("keydown", l)]: a function that is
    registered is not registered again. *)
Definition addEventListener (l : listener) (d : list listener) : list listener :=
  if existsb (fun l' => same_function (ident l') (ident l)) d then d else d ++ [l].

(** [document.removeEventListener("keydown", l)]. *)
Fixpoint removeEventListener (f : function) (d : list listener) : list listener :=
  match d with
  | [] => []
  | l :: d' =>
      if same_function (ident l) f then d' else l :: removeEventListener f d'
  end.

(** [function (e) { if (e.code === key) { action(); } }]. *)
Definition callback (key : string) (action : S -> S) (code : string) (s : S) : S :=
  if String.eqb code key then action s else s.

Definition effect (key : string) (action : S -> S) (w : world) : world :=
  let n := runs w in
  {| listeners := addEventListener {| ident := Callback n; handle := callback key action |}
                    (listeners w);
     runs := Datatypes.S n;
     mounted := mounted w;
     cleanup := Some n |}.

Definition run_cleanup (w : world) : world :=
  match cleanup w with
  | Some n =>
      {| listeners := removeEventListener (Callback n) (listeners w);
         runs := runs w; mounted := mounted w; cleanup := None |}
  | None => w
  end.

Definition unmounted (w : world) : world :=
  {| listeners := listeners w; runs := runs w; mounted := false;
     cleanup := cleanup w |}.

Definition with_listeners (f : list listener -> list listener) (w : world) : world :=
  {| listeners := f (listeners w); runs := runs w; mounted := mounted w;
     cleanup := cleanup w |}.

Inductive event :=
| Render (key : string) (action : S -> S)
    (* a render of the component with another [action] or another [key] *)
| Unmount
| Added (n : nat) (h : string -> S -> S)
    (* the rest of the page registers its function [Other n] *)
| Removed (n : nat).
    (* the rest of the page removes its function [Other n] *)

Definition step (w : world) (ev : event) : world :=
  match ev with
  | Render key action =>
      if mounted w then effect key action (run_cleanup w) else w
  | Unmount =>
      if mounted w then unmounted (run_cleanup w) else w
  | Added n h =>
      with_listeners (addEventListener {| ident := Other n; handle := h |}) w
  | Removed n =>
      with_listeners (removeEventListener (Other n)) w
  end.

Definition run (w : world) (evs : list event) : world :=
  fold_left step evs w.

(** The first render, in a document with the listeners [d]. *)
Definition mount (d : list listener) (key : string) (action : S -> S) : world :=
  effect key action
    {| listeners := d; runs := 0; mounted := true; cleanup := None |}.

(** The dispatch of a [keydown] event of code [code] to the listeners. *)
Definition keydown (code : string) (d : list listener) (s : S) : S :=
  fold_left (fun s l => handle l code s) d s.

(** The key and the action of the last run of the effect; none after the
    unmount. *)
Fixpoint current (deps : option (string * (S -> S))) (evs : list event)
  : option (string * (S -> S)) :=
  match evs with
  | [] => deps
  | Render key action :: evs' =>
      current (match deps with Some _ => Some (key, action) | None => None end) evs'
  | Unmount :: evs' => current None evs'
  | _ :: evs' => current deps evs'
  end.

(** The listeners of the rest of the page, from [d], as its own
    registrations and removals make them: the document as it is without the
    hook. *)
Fixpoint elsewhere (d : list listener) (evs : list event) : list listener :=
  match evs with
  | [] => d
  | Added n h :: evs' =>
      elsewhere (addEventListener {| ident := Other n; handle := h |} d) evs'
  | Removed n :: evs' => elsewhere (removeEventListener (Other n) d) evs'
  | _ :: evs' => elsewhere d evs'
  end.

(** The listeners are those of the rest of the page, [d], with, while the
    hook is mounted, the one callback of the last run of the effect among
    them. *)
Definition registered (d : list listener) (w : world)
    (deps : option (string * (S -> S))) : Prop :=
  Forall (fun l => is_other (ident l) = true) d /\
  match deps with
  | Some (key, action) =>
      mounted w = true /\
      exists n pre post,
        cleanup w = Some n /\ d = pre ++ post /\
        listeners w
        = pre ++ [{| ident := Callback n; handle := callback key action |}] ++ post
  | None =>
      mounted w = false /\ cleanup w = None /\ listeners w = d
  end.

End Hook.

End UseKey.

(* ------------------------------------------------------------------ *)
(** ** [Search] and what happens on the page *)
(* ------------------------------------------------------------------ *)

Module Search.

(** The controller of [App], whose caller's state holds the selection and
    the watched list, and whether [document.activeElement] is the input of
    [Search]. *)
Record page := {
  hook : @UseMovies.world App.state;
  input_focused : bool
}.

(** A handler of [App] that sets the selection or the watched list. *)
Definition with_outside (f : App.state -> App.state)
    (w : @UseMovies.world App.state) : @UseMovies.world App.state :=
  {| UseMovies.outside := f (UseMovies.outside w);
     UseMovies.mounted := UseMovies.mounted w;
     UseMovies.query := UseMovies.query w;
     UseMovies.movies := UseMovies.movies w;
     UseMovies.isLoading := UseMovies.isLoading w;
     UseMovies.error := UseMovies.error w;
     UseMovies.attempts := UseMovies.attempts w;
     UseMovies.cleanup := UseMovies.cleanup w;
     UseMovies.console := UseMovies.console w |}.

(** [setQuery(q)]: a render with the query [q]. *)
Definition setQuery (q : string) (p : page) : page :=
  {| hook := UseMovies.step HookProps.app_callback (hook p) (UseMovies.QueryChange q);
     input_focused := input_focused p |}.

(** [inputEl.current.focus()]. *)
Definition focus (p : page) : page :=
  {| hook := hook p; input_focused := true |}.

Definition handleEnter (p : page) : page :=
  if input_focused p then p
  else setQuery "" (focus p).

(** [onCloseMovie] of [MovieDetails], which is [handleCloseMovie]. *)
Definition onCloseMovie (p : page) : page :=
  {| hook := with_outside App.handleCloseMovie (hook p);
     input_focused := input_focused p |}.

(** What happens on the page: an event of the controller (a change of the
    query typed into the input, the settling of a promise, the unmount), a
    click on the second box, the input getting or losing the focus, and the
    Enter key, which [useKey] gives to [handleEnter]. The handlers of the
    clicks set the selection and the watched list, which are no dependencies
    of the effect of the controller. *)
Inductive event :=
| Controller (ev : UseMovies.event)
| Click (c : MovieDetails.click)
| Focus (focused : bool)
| Enter.

Definition step (p : page) (ev : event) : page :=
  match ev with
  | Controller ev =>
      {| hook := UseMovies.step HookProps.app_callback (hook p) ev;
         input_focused := input_focused p |}
  | Click c =>
      {| hook := with_outside (fun s => MovieDetails.click_step s c) (hook p);
         input_focused := input_focused p |}
  | Focus focused =>
      {| hook := hook p; input_focused := focused |}
  | Enter => handleEnter p
  end.

Definition run (p : page) (evs : list event) : page :=
  fold_left step evs p.

(** The first render of [App], with the watched list and the selection of
    [x] and the query [q]; the input has no focus. *)
Definition mount (x : App.state) (q : string) : page :=
  {| hook := UseMovies.mount HookProps.app_callback x q; input_focused := false |}.

End Search.

(* ================================================================== *)
(** ** The watched list: add, delete, select *)
(* ================================================================== *)

Module AppFacts.

Import App Props.

Lemma filter_other_ids_absent (id : string) (w : list WatchedMovie) :
  ~ In id (map imdbID w) ->
  filter (fun movie => negb (String.eqb (imdbID movie) id)) w = w.
Proof.
  induction w as [|e w IH]; intros Hnot; [reflexivity|].
  cbn [filter map In] in *.
  destruct (String.eqb_spec (imdbID e) id) as [Heq|Hne].
  - exfalso. apply Hnot. now left.
  - cbn [negb]. f_equal. apply IH. intros Hin. apply Hnot. now right.
Qed.

Lemma filter_other_ids_forall (id : string) (w : list WatchedMovie) :
  Forall (fun m => imdbID m <> id)
         (filter (fun movie => negb (String.eqb (imdbID movie) id)) w).
Proof.
  induction w as [|e w IH]; cbn [filter]; [constructor|].
  destruct (String.eqb_spec (imdbID e) id); cbn [negb]; auto.
Qed.

Lemma filter_other_ids_subseq (id : string) (w : list WatchedMovie) :
  subseq (filter (fun movie => negb (String.eqb (imdbID movie) id)) w) w.
Proof.
  induction w as [|e w IH]; cbn [filter]; [constructor|].
  destruct (String.eqb (imdbID e) id); cbn [negb]; now constructor.
Qed.

Lemma filter_other_ids_length (id : string) (w : list WatchedMovie) :
  List.length w =
  List.length (filter (fun movie => negb (String.eqb (imdbID movie) id)) w)
  + count_id id w.
Proof.
  unfold count_id.
  induction w as [|e w IH]; cbn [filter]; [reflexivity|].
  destruct (String.eqb (imdbID e) id); cbn [negb List.length]; lia.
Qed.

Lemma count_id_present (id : string) (w : list WatchedMovie) :
  In id (map imdbID w) -> 0 < count_id id w.
Proof.
  unfold count_id.
  induction w as [|e w IH]; cbn [map In filter]; [tauto|].
  intros [Heq|Hin].
  - rewrite Heq, String.eqb_refl. cbn. lia.
  - destruct (String.eqb (imdbID e) id); cbn [List.length]; auto with arith.
Qed.

Lemma count_id_app (id : string) (w1 w2 : list WatchedMovie) :
  count_id id (w1 ++ w2) = count_id id w1 + count_id id w2.
Proof.
  unfold count_id. now rewrite filter_app, length_app.
Qed.

Lemma filter_unique_id (id : string) (w : list WatchedMovie) :
  NoDup (map imdbID w) -> In id (map imdbID w) ->
  removes_exactly_one id w
    (filter (fun movie => negb (String.eqb (imdbID movie) id)) w).
Proof.
  induction w as [|e w IH]; cbn [map In filter]; [tauto|].
  intros Hnd Hin.
  apply NoDup_cons_iff in Hnd as [Hfresh Hnd].
  destruct (String.eqb_spec (imdbID e) id) as [Heq|Hne]; cbn [negb].
  - exists [], e, w. rewrite filter_other_ids_absent by (now rewrite <- Heq).
    now repeat split.
  - destruct Hin as [Heq|Hin]; [contradiction|].
    destruct (IH Hnd Hin) as (l1 & x & l2 & Hw & Hx & Hw').
    exists (e :: l1), x, l2. cbn [app]. now rewrite <- Hw, <- Hw'.
Qed.

(** C6, as stated, fails: after the same identifier was added twice (see
    C7), deleting it takes both entries out, so the result is not the
    collection with exactly one entry removed. *)
Lemma delete_takes_out_both_duplicates :
  let s := handleAddWatched alien_again (handleAddWatched alien empty_app) in
  In "tt1" (map imdbID (watched s)) /\
  watched (handleDeleteWatched "tt1" s) = [] /\
  ~ removes_exactly_one "tt1" (watched s) (watched (handleDeleteWatched "tt1" s)).
Proof.
  cbn. split; [now left|]. split; [reflexivity|].
  intros (l1 & e & l2 & Hw & _ & Hw').
  symmetry in Hw'. apply app_eq_nil in Hw' as [-> ->].
  discriminate Hw.
Qed.

(** C6, amended: deleting an identifier that is present removes every
    entry that carries it and nothing else. No entry with the identifier
    remains, the result is the collection with entries left out and the
    others in their order, and the entries left out are as many as carried
    the identifier. When the identifiers of the collection are unique,
    exactly one entry is removed. The selection is untouched. *)
Theorem delete_removes_entries_with_id (id : string) (s : state) :
  In id (map imdbID (watched s)) ->
  let w := watched s in
  let w' := watched (handleDeleteWatched id s) in
  selectedId (handleDeleteWatched id s) = selectedId s /\
  Forall (fun m => imdbID m <> id) w' /\
  subseq w' w /\
  List.length w = List.length w' + count_id id w /\
  0 < count_id id w /\
  (NoDup (map imdbID w) -> removes_exactly_one id w w').
Proof.
  intros Hin w w'. subst w w'. cbn [handleDeleteWatched setWatched watched selectedId].
  split; [reflexivity|].
  split; [apply filter_other_ids_forall|].
  split; [apply filter_other_ids_subseq|].
  split; [apply filter_other_ids_length|].
  split; [now apply count_id_present|].
  intros Hnd. now apply filter_unique_id.
Qed.

Lemma delete_removes_entries_with_id_witness :
  let s := handleAddWatched aliens (handleAddWatched alien empty_app) in
  In "tt1" (map imdbID (watched s)) /\
  watched (handleDeleteWatched "tt1" s) = [aliens] /\
  removes_exactly_one "tt1" (watched s) (watched (handleDeleteWatched "tt1" s)).
Proof.
  cbn zeta.
  assert (Hin : In "tt1" (map imdbID (watched (handleAddWatched aliens
                                (handleAddWatched alien empty_app)))))
    by (cbn; now left).
  split; [exact Hin|]. split; [reflexivity|].
  apply (delete_removes_entries_with_id "tt1" _ Hin).
  cbn. repeat constructor; cbn; intuition discriminate.
Defined.

(** C7: adding an entry appends it at the end of the collection, whatever
    the collection holds. The collection grows by one and every old entry
    stays; an old entry with the identifier of the new one is kept next to
    it, so the identifier then occurs at least twice. *)
Theorem add_appends_at_the_end (movie : WatchedMovie) (s : state) :
  let w := watched s in
  let w' := watched (handleAddWatched movie s) in
  w' = w ++ [movie] /\
  selectedId (handleAddWatched movie s) = selectedId s /\
  List.length w' = S (List.length w) /\
  count_id (imdbID movie) w' = S (count_id (imdbID movie) w) /\
  (forall old, In old w -> imdbID old = imdbID movie ->
               In old w' /\ In movie w' /\ 2 <= count_id (imdbID movie) w').
Proof.
  cbn zeta. cbn [handleAddWatched setWatched watched selectedId].
  assert (Hcount : count_id (imdbID movie) (watched s ++ [movie])
                   = S (count_id (imdbID movie) (watched s))).
  { rewrite count_id_app. unfold count_id at 2. cbn [filter].
    rewrite String.eqb_refl. cbn [List.length]. lia. }
  split; [reflexivity|]. split; [reflexivity|].
  split; [rewrite length_app; cbn [List.length]; lia|].
  split; [exact Hcount|].
  intros old Hold Hid.
  split; [apply in_or_app; now left|].
  split; [apply in_or_app; right; now left|].
  rewrite Hcount.
  assert (0 < count_id (imdbID movie) (watched s)); [|lia].
  apply count_id_present. rewrite <- Hid. now apply in_map.
Qed.

(** C9: with an identifier selected, selecting the same identifier again
    clears the selection, and selecting another one makes it the
    selection. The watched list is untouched. *)
Theorem select_movie_toggles (s : state) (cur id : string) :
  selectedId s = Some cur ->
  (id = cur -> selectedId (onSelectMovie id s) = None) /\
  (id <> cur -> selectedId (onSelectMovie id s) = Some id) /\
  watched (onSelectMovie id s) = watched s.
Proof.
  intros Hcur.
  unfold onSelectMovie, handleSelectMovie, setSelectedId.
  cbn [selectedId watched]. rewrite Hcur. cbn [strict_eq].
  destruct (String.eqb_spec id cur) as [Heq|Hne].
  - split; [reflexivity|]. split; [intros Hne; contradiction | reflexivity].
  - split; [intros Heq; contradiction|]. split; reflexivity.
Qed.

Lemma select_movie_toggles_witness :
  let s := {| selectedId := Some "tt1"; watched := [alien] |} in
  selectedId (onSelectMovie "tt1" s) = None /\
  selectedId (onSelectMovie "tt2" s) = Some "tt2".
Proof.
  cbn zeta. split.
  - apply (select_movie_toggles {| selectedId := Some "tt1"; watched := [alien] |}
             "tt1" "tt1" eq_refl); reflexivity.
  - apply (select_movie_toggles {| selectedId := Some "tt1"; watched := [alien] |}
             "tt1" "tt2" eq_refl); discriminate.
Defined.

(** C10: deleting an identifier that no entry carries gives back the
    collection as it was, and the whole state with it. *)
Theorem delete_absent_is_identity (id : string) (s : state) :
  ~ In id (map imdbID (watched s)) ->
  watched (handleDeleteWatched id s) = watched s /\
  handleDeleteWatched id s = s.
Proof.
  intros Hnot. destruct s as [sel w].
  unfold handleDeleteWatched, setWatched. cbn [watched selectedId] in *.
  rewrite (filter_other_ids_absent id w Hnot). split; reflexivity.
Qed.

Lemma delete_absent_is_identity_witness :
  let s := {| selectedId := None; watched := [alien; aliens] |} in
  ~ In "tt9" (map imdbID (watched s)) /\
  watched (handleDeleteWatched "tt9" s) = [alien; aliens].
Proof.
  cbn zeta.
  assert (Hnot : ~ In "tt9" (map imdbID
                   (watched {| selectedId := None; watched := [alien; aliens] |})))
    by (cbn; intuition discriminate).
  split; [exact Hnot|].
  apply (delete_absent_is_identity "tt9" _ Hnot).
Defined.

End AppFacts.

(* ================================================================== *)
(** ** The watched summary *)
(* ================================================================== *)

Module SummaryFacts.

Import App.

Lemma reduce_from_ignores_index {A B : Type} (g : B -> A -> list A -> B)
    (arr rest : list A) :
  forall (i : nat) (acc : B),
    JS.reduce_from (fun acc cur (_ : nat) arr => g acc cur arr) arr i rest acc
    = fold_left (fun acc cur => g acc cur arr) rest acc.
Proof.
  induction rest as [|cur rest IH]; intros i acc; cbn; [reflexivity|apply IH].
Qed.

Lemma fold_left_over_map {A B C : Type} (f : C -> B -> C) (g : A -> B) (l : list A) :
  forall acc, fold_left f (map g l) acc = fold_left (fun acc x => f acc (g x)) l acc.
Proof.
  induction l as [|x l IH]; intros acc; cbn; [reflexivity|apply IH].
Qed.

Lemma average_accumulates (arr : list JS.Number) :
  average arr
  = fold_left (fun acc cur => (acc + cur / JS.Number_of_nat (List.length arr))%float)
              arr zero.
Proof.
  unfold average, JS.reduce.
  apply (reduce_from_ignores_index
           (fun acc cur arr => (acc + cur / JS.Number_of_nat (List.length arr))%float)).
Qed.

Lemma average_of_field (field : WatchedMovie -> JS.Number) (watched : list WatchedMovie) :
  average (map field watched)
  = fold_left (fun acc movie =>
                 (acc + field movie / JS.Number_of_nat (List.length watched))%float)
              watched zero.
Proof.
  rewrite average_accumulates, length_map.
  apply (fold_left_over_map
           (fun acc cur => (acc + cur / JS.Number_of_nat (List.length watched))%float)
           field).
Qed.

(** C5: for the empty watched collection each of the three averages is
    the Number 0, which is not NaN; for every collection each average is
    what accumulating [value / length] over the entries gives, starting
    from 0. *)
Theorem watched_averages :
  (WatchedSummary []
   = {| avgImdbRating := zero; avgUserRating := zero; avgRuntime := zero |}
   /\ is_nan (avgImdbRating (WatchedSummary [])) = false
   /\ is_nan (avgUserRating (WatchedSummary [])) = false
   /\ is_nan (avgRuntime (WatchedSummary [])) = false)
  /\
  forall watched : list WatchedMovie,
    let length := JS.Number_of_nat (List.length watched) in
    avgImdbRating (WatchedSummary watched)
    = fold_left (fun acc movie => (acc + imdbRating movie / length)%float) watched zero
    /\ avgUserRating (WatchedSummary watched)
    = fold_left (fun acc movie => (acc + userRating movie / length)%float) watched zero
    /\ avgRuntime (WatchedSummary watched)
    = fold_left (fun acc movie => (acc + runtime movie / length)%float) watched zero.
Proof.
  split.
  - repeat split; reflexivity.
  - intros watched. cbn zeta. unfold WatchedSummary.
    cbn [avgImdbRating avgUserRating avgRuntime].
    repeat split; apply average_of_field.
Qed.

(** The averages of two entries rated 8.5 and 7.5, 9 and 8, lasting 117
    and 137 minutes. *)
Example watched_averages_of_two :
  WatchedSummary [Props.alien; Props.aliens]
  = {| avgImdbRating := 8%float; avgUserRating := 8.5%float; avgRuntime := 127%float |}.
Proof. vm_compute. reflexivity. Qed.

End SummaryFacts.

(* ================================================================== *)
(** ** The search controller *)
(* ================================================================== *)

Module UseMoviesFacts.

Import UseMovies HookProps.

(** *** The list of attempts *)

Lemma update_length (id : nat) (f : attempt -> attempt) (l : list attempt) :
  List.length (update id f l) = List.length l.
Proof.
  revert id. induction l as [|a l IH]; intros [|id]; cbn; auto.
Qed.

Lemma nth_error_update (id id' : nat) (f : attempt -> attempt) (l : list attempt) :
  nth_error (update id f l) id'
  = if Nat.eqb id id' then option_map f (nth_error l id') else nth_error l id'.
Proof.
  revert id id'. induction l as [|a l IH]; intros id id'.
  - destruct id; cbn [update]; destruct id'; cbn [nth_error option_map];
      now destruct (Nat.eqb _ _).
  - destruct id as [|id], id' as [|id']; cbn; auto.
Qed.

Lemma update_snoc (f : attempt -> attempt) (l : list attempt) (a : attempt) :
  update (List.length l) f (l ++ [a]) = l ++ [f a].
Proof.
  induction l as [|b l IH]; cbn; [reflexivity|now rewrite IH].
Qed.

Section Hook.

Context {X : Type}.
Variable callback : option (X -> X).

Local Abbreviation world := (@world X).
Local Abbreviation step := (step callback).
Local Abbreviation run := (run callback).
Local Abbreviation mount := (mount callback).

Ltac unfold_code :=
  unfold resume, fetchMovies_start, fetchMovies_after_fetch, fetchMovies_after_json, fetchMovies_catch,
    fetchMovies_finally, exec, bind, await, ret, throw, fetch,
    setMovies, setError, setIsLoading, console_error,
    with_attempts, with_cleanup, with_query, unmounted in *.

(** The two ways the settling of a promise leaves an attempt [a]. *)
Ltac attempt_waits a :=
  right; exists a; (split; [reflexivity|]); (split; [congruence|]);
  left; now repeat split.

Ltac attempt_ends a :=
  right; exists a; (split; [reflexivity|]); (split; [congruence|]);
  right; cbn; repeat split; congruence.

(** *** What one event does *)

(** The settling of a promise leaves the frame of the world alone; on an
    attempt that awaits it, it either moves the attempt to its second
    [await] without touching a cell, or ends the attempt, and then Loading
    is cleared, and nothing else is changed if the signal was aborted. *)
Lemma settle_shape (w : world) (id : nat) (ev : event) :
  settles id ev ->
  let w' := step w ev in
  outside w' = outside w /\ mounted w' = mounted w /\ query w' = query w /\
  cleanup w' = cleanup w /\
  (w' = w \/
   exists a,
     nth_error (attempts w) id = Some a /\ at_stage a <> Settled /\
     ((attempts w' = update id (set_stage AwaitingJson) (attempts w) /\
       isLoading w' = isLoading w /\ movies w' = movies w /\ error w' = error w)
      \/
      (attempts w' = update id (set_stage Settled) (attempts w) /\
       (mounted w = true -> isLoading w' = false) /\
       (mounted w = false -> isLoading w' = isLoading w) /\
       (aborted a = true -> movies w' = movies w /\ error w' = error w)))).
Proof.
  intros Hev.
  destruct ev as [q| |i r|i r]; cbn in Hev; try contradiction; subst i;
    cbn zeta; unfold UseMovies.step;
    destruct (nth_error (attempts w) id) as [a|] eqn:Ha; try (now auto 6);
    destruct (at_stage a) eqn:Hst; try (now auto 6);
    unfold delivered; destruct (aborted a) eqn:Hab;
    destruct w as [x m q mv ld er ats cl co]; cbn in Ha; cbn [UseMovies.attempts].
  - (* [fetch] rejects with the cancellation *)
    unfold_code; cbn. destruct m; cbn; repeat split; attempt_ends a.
  - (* [fetch] settles as the network decides *)
    destruct r as [[[|]]|e]; unfold_code; cbn.
    + repeat split; attempt_waits a.
    + destruct m; cbn; repeat split; attempt_ends a.
    + destruct (negb (JS.name e =? "AbortError")%string);
        destruct m; cbn; repeat split; attempt_ends a.
  - (* the body read rejects with the cancellation *)
    unfold_code; cbn. destruct m; cbn; repeat split; attempt_ends a.
  - (* the body read settles as the network decides *)
    destruct r as [[data|]|e]; unfold_code; cbn.
    + destruct (Response_is_False data);
        destruct m; cbn; repeat split; attempt_ends a.
    + destruct m; cbn; repeat split; attempt_ends a.
    + destruct (negb (JS.name e =? "AbortError")%string);
        destruct m; cbn; repeat split; attempt_ends a.
Qed.

Lemma run_cleanup_shape (w : world) :
  let w' := run_cleanup w in
  mounted w' = mounted w /\ query w' = query w /\ movies w' = movies w /\
  isLoading w' = isLoading w /\ error w' = error w /\ cleanup w' = None /\
  attempts w' = match cleanup w with
                | Some c => update c set_aborted (attempts w)
                | None => attempts w
                end.
Proof.
  destruct w as [x m q mv ld er ats [c|] co]; cbn; now repeat split.
Qed.

(** The effect for a query below three characters. *)
Lemma effect_short (w : world) :
  String.length (query w) < 3 ->
  let w' := effect callback w in
  mounted w' = mounted w /\ query w' = query w /\ attempts w' = attempts w /\
  cleanup w' = None /\ isLoading w' = isLoading w /\
  (mounted w = true -> movies w' = Some [] /\ error w' = "").
Proof.
  intros Hlen. apply Nat.ltb_lt in Hlen.
  destruct w as [x m q mv ld er ats cl co]; cbn in Hlen.
  unfold effect, call_callback; destruct callback; cbn; rewrite Hlen;
    unfold_code; cbn; destruct m; cbn; repeat split; congruence.
Qed.

(** The effect for a query of three characters or more. *)
Lemma effect_long (w : world) :
  3 <= String.length (query w) ->
  let w' := effect callback w in
  mounted w' = mounted w /\ query w' = query w /\
  attempts w' = attempts w ++ [{| url := search_url (query w); aborted := false;
                                  at_stage := AwaitingFetch |}] /\
  cleanup w' = Some (List.length (attempts w)) /\ movies w' = movies w /\
  (mounted w = true -> isLoading w' = true /\ error w' = "").
Proof.
  intros Hlen. apply Nat.ltb_ge in Hlen.
  destruct w as [x m q mv ld er ats cl co]; cbn in Hlen.
  unfold effect, call_callback; destruct callback; cbn; rewrite Hlen;
    unfold_code; destruct m; cbn; rewrite update_snoc; cbn;
    repeat split; congruence.
Qed.

(** *** Invariants of the reachable worlds *)

Lemma run_invariant (P : world -> Prop) :
  (forall w ev, P w -> P (step w ev)) ->
  forall evs w, P w -> P (run w evs).
Proof.
  intros Hstep. induction evs as [|ev evs IH]; intros w Hw; [exact Hw|].
  exact (IH (step w ev) (Hstep w ev Hw)).
Qed.

Lemma cleanup_aborts_all (w : world) :
  stale_aborted w ->
  forall id a,
    nth_error (attempts (run_cleanup w)) id = Some a ->
    at_stage a <> Settled -> aborted a = true.
Proof.
  intros Hinv id a.
  destruct (run_cleanup_shape w) as (_ & _ & _ & _ & _ & _ & ->).
  destruct (cleanup w) as [c|] eqn:Hc.
  - rewrite nth_error_update. destruct (Nat.eqb_spec c id) as [->|Hne].
    + destruct (nth_error (attempts w) id); cbn; [|discriminate].
      intros [= <-]. reflexivity.
    + intros Ha Hst. apply (Hinv id a Ha Hst). rewrite Hc. congruence.
  - intros Ha Hst. apply (Hinv id a Ha Hst). rewrite Hc. discriminate.
Qed.

Lemma effect_stale_aborted (w : world) :
  (forall id a, nth_error (attempts w) id = Some a ->
                at_stage a <> Settled -> aborted a = true) ->
  stale_aborted (effect callback w).
Proof.
  intros Hall id a Ha Hst Hcl.
  destruct (Nat.lt_ge_cases (String.length (query w)) 3) as [Hlen|Hlen].
  - destruct (effect_short w Hlen) as (_ & _ & Hats & _).
    rewrite Hats in Ha. eauto.
  - destruct (effect_long w Hlen) as (_ & _ & Hats & Hc & _).
    rewrite Hats in Ha. rewrite Hc in Hcl.
    destruct (Nat.lt_ge_cases id (List.length (attempts w))) as [Hlt|Hge].
    + rewrite nth_error_app1 in Ha by exact Hlt. eauto.
    + rewrite nth_error_app2 in Ha by exact Hge.
      destruct (id - List.length (attempts w)) as [|k] eqn:Hk.
      * exfalso. apply Hcl. f_equal. lia.
      * destruct k; discriminate Ha.
Qed.

Lemma stale_aborted_step (w : world) (ev : event) :
  stale_aborted w -> stale_aborted (step w ev).
Proof.
  intros Hinv.
  destruct ev as [q| |i r|i r].
  - cbn. destruct (negb (mounted w) || (q =? query w)%string); [exact Hinv|].
    apply effect_stale_aborted. cbn. now apply cleanup_aborts_all.
  - cbn. destruct (mounted w); [|exact Hinv].
    intros id a Ha Hst _. cbn in Ha. now apply (cleanup_aborts_all w Hinv id a).
  - destruct (settle_shape w i (FetchSettles i r) eq_refl)
      as (_ & _ & _ & Hc & [-> | (a & Ha & Hst & [(Hats & _) | (Hats & _)])]);
      [exact Hinv | |];
      intros id' a' Ha' Hst' Hcl'; rewrite Hats, nth_error_update in Ha';
      rewrite Hc in Hcl';
      (destruct (Nat.eqb_spec i id') as [<-|Hne];
       [rewrite Ha in Ha'; injection Ha' as <-; cbn in *; try congruence;
        now apply (Hinv i a)
       |now apply (Hinv id' a')]).
  - destruct (settle_shape w i (JsonSettles i r) eq_refl)
      as (_ & _ & _ & Hc & [-> | (a & Ha & Hst & [(Hats & _) | (Hats & _)])]);
      [exact Hinv | |];
      intros id' a' Ha' Hst' Hcl'; rewrite Hats, nth_error_update in Ha';
      rewrite Hc in Hcl';
      (destruct (Nat.eqb_spec i id') as [<-|Hne];
       [rewrite Ha in Ha'; injection Ha' as <-; cbn in *; try congruence;
        now apply (Hinv i a)
       |now apply (Hinv id' a')]).
Qed.

Lemma stale_aborted_mount (x : X) (q : string) : stale_aborted (mount x q).
Proof.
  apply effect_stale_aborted. intros [|id] a; discriminate.
Qed.

Lemma stale_aborted_reachable (x : X) (q : string) (evs : list event) :
  stale_aborted (run (mount x q) evs).
Proof.
  apply run_invariant; [exact stale_aborted_step | apply stale_aborted_mount].
Qed.

Lemma in_flight_after_settle (w : world) (i id : nat) (ev : event) :
  settles i ev -> in_flight w id ->
  in_flight (step w ev) id \/
  (i = id /\ (mounted w = true -> isLoading (step w ev) = false)).
Proof.
  intros Hev (a & Ha & Hst).
  destruct (settle_shape w i ev Hev)
    as (_ & _ & _ & _ & [-> | (b & Hb & Hbst & [(Hats & _) | (Hats & Hld & _)])]).
  - left. now exists a.
  - left. unfold in_flight. rewrite Hats, nth_error_update, Ha.
    destruct (Nat.eqb i id); cbn; eexists; (split; [reflexivity|]); cbn; congruence.
  - destruct (Nat.eqb_spec i id) as [Heq|Hne].
    + right. now split.
    + left. unfold in_flight. rewrite Hats, nth_error_update, Ha.
      apply Nat.eqb_neq in Hne. rewrite Hne. now exists a.
Qed.

Lemma settle_loading_monotone (w : world) (i : nat) (ev : event) :
  settles i ev -> isLoading (step w ev) = true -> isLoading w = true.
Proof.
  intros Hev.
  destruct (settle_shape w i ev Hev)
    as (_ & _ & _ & _ & [-> | (b & _ & _ & [(_ & -> & _) | (_ & Hld & Hun & _)])]);
    auto.
  destruct (mounted w); [rewrite Hld by reflexivity; discriminate|].
  now rewrite Hun.
Qed.

Lemma in_flight_after_cleanup (w : world) (id : nat) :
  in_flight w id -> in_flight (run_cleanup w) id.
Proof.
  intros (a & Ha & Hst). unfold in_flight.
  destruct (run_cleanup_shape w) as (_ & _ & _ & _ & _ & _ & ->).
  destruct (cleanup w) as [c|]; [|now exists a].
  rewrite nth_error_update, Ha.
  destruct (Nat.eqb c id); cbn; eexists; (split; [reflexivity|]); cbn; congruence.
Qed.

Lemma loading_has_attempt_step (w : world) (ev : event) :
  loading_has_attempt w -> loading_has_attempt (step w ev).
Proof.
  intros Hinv.
  destruct ev as [q| |i r|i r].
  - cbn. destruct (negb (mounted w) || (q =? query w)%string); [exact Hinv|].
    set (w1 := with_query q (run_cleanup w)).
    assert (Hkeep : forall id, in_flight w id -> in_flight w1 id)
      by (intros id Hid; exact (in_flight_after_cleanup w id Hid)).
    assert (Hm : mounted w1 = mounted w)
      by (subst w1; cbn; apply (run_cleanup_shape w)).
    assert (Hld : isLoading w1 = isLoading w)
      by (subst w1; cbn; apply (run_cleanup_shape w)).
    destruct (Nat.lt_ge_cases (String.length (query w1)) 3) as [Hlen|Hlen].
    + destruct (effect_short w1 Hlen) as (Hm' & _ & Hats & _ & Hld' & _).
      intros Hmt Hl. rewrite Hm', Hm in Hmt. rewrite Hld', Hld in Hl.
      destruct (Hinv Hmt Hl) as (id & Hid). exists id.
      destruct (Hkeep id Hid) as (a & Ha & Hst). exists a. now rewrite Hats.
    + destruct (effect_long w1 Hlen) as (_ & _ & Hats & _).
      intros _ _. exists (List.length (attempts w1)). unfold in_flight.
      rewrite Hats, nth_error_app2, Nat.sub_diag by reflexivity. cbn.
      eexists; split; [reflexivity|discriminate].
  - cbn. destruct (mounted w) eqn:Hm; [|exact Hinv]. intros Hm'. discriminate Hm'.
  - intros Hm Hl.
    destruct (settle_shape w i (FetchSettles i r) eq_refl) as (_ & Hm' & _).
    rewrite Hm' in Hm.
    pose proof (settle_loading_monotone w i (FetchSettles i r) eq_refl Hl) as Hl0.
    destruct (Hinv Hm Hl0) as (id & Hid). 
    destruct (in_flight_after_settle w i id (FetchSettles i r) eq_refl Hid)
      as [Hin | (_ & Hoff)]; [now exists id|].
    rewrite (Hoff Hm) in Hl. discriminate.
  - intros Hm Hl.
    destruct (settle_shape w i (JsonSettles i r) eq_refl) as (_ & Hm' & _).
    rewrite Hm' in Hm.
    pose proof (settle_loading_monotone w i (JsonSettles i r) eq_refl Hl) as Hl0.
    destruct (Hinv Hm Hl0) as (id & Hid). 
    destruct (in_flight_after_settle w i id (JsonSettles i r) eq_refl Hid)
      as [Hin | (_ & Hoff)]; [now exists id|].
    rewrite (Hoff Hm) in Hl. discriminate.
Qed.

Lemma loading_has_attempt_mount (x : X) (q : string) :
  loading_has_attempt (mount x q).
Proof.
  unfold UseMovies.mount.
  set (w0 := {| outside := x; mounted := true; query := q; movies := Some [];
                isLoading := false; error := ""; attempts := []; cleanup := None;
                console := [] |}).
  destruct (Nat.lt_ge_cases (String.length (query w0)) 3) as [Hlen|Hlen].
  - destruct (effect_short w0 Hlen) as (_ & _ & _ & _ & Hld & _).
    intros _ Hl. rewrite Hld in Hl. discriminate.
  - destruct (effect_long w0 Hlen) as (_ & _ & Hats & _).
    intros _ _. exists 0. unfold in_flight. rewrite Hats. cbn.
    eexists; split; [reflexivity|discriminate].
Qed.

Lemma loading_has_attempt_reachable (x : X) (q : string) (evs : list event) :
  loading_has_attempt (run (mount x q) evs).
Proof.
  apply run_invariant; [exact loading_has_attempt_step | apply loading_has_attempt_mount].
Qed.

(** *** Loading over the lifetime of an attempt *)

Lemma loading_trace_head (w : world) (evs : list event) :
  exists rest, loading_trace callback w evs = isLoading w :: rest.
Proof.
  destruct evs; cbn; eauto.
Qed.

Lemma transitions_after_clear (evs : list event) :
  forall w,
    isLoading w = false ->
    Forall (fun ev => exists i, settles i ev) evs ->
    transitions (loading_trace callback w evs) = 0.
Proof.
  induction evs as [|ev evs IH]; intros w Hl Hevs; cbn [loading_trace].
  - now rewrite Hl.
  - apply Forall_cons_iff in Hevs as [(i & Hev) Hevs].
    assert (Hl' : isLoading (step w ev) = false).
    { destruct (isLoading (step w ev)) eqn:E; [|reflexivity].
      rewrite (settle_loading_monotone w i ev Hev E) in Hl. discriminate. }
    specialize (IH (step w ev) Hl' Hevs).
    destruct (loading_trace_head (step w ev) evs) as (rest & Hrest).
    rewrite Hrest in *. rewrite Hl. exact IH.
Qed.

Lemma transitions_in_lifetime (id : nat) (evs : list event) :
  forall w,
    mounted w = true -> isLoading w = true -> in_flight w id ->
    Forall (fun ev => exists i, settles i ev) evs ->
    ~ in_flight (run w evs) id ->
    transitions (loading_trace callback w evs) = 1.
Proof.
  induction evs as [|ev evs IH]; intros w Hm Hl Hin Hevs Hout.
  - contradiction.
  - apply Forall_cons_iff in Hevs as [(i & Hev) Hevs].
    cbn [loading_trace]. rewrite Hl.
    destruct (loading_trace_head (step w ev) evs) as (rest & Hrest).
    destruct (isLoading (step w ev)) eqn:Hl'.
    + assert (Hm' : mounted (step w ev) = true).
      { destruct (settle_shape w i ev Hev) as (_ & -> & _). exact Hm. }
      assert (Hin' : in_flight (step w ev) id).
      { destruct (in_flight_after_settle w i id ev Hev Hin) as [H | (_ & Hoff)];
          [exact H|]. rewrite (Hoff Hm) in Hl'. discriminate. }
      specialize (IH (step w ev) Hm' Hl' Hin' Hevs Hout).
      rewrite Hrest in *. cbn [transitions]. exact IH.
    + pose proof (transitions_after_clear evs (step w ev) Hl' Hevs) as H0.
      rewrite Hrest in *. cbn [transitions] in H0 |- *. now rewrite H0.
Qed.

Lemma loading_set_only_by_start (w : world) (ev : event) :
  isLoading w = false -> isLoading (step w ev) = true ->
  exists q, ev = QueryChange q /\ 3 <= String.length q.
Proof.
  intros Hl Hl'.
  destruct ev as [q| |i r|i r].
  - exists q. split; [reflexivity|]. cbn in Hl'.
    destruct (negb (mounted w) || (q =? query w)%string); [congruence|].
    destruct (Nat.lt_ge_cases (String.length q) 3) as [Hlen|Hlen]; [|exact Hlen].
    destruct (effect_short (with_query q (run_cleanup w)) Hlen)
      as (_ & _ & _ & _ & Hld & _).
    rewrite Hld in Hl'. cbn in Hl'.
    destruct (run_cleanup_shape w) as (_ & _ & _ & Hld' & _). congruence.
  - cbn in Hl'. destruct (mounted w); [|congruence]. cbn in Hl'.
    destruct (run_cleanup_shape w) as (_ & _ & _ & Hld' & _). congruence.
  - rewrite (settle_loading_monotone w i (FetchSettles i r) eq_refl Hl') in Hl.
    discriminate.
  - rewrite (settle_loading_monotone w i (JsonSettles i r) eq_refl Hl') in Hl.
    discriminate.
Qed.

Lemma start_is_in_flight (w : world) (q : string) :
  mounted w = true -> 3 <= String.length q -> q <> query w ->
  let w1 := step w (QueryChange q) in
  mounted w1 = true /\ isLoading w1 = true /\
  in_flight w1 (List.length (attempts w)) /\
  cleanup w1 = Some (List.length (attempts w)).
Proof.
  intros Hm Hlen Hq. cbn. rewrite Hm. cbn.
  apply String.eqb_neq in Hq. rewrite Hq.
  set (w0 := with_query q (run_cleanup w)).
  assert (Hm0 : mounted w0 = true).
  { subst w0. cbn. destruct (run_cleanup_shape w) as (-> & _). exact Hm. }
  assert (Hn : List.length (attempts w0) = List.length (attempts w)).
  { subst w0. cbn. destruct (run_cleanup_shape w) as (_ & _ & _ & _ & _ & _ & ->).
    destruct (cleanup w); [apply update_length|reflexivity]. }
  destruct (effect_long w0 Hlen) as (Hm1 & _ & Hats & Hc & _ & Hld).
  destruct (Hld Hm0) as (Hl & _).
  rewrite Hm1, Hc, Hn. repeat split; auto.
  unfold in_flight. rewrite Hats, <- Hn, nth_error_app2, Nat.sub_diag by reflexivity.
  cbn. eexists; split; [reflexivity|discriminate].
Qed.

(** *** What supersedes an attempt *)

(** An attempt is the current one from its start (see [start_is_in_flight])
    until the next query change or the unmount: the settling of a promise
    does not touch the pending cleanup. *)
Lemma settle_keeps_current (w : world) (i : nat) (ev : event) :
  settles i ev -> cleanup (step w ev) = cleanup w.
Proof.
  intros Hev. now destruct (settle_shape w i ev Hev) as (_ & _ & _ & Hc & _).
Qed.

(** A query change supersedes every attempt in flight. *)
Lemma query_change_supersedes (w : world) (q : string) (id : nat) :
  mounted w = true -> q <> query w -> in_flight w id ->
  superseded (step w (QueryChange q)) id.
Proof.
  intros Hm Hq Hin. cbn. rewrite Hm. cbn.
  apply String.eqb_neq in Hq. rewrite Hq.
  set (w0 := with_query q (run_cleanup w)).
  assert (Hin0 : in_flight w0 id) by (apply (in_flight_after_cleanup w id Hin)).
  destruct Hin0 as (a & Ha & Hst).
  destruct (Nat.lt_ge_cases (String.length (query w0)) 3) as [Hlen|Hlen].
  - destruct (effect_short w0 Hlen) as (_ & _ & Hats & Hc & _).
    split; [exists a; now rewrite Hats|]. rewrite Hc. discriminate.
  - destruct (effect_long w0 Hlen) as (_ & _ & Hats & Hc & _).
    assert (Hlt : id < List.length (attempts w0))
      by (apply nth_error_Some; congruence).
    split.
    + exists a. now rewrite Hats, nth_error_app1.
    + rewrite Hc. intros [= E]. subst w0. cbn in Hlt. lia.
Qed.

(** The unmount supersedes every attempt in flight. *)
Lemma unmount_supersedes (w : world) (id : nat) :
  mounted w = true -> in_flight w id -> superseded (step w Unmount) id.
Proof.
  intros Hm Hin. cbn. rewrite Hm.
  destruct (in_flight_after_cleanup w id Hin) as (a & Ha & Hst).
  destruct (run_cleanup_shape w) as (_ & _ & _ & _ & _ & Hc & _).
  split; [now exists a|]. cbn. rewrite Hc. discriminate.
Qed.

Lemma requests_after_update (id : nat) (l : list attempt) :
  map url (update id set_aborted l) = map url l.
Proof.
  revert id. induction l as [|a l IH]; intros [|id]; cbn; auto.
  now rewrite IH.
Qed.

(** *** What a response does to an attempt whose signal is not aborted *)

Lemma step_fetch_ok (w : world) (id : nat) (a : attempt) :
  nth_error (attempts w) id = Some a ->
  at_stage a = AwaitingFetch ->
  aborted a = false ->
  step w (FetchSettles id (JS.Fulfilled {| ok := true |}))
  = with_attempts (update id (set_stage AwaitingJson)) w.
Proof.
  intros Ha Hst Hab. unfold UseMovies.step. rewrite Ha, Hst.
  unfold delivered. rewrite Hab. reflexivity.
Qed.

Lemma step_fetch_not_ok (w : world) (id : nat) (a : attempt) :
  mounted w = true ->
  nth_error (attempts w) id = Some a ->
  at_stage a = AwaitingFetch ->
  aborted a = false ->
  let w' := step w (FetchSettles id (JS.Fulfilled {| ok := false |})) in
  attempts w' = update id (set_stage Settled) (attempts w) /\
  isLoading w' = false /\
  error w' = "Something went wrong while fetching movies" /\
  movies w' = movies w.
Proof.
  intros Hm Ha Hst Hab. cbn zeta. unfold UseMovies.step. rewrite Ha, Hst.
  unfold delivered. rewrite Hab.
  destruct w as [x m q mv ld er ats cl co]. cbn in Hm. subst m.
  unfold_code. cbn. now repeat split.
Qed.

Lemma step_json_data (w : world) (id : nat) (a : attempt) (data : Payload) :
  mounted w = true ->
  nth_error (attempts w) id = Some a ->
  at_stage a = AwaitingJson ->
  aborted a = false ->
  let w' := step w (JsonSettles id (JS.Fulfilled (Some data))) in
  attempts w' = update id (set_stage Settled) (attempts w) /\
  isLoading w' = false /\
  if Response_is_False data
  then error w' = "Movie not found" /\ movies w' = movies w
  else error w' = "" /\ movies w' = Search data.
Proof.
  intros Hm Ha Hst Hab. cbn zeta. unfold UseMovies.step. rewrite Ha, Hst.
  unfold delivered. rewrite Hab.
  destruct w as [x m q mv ld er ats cl co]. cbn in Hm. subst m.
  unfold_code. cbn. destruct (Response_is_False data); cbn; now repeat split.
Qed.

Lemma step_json_failure (w : world) (id : nat) (a : attempt)
    (r : JS.settlement (option Payload)) (err : JS.Error) :
  mounted w = true ->
  nth_error (attempts w) id = Some a ->
  at_stage a = AwaitingJson ->
  aborted a = false ->
  (r = JS.Fulfilled None /\ err = null_data_TypeError) \/
  (r = JS.Rejected err /\ JS.name err <> "AbortError") ->
  let w' := step w (JsonSettles id r) in
  attempts w' = update id (set_stage Settled) (attempts w) /\
  isLoading w' = false /\
  error w' = JS.message err /\
  movies w' = movies w.
Proof.
  intros Hm Ha Hst Hab Hr. cbn zeta. unfold UseMovies.step. rewrite Ha, Hst.
  unfold delivered. rewrite Hab.
  destruct w as [x m q mv ld er ats cl co]. cbn in Hm. subst m.
  destruct Hr as [(-> & ->) | (-> & Hname)].
  - unfold_code. cbn. now repeat split.
  - apply String.eqb_neq in Hname. unfold_code. cbn. rewrite Hname. cbn.
    now repeat split.
Qed.

(** *** The properties of the controller *)

(** C1: in every world the controller can reach, by any sequence of query
    changes, settlings and an unmount, the settling of a promise of a
    superseded attempt changes neither the movie list nor the error (nor
    the caller's state): its signal was aborted by the cleanup, so what
    [catch] receives is the cancellation. *)
Theorem superseded_fetch_changes_nothing
    (x : X) (q : string) (evs : list event) (id : nat) (ev : event) :
  let w := run (mount x q) evs in
  superseded w id -> settles id ev ->
  movies (step w ev) = movies w /\ error (step w ev) = error w /\
  outside (step w ev) = outside w.
Proof.
  intros w [(a & Ha & Hst) Hcl] Hev.
  pose proof (stale_aborted_reachable x q evs id a Ha Hst Hcl) as Hab.
  destruct (settle_shape w id ev Hev)
    as (Hout & _ & _ & _ & [-> | (b & Hb & _ & [(_ & _ & Hmv & Her) | (_ & _ & _ & Hkeep)])]).
  - now repeat split.
  - now repeat split.
  - subst w. rewrite Ha in Hb. injection Hb as <-.
    destruct (Hkeep Hab) as (Hmv & Her). now repeat split.
Qed.

(** C2: when the query changes to one of fewer than three characters the
    effect empties the movie list, empties the error and sends no request
    (the requests sent so far are the same; Loading is left as it was); the
    same holds for the first run of the effect at mount. The guard is
    evaluated in every world, whatever happened before. *)
Theorem short_query_clears_and_fetches_nothing (w : world) (q : string) :
  String.length q < 3 ->
  (mounted w = true -> q <> query w ->
   let w' := step w (QueryChange q) in
   movies w' = Some [] /\ error w' = "" /\
   map url (attempts w') = map url (attempts w) /\
   isLoading w' = isLoading w /\ cleanup w' = None)
  /\
  (forall x, let w' := mount x q in
             movies w' = Some [] /\ error w' = "" /\ attempts w' = [] /\
             isLoading w' = false).
Proof.
  intros Hlen. split.
  - intros Hm Hq. cbn. rewrite Hm. cbn.
    apply String.eqb_neq in Hq. rewrite Hq.
    set (w0 := with_query q (run_cleanup w)).
    destruct (run_cleanup_shape w) as (Hm0 & _ & _ & Hld0 & _ & _ & Hats0).
    destruct (effect_short w0 Hlen) as (_ & _ & Hats & Hc & Hld & Hclear).
    destruct Hclear as (Hmv & Her); [subst w0; cbn; congruence|].
    rewrite Hats, Hld. subst w0. cbn. rewrite Hats0.
    repeat split; auto.
    destruct (cleanup w); [apply requests_after_update|reflexivity].
  - intros x. cbn zeta. unfold UseMovies.mount.
    set (w0 := {| outside := x; mounted := true; query := q; movies := Some [];
                  isLoading := false; error := ""; attempts := []; cleanup := None;
                  console := [] |}).
    destruct (effect_short w0 Hlen) as (_ & _ & Hats & _ & Hld & Hclear).
    destruct (Hclear eq_refl) as (Hmv & Her). now repeat split.
Qed.

(** C3, amended: a response to an attempt whose signal is not aborted,
    whose body, if the response is OK, is read and parsed to a payload, ends
    in one of three ways. If it is not OK, the error is the transport-failure
    message; if it is OK and the [Response] field of the parsed payload is
    ["False"], the error is the not-found message; otherwise the movie list
    is the [Search] field of the payload and the error is empty. Loading is
    cleared and the attempt is over in each case, the movie list is kept in
    the two error cases, and the world shows exactly one of the three
    outcomes. An OK response whose body cannot be read or parsed, or parses
    to [null], ends the attempt with Loading cleared, the movie list kept
    and the message of that error as the error. *)
Theorem response_has_one_of_three_outcomes
    (w : world) (id : nat) (a : attempt) (res : FetchResponse) (data : Payload) :
  mounted w = true ->
  nth_error (attempts w) id = Some a ->
  at_stage a = AwaitingFetch ->
  aborted a = false ->
  let w1 := step w (FetchSettles id (JS.Fulfilled res)) in
  let w2 := step w1 (JsonSettles id (JS.Fulfilled (Some data))) in
  let final := if ok res then w2 else w1 in
  (ok res = false -> shows w data final TransportError) /\
  (ok res = true -> Response data = Some "False" -> shows w data final NotFound) /\
  (ok res = true -> Response data <> Some "False" -> shows w data final Success) /\
  ~ in_flight final id /\
  (exists o, shows w data final o /\ forall o', shows w data final o' -> o' = o) /\
  (ok res = true ->
   forall r err,
     (r = JS.Fulfilled None /\ err = null_data_TypeError) \/
     (r = JS.Rejected err /\ JS.name err <> "AbortError") ->
     let w3 := step w1 (JsonSettles id r) in
     error w3 = JS.message err /\ isLoading w3 = false /\ movies w3 = movies w /\
     ~ in_flight w3 id).
Proof.
  intros Hm Ha Hst Hab w1 w2 final.
  assert (Hunread :
            ok res = true ->
            forall r err,
              (r = JS.Fulfilled None /\ err = null_data_TypeError) \/
              (r = JS.Rejected err /\ JS.name err <> "AbortError") ->
              let w3 := step w1 (JsonSettles id r) in
              error w3 = JS.message err /\ isLoading w3 = false /\
              movies w3 = movies w /\ ~ in_flight w3 id).
  { intros Hok r err Hr w3. destruct res as [[|]]; [|discriminate Hok].
    assert (H1 : w1 = with_attempts (update id (set_stage AwaitingJson)) w)
      by (subst w1; exact (step_fetch_ok w id a Ha Hst Hab)).
    assert (Ha1 : nth_error (attempts w1) id = Some (set_stage AwaitingJson a)).
    { rewrite H1. cbn. now rewrite nth_error_update, Nat.eqb_refl, Ha. }
    assert (Hm1 : mounted w1 = true) by (rewrite H1; exact Hm).
    destruct (step_json_failure w1 id _ r err Hm1 Ha1 eq_refl Hab Hr)
      as (Hats & Hld & Her & Hmv).
    fold w3 in Hats, Hld, Her, Hmv.
    split; [exact Her|]. split; [exact Hld|].
    split; [rewrite Hmv, H1; reflexivity|].
    unfold in_flight. rewrite Hats. intros (b & Hb & Hbst).
    rewrite nth_error_update, Nat.eqb_refl, Ha1 in Hb. cbn in Hb.
    injection Hb as <-. now apply Hbst. }
  cut ((ok res = false -> shows w data final TransportError) /\
       (ok res = true -> Response data = Some "False" -> shows w data final NotFound) /\
       (ok res = true -> Response data <> Some "False" -> shows w data final Success) /\
       ~ in_flight final id /\
       (exists o, shows w data final o /\ forall o', shows w data final o' -> o' = o)).
  { intros (H1 & H2 & H3 & H4 & H5).
    exact (conj H1 (conj H2 (conj H3 (conj H4 (conj H5 Hunread))))). }
  clear Hunread.
  assert (Hover : forall l a0, nth_error l id = Some a0 ->
                               ~ (exists b, nth_error (update id (set_stage Settled) l) id
                                            = Some b /\ at_stage b <> Settled)).
  { intros l a0 Hl (b & Hb & Hbst). rewrite nth_error_update, Nat.eqb_refl, Hl in Hb.
    cbn in Hb. injection Hb as <-. now apply Hbst. }
  assert (Hone : forall o, shows w data final o ->
                           exists o0, shows w data final o0 /\
                                      forall o', shows w data final o' -> o' = o0).
  { intros o Ho. exists o. split; [exact Ho|].
    intros o' (_ & Ho'). destruct Ho as (_ & Ho).
    destruct o, o'; try reflexivity; destruct Ho as [Ho _], Ho' as [Ho' _];
      rewrite Ho in Ho'; discriminate Ho'. }
  destruct res as [[|]]; cbn [ok] in *.
  - (* OK: the body is read *)
    assert (H1 : w1 = with_attempts (update id (set_stage AwaitingJson)) w)
      by (subst w1; exact (step_fetch_ok w id a Ha Hst Hab)).
    assert (Ha1 : nth_error (attempts w1) id = Some (set_stage AwaitingJson a)).
    { rewrite H1. cbn. now rewrite nth_error_update, Nat.eqb_refl, Ha. }
    assert (Hm1 : mounted w1 = true) by (rewrite H1; exact Hm).
    pose proof (step_json_data w1 id _ data Hm1 Ha1 eq_refl Hab) as H2.
    fold w2 in H2. fold final in H2.
    assert (Hout : ~ in_flight final id).
    { unfold in_flight. destruct H2 as (-> & _). exact (Hover _ _ Ha1). }
    destruct H2 as (_ & Hld & Hcells).
    assert (Hmv1 : movies w1 = movies w) by now rewrite H1.
    unfold Response_is_False in Hcells.
    destruct (Response data) as [r|] eqn:Hr.
    + destruct (String.eqb_spec r "False") as [->|Hne].
      * assert (Hs : shows w data final NotFound)
          by (unfold shows, not_found_message; destruct Hcells as (? & ?);
              repeat split; congruence).
        split; [discriminate|]. split; [auto|].
        split; [intros _ H; now contradiction H|]. split; [exact Hout|].
        now apply (Hone NotFound).
      * assert (Hs : shows w data final Success)
          by (unfold shows; destruct Hcells as (? & ?); repeat split; congruence).
        split; [discriminate|]. split; [intros _ [= H]; contradiction|].
        split; [auto|]. split; [exact Hout|].
        now apply (Hone Success).
    + assert (Hs : shows w data final Success)
        by (unfold shows; destruct Hcells as (? & ?); repeat split; congruence).
      split; [discriminate|]. split; [discriminate|].
      split; [auto|]. split; [exact Hout|].
      now apply (Hone Success).
  - (* not OK *)
    destruct (step_fetch_not_ok w id a Hm Ha Hst Hab) as (Hats & Hld & Her & Hmv).
    fold w1 in Hats, Hld, Her, Hmv. fold final in Hats, Hld, Her, Hmv.
    assert (Hs : shows w data final TransportError)
      by (unfold shows, transport_failure_message; repeat split; congruence).
    split; [auto|]. split; [discriminate|]. split; [discriminate|].
    split; [unfold in_flight; rewrite Hats; exact (Hover _ _ Ha)|].
    now apply (Hone TransportError).
Qed.

(** C4: in every reachable world of the mounted controller, every
    attempt clears Loading when it ends, whether in Success, in Error or by
    cancellation, and Loading is set only when an attempt starts. So after
    all attempts have resolved Loading is false, and there Loading is false
    only when the most recent attempt has terminated. An attempt that
    starts, by a change of the query or at the mount, is in flight with
    Loading set, and if no query change and no unmount supersedes it before
    it ends, the flag makes exactly one Loading-to-non-Loading transition
    between its start and its end. *)
Theorem loading_cleared_by_every_terminal_outcome
    (x : X) (q : string) (evs : list event) :
  let w := run (mount x q) evs in
  mounted w = true ->
  (forall id ev, settles id ev -> in_flight w id -> ~ in_flight (step w ev) id ->
                 isLoading (step w ev) = false) /\
  (forall ev, isLoading w = false -> isLoading (step w ev) = true ->
              exists q', ev = QueryChange q' /\ 3 <= String.length q') /\
  ((forall id, ~ in_flight w id) ->
   isLoading w = false /\ loading_tracks_latest w) /\
  (forall q' evs',
      3 <= String.length q' -> q' <> query w ->
      Forall (fun ev => exists i, settles i ev) evs' ->
      let id := List.length (attempts w) in
      let w1 := step w (QueryChange q') in
      in_flight w1 id /\ isLoading w1 = true /\
      (~ in_flight (run w1 evs') id ->
       transitions (loading_trace callback w1 evs') = 1)) /\
  (forall evs',
      3 <= String.length q ->
      Forall (fun ev => exists i, settles i ev) evs' ->
      in_flight (mount x q) 0 /\ isLoading (mount x q) = true /\
      (~ in_flight (run (mount x q) evs') 0 ->
       transitions (loading_trace callback (mount x q) evs') = 1)).
Proof.
  intros w Hm.
  split; [|split; [|split; [|split]]].
  - intros id ev Hev Hin Hout.
    destruct (in_flight_after_settle w id id ev Hev Hin) as [H | (_ & Hoff)];
      [contradiction|auto].
  - intros ev. apply loading_set_only_by_start.
  - intros Hnone. split.
    + destruct (isLoading w) eqn:Hl; [|reflexivity].
      destruct (loading_has_attempt_reachable x q evs Hm Hl) as (id & Hid).
      now destruct (Hnone id).
    + intros _. unfold latest_terminated.
      destruct (rev (attempts w)) as [|a l] eqn:Hrev; [exact I|].
      destruct (at_stage a) eqn:Hst; try reflexivity;
        exfalso; apply (Hnone (List.length (rev l))); exists a;
        (split; [|rewrite Hst; discriminate]);
        rewrite <- (rev_involutive (attempts w)), Hrev; cbn [rev];
        now rewrite nth_error_app2, Nat.sub_diag by reflexivity.
  - intros q' evs' Hlen Hq Hevs id w1.
    destruct (start_is_in_flight w q' Hm Hlen Hq) as (Hm1 & Hl1 & Hin1 & _).
    fold w1 in Hm1, Hl1, Hin1. fold id in Hin1.
    split; [exact Hin1|]. split; [exact Hl1|].
    intros Hout. now apply (transitions_in_lifetime id evs' w1).
  - intros evs' Hlen Hevs.
    assert (H0 : mounted (mount x q) = true /\ isLoading (mount x q) = true /\
                 in_flight (mount x q) 0).
    { unfold mount, UseMovies.mount.
      match goal with
      | |- context [effect callback ?w0] =>
          destruct (effect_long w0 Hlen) as (Hm0 & _ & Hats & _ & _ & Hstart);
          destruct (Hstart eq_refl) as (Hl0 & _);
          split; [rewrite Hm0; reflexivity|]; split; [exact Hl0|];
          unfold in_flight; rewrite Hats; cbn;
          eexists; split; [reflexivity|discriminate]
      end. }
    destruct H0 as (Hm0 & Hl0 & Hin0).
    split; [exact Hin0|]. split; [exact Hl0|].
    intros Hout. now apply (transitions_in_lifetime 0 evs' (mount x q)).
Qed.

End Hook.

(** *** The controller of [App] on concrete runs *)

Lemma superseded_fetch_changes_nothing_witness :
  let w := run app_callback app_mount [QueryChange "ali"; QueryChange "alie"] in
  let ev := FetchSettles 0 (JS.Fulfilled {| ok := true |}) in
  superseded w 0 /\ settles 0 ev /\
  movies (step app_callback w ev) = movies w /\
  error (step app_callback w ev) = error w.
Proof.
  intros w ev.
  assert (Hs : superseded w 0).
  { split; [|vm_compute; discriminate].
    eexists. split; [vm_compute; reflexivity|discriminate]. }
  split; [exact Hs|]. split; [reflexivity|].
  destruct (superseded_fetch_changes_nothing app_callback
              {| App.selectedId := None; App.watched := [] |} ""
              [QueryChange "ali"; QueryChange "alie"] 0 ev Hs eq_refl)
    as (Hmv & Her & _).
  split; [exact Hmv | exact Her].
Defined.

Lemma short_query_clears_and_fetches_nothing_witness :
  let w := run app_callback app_mount
             [QueryChange "xyz"; FetchSettles 0 (JS.Fulfilled {| ok := false |})] in
  let w' := step app_callback w (QueryChange "xy") in
  String.length "xy" < 3 /\ mounted w = true /\ "xy" <> query w /\
  error w = transport_failure_message /\
  movies w' = Some [] /\ error w' = "" /\
  map url (attempts w') = map url (attempts w).
Proof.
  intros w w'.
  assert (Hlen : String.length "xy" < 3) by (cbn; lia).
  assert (Hm : mounted w = true) by (vm_compute; reflexivity).
  assert (Hq : "xy" <> query w) by (vm_compute; discriminate).
  split; [exact Hlen|]. split; [exact Hm|]. split; [exact Hq|].
  split; [vm_compute; reflexivity|].
  destruct (short_query_clears_and_fetches_nothing app_callback w "xy" Hlen)
    as [Hchange _].
  destruct (Hchange Hm Hq) as (Hmv & Her & Hreq & _).
  split; [exact Hmv|]. split; [exact Her | exact Hreq].
Defined.

Lemma response_has_one_of_three_outcomes_witness :
  let w := run app_callback app_mount [QueryChange "ali"] in
  let a := {| url := search_url "ali"; aborted := false; at_stage := AwaitingFetch |} in
  let answer (res : FetchResponse) (data : Payload) :=
    let w1 := step app_callback w (FetchSettles 0 (JS.Fulfilled res)) in
    let w2 := step app_callback w1 (JsonSettles 0 (JS.Fulfilled (Some data))) in
    if ok res then w2 else w1 in
  (mounted w = true /\ nth_error (attempts w) 0 = Some a) /\
  shows w found_alien (answer {| ok := true |} found_alien) Success /\
  shows w no_match (answer {| ok := true |} no_match) NotFound /\
  shows w found_alien (answer {| ok := false |} found_alien) TransportError.
Proof.
  intros w a answer.
  assert (Hm : mounted w = true) by (vm_compute; reflexivity).
  assert (Ha : nth_error (attempts w) 0 = Some a) by (vm_compute; reflexivity).
  split; [split; [exact Hm | exact Ha]|].
  split; [|split].
  - destruct (response_has_one_of_three_outcomes app_callback w 0 a
                {| ok := true |} found_alien Hm Ha eq_refl eq_refl)
      as (_ & _ & Hsuccess & _).
    refine (Hsuccess eq_refl _). discriminate.
  - destruct (response_has_one_of_three_outcomes app_callback w 0 a
                {| ok := true |} no_match Hm Ha eq_refl eq_refl)
      as (_ & Hnotfound & _).
    exact (Hnotfound eq_refl eq_refl).
  - destruct (response_has_one_of_three_outcomes app_callback w 0 a
                {| ok := false |} found_alien Hm Ha eq_refl eq_refl)
      as (Hfailure & _).
    exact (Hfailure eq_refl).
Defined.

(** C3, as stated, fails: a response that is not cancelled and is OK, but
    whose body does not parse, ends the attempt in none of the three
    outcomes. The error is the message of the parse error, which is neither
    the transport-failure message nor the not-found message nor empty. *)
Lemma unparsed_body_is_none_of_the_three :
  let w := run app_callback app_mount [QueryChange "ali"] in
  let a := {| url := search_url "ali"; aborted := false; at_stage := AwaitingFetch |} in
  let garbled := {| JS.name := "SyntaxError";
                    JS.message := "Unexpected end of JSON input" |} in
  let w1 := step app_callback w (FetchSettles 0 (JS.Fulfilled {| ok := true |})) in
  let w2 := step app_callback w1 (JsonSettles 0 (JS.Rejected garbled)) in
  (mounted w = true /\ nth_error (attempts w) 0 = Some a /\ aborted a = false) /\
  ~ in_flight w2 0 /\
  error w2 = "Unexpected end of JSON input" /\
  forall data o, ~ shows w data w2 o.
Proof.
  vm_compute. repeat split.
  - intros (a & Ha & Hst). injection Ha as <-. now apply Hst.
  - intros data o (_ & Ho). destruct o; destruct Ho as [Ho _]; discriminate Ho.
Qed.

(** Errors the controller does not throw itself reach the same [catch]: a
    fetch that fails without a response, or a body that does not parse,
    ends the attempt in the Error state with the message of that error. *)
Example other_errors_show_their_message :
  let w := run app_callback app_mount [QueryChange "ali"] in
  let offline := {| JS.name := "TypeError"; JS.message := "Failed to fetch" |} in
  let garbled := {| JS.name := "SyntaxError";
                    JS.message := "Unexpected end of JSON input" |} in
  let w1 := step app_callback w (FetchSettles 0 (JS.Rejected offline)) in
  let w2 := run app_callback w [FetchSettles 0 (JS.Fulfilled {| ok := true |});
                                JsonSettles 0 (JS.Rejected garbled)] in
  (error w1 = "Failed to fetch" /\ isLoading w1 = false /\ movies w1 = Some []) /\
  (error w2 = "Unexpected end of JSON input" /\ isLoading w2 = false /\
   movies w2 = Some []).
Proof. vm_compute. repeat split. Qed.

(** Before all attempts have resolved, Loading can be false while the
    most recent attempt is in flight. The query changes from ["abc"] to
    ["abcd"] while the first fetch is in flight; the cleanup aborts it and
    the second attempt starts. When the cancellation of the first reaches
    its [finally], Loading is cleared although the second attempt is still
    in flight; the later end of that attempt, which is never superseded,
    finds Loading already false, so that the one transition of its lifetime
    is the one the cancellation made. And when the query shrinks to ["ab"]
    instead, the one Loading-to-non-Loading transition of the run is made by
    the superseded attempt, in a run that has no attempt that is not
    superseded. *)
Example loading_cleared_while_latest_in_flight :
  let w2 := run app_callback app_mount [QueryChange "abc"; QueryChange "abcd"] in
  let w3 := step app_callback w2 (FetchSettles 0 (JS.Rejected AbortError)) in
  let w4 := step app_callback w3 (FetchSettles 1 (JS.Fulfilled {| ok := true |})) in
  let w5 := step app_callback w4 (JsonSettles 1 (JS.Fulfilled (Some found_alien))) in
  let v2 := run app_callback app_mount [QueryChange "abc"; QueryChange "ab"] in
  let v3 := step app_callback v2 (FetchSettles 0 (JS.Rejected AbortError)) in
  (isLoading w2 = true /\ superseded w2 0 /\ in_flight w2 1 /\ ~ superseded w2 1) /\
  (isLoading w3 = false /\ in_flight w3 1 /\ ~ loading_tracks_latest w3) /\
  (isLoading w4 = false /\ isLoading w5 = false /\ ~ in_flight w5 1 /\
   movies w5 = Some [alien_summary]) /\
  (isLoading v2 = true /\ superseded v2 0 /\ List.length (attempts v2) = 1 /\
   isLoading v3 = false /\ ~ in_flight v3 0 /\
   transitions (loading_trace app_callback app_mount
                  [QueryChange "abc"; QueryChange "ab";
                   FetchSettles 0 (JS.Rejected AbortError)]) = 1).
Proof.
  vm_compute. repeat split.
  - eexists. split; [reflexivity|discriminate].
  - discriminate.
  - eexists. split; [reflexivity|discriminate].
  - intros [_ H]. now apply H.
  - eexists. split; [reflexivity|discriminate].
  - intros H. specialize (H eq_refl). discriminate H.
  - intros (a & Ha & Hst). injection Ha as <-. now apply Hst.
  - eexists. split; [reflexivity|discriminate].
  - discriminate.
  - intros (a & Ha & Hst). injection Ha as <-. now apply Hst.
Qed.

Lemma loading_cleared_by_every_terminal_outcome_witness :
  let w := run app_callback app_mount [QueryChange "abc"] in
  let w1 := step app_callback w (QueryChange "abcd") in
  let evs := [FetchSettles 0 (JS.Rejected AbortError);
              FetchSettles 1 (JS.Fulfilled {| ok := false |})] in
  mounted w = true /\
  in_flight w1 1 /\ isLoading w1 = true /\
  transitions (loading_trace app_callback w1 evs) = 1.
Proof.
  intros w w1 evs.
  assert (Hm : mounted w = true) by (vm_compute; reflexivity).
  split; [exact Hm|].
  destruct (loading_cleared_by_every_terminal_outcome app_callback
              {| App.selectedId := None; App.watched := [] |} ""
              [QueryChange "abc"] Hm)
    as (_ & _ & _ & Hlife & _).
  assert (Hlen : 3 <= String.length "abcd") by (cbn; lia).
  assert (Hq : "abcd" <> query w) by (vm_compute; discriminate).
  assert (Hevs : Forall (fun ev => exists i, settles i ev) evs)
    by (repeat constructor; [exists 0 | exists 1]; reflexivity).
  destruct (Hlife "abcd" evs Hlen Hq Hevs) as (Hin & Hl & Hone).
  split; [exact Hin|]. split; [exact Hl|].
  apply Hone. vm_compute. intros (a & Ha & Hst). injection Ha as <-. now apply Hst.
Defined.

End UseMoviesFacts.


(* ================================================================== *)
(** ** Adding the rated movie *)
(* ================================================================== *)

Module DetailFacts.

Import App Props.

(** *** Digits *)

Lemma digit_cases (d : N) :
  (d < 10)%N ->
  d = 0%N \/ d = 1%N \/ d = 2%N \/ d = 3%N \/ d = 4%N \/
  d = 5%N \/ d = 6%N \/ d = 7%N \/ d = 8%N \/ d = 9%N.
Proof. lia. Qed.

Ltac each_digit H :=
  apply digit_cases in H;
  repeat (destruct H as [H|H]); subst.

Lemma digit_value_digit_char (d : N) :
  (d < 10)%N -> JS.digit_value 10 (digit_char d) = Some d.
Proof. intros H. each_digit H; reflexivity. Qed.

Lemma digit_char_not_space (d : N) :
  (d < 10)%N -> JS.isStrWhiteSpaceChar (digit_char d) = false.
Proof. intros H. each_digit H; reflexivity. Qed.

Lemma digit_char_not_sign (d : N) (s : list ascii) :
  (d < 10)%N -> JS.sign_prefix (digit_char d :: s) = (false, digit_char d :: s).
Proof. intros H. each_digit H; reflexivity. Qed.

Lemma digit_char_not_radix (d : N) :
  (d < 10)%N -> JS.radix_of (digit_char d) = None.
Proof. intros H. each_digit H; reflexivity. Qed.

Lemma digit_char_not_separator (d : N) :
  (d < 10)%N -> Ascii.eqb (digit_char d) " " = false.
Proof. intros H. each_digit H; reflexivity. Qed.

Lemma digit_char_not_I (d : N) :
  (d < 10)%N -> digit_char d <> "I"%char.
Proof. intros H. each_digit H; discriminate. Qed.

Lemma digits_value_from (ds : list N) :
  forall acc,
    fold_left (fun acc d => (10 * acc + d)%N) ds acc
    = (acc * 10 ^ N.of_nat (List.length ds) + positional ds)%N.
Proof.
  induction ds as [|d ds IH]; intros acc; cbn [fold_left positional List.length].
  - cbn. lia.
  - rewrite IH, Nat2N.inj_succ, N.pow_succ_r'. lia.
Qed.

Lemma digits_value_positional (ds : list N) :
  JS.digits_value 10 ds = positional ds.
Proof.
  unfold JS.digits_value. rewrite digits_value_from. lia.
Qed.

Lemma span_digits_numeral (ds : list N) (rest : list ascii) :
  Forall (fun d => (d < 10)%N) ds ->
  match rest with
  | c :: _ => JS.digit_value 10 c = None
  | [] => True
  end ->
  JS.span_digits 10 (map digit_char ds ++ rest) = (ds, rest).
Proof.
  intros Hds Hrest. induction Hds as [|d ds Hd Hds IH]; cbn [map app JS.span_digits].
  - destruct rest as [|c r]; [reflexivity|]. cbn [JS.span_digits]. now rewrite Hrest.
  - now rewrite (digit_value_digit_char d Hd), IH.
Qed.

(** Unary [+] on strings, on the literals it accepts and on others. *)
Example StringToNumber_examples :
  JS.StringToNumber "117" = 117%float /\
  JS.StringToNumber "8.5" = 8.5%float /\
  JS.StringToNumber " 42 " = 42%float /\
  JS.StringToNumber "" = 0%float /\
  JS.StringToNumber "-0" = (-0)%float /\
  JS.StringToNumber "1e3" = 1000%float /\
  JS.StringToNumber ".5" = 0.5%float /\
  JS.StringToNumber "0x1F" = 31%float /\
  JS.StringToNumber "9007199254740993" = 9007199254740992%float /\
  JS.StringToNumber "-Infinity" = neg_infinity /\
  JS.StringToNumber "1e400" = infinity /\
  JS.StringToNumber "117 min" = JS.NaN /\
  JS.StringToNumber "N/A" = JS.NaN.
Proof. vm_compute. repeat split. Qed.

(** *** Trimming and splitting *)

Lemma trimStart_unspaced (s : list ascii) :
  Forall (fun c => JS.isStrWhiteSpaceChar c = false) s -> JS.trimStart s = s.
Proof.
  intros [|c s' Hc _]; cbn [JS.trimStart]; [reflexivity|now rewrite Hc].
Qed.

Lemma trim_unspaced (s : list ascii) :
  Forall (fun c => JS.isStrWhiteSpaceChar c = false) s -> JS.trim s = s.
Proof.
  intros Hs. unfold JS.trim.
  rewrite (trimStart_unspaced s Hs), trimStart_unspaced, rev_involutive;
    [reflexivity|].
  apply Forall_rev, Hs.
Qed.

Lemma digits_unspaced (ds : list N) :
  Forall (fun d => (d < 10)%N) ds ->
  Forall (fun c => JS.isStrWhiteSpaceChar c = false) (map digit_char ds).
Proof.
  intros Hds. apply Forall_map.
  eapply Forall_impl; [|exact Hds]. apply digit_char_not_space.
Qed.

Lemma split_numeral (ds : list N) (word : string) :
  Forall (fun d => (d < 10)%N) ds ->
  JS.split " " (numeral ds ++ String " " word) = numeral ds :: JS.split " " word.
Proof.
  intros Hds. unfold numeral.
  induction Hds as [|d ds Hd Hds IH]; cbn [map string_of_list_ascii append JS.split].
  - reflexivity.
  - now rewrite (digit_char_not_separator d Hd), IH.
Qed.

(** *** The Number of a decimal numeral *)

Lemma list_ascii_of_append (s1 s2 : string) :
  list_ascii_of_string (s1 ++ s2) = list_ascii_of_string s1 ++ list_ascii_of_string s2.
Proof.
  induction s1 as [|c s1 IH]; cbn; [reflexivity|now rewrite IH].
Qed.

Lemma spelled_unspaced (ip fp : list N) (point : bool) :
  Forall (fun d => (d < 10)%N) ip -> Forall (fun d => (d < 10)%N) fp ->
  Forall (fun c => JS.isStrWhiteSpaceChar c = false) (spelled ip fp point).
Proof.
  intros Hip Hfp. unfold spelled. apply Forall_app. split.
  - now apply digits_unspaced.
  - destruct point; [|constructor].
    constructor; [reflexivity|now apply digits_unspaced].
Qed.

Lemma spelled_not_NonDecimal (ip fp : list N) (point : bool) :
  Forall (fun d => (d < 10)%N) ip -> Forall (fun d => (d < 10)%N) fp ->
  JS.NonDecimalIntegerLiteral (spelled ip fp point) = None.
Proof.
  intros Hip Hfp. unfold spelled.
  destruct Hip as [|d ip Hd Hip].
  - destruct point; cbn; [|reflexivity].
    destruct Hfp as [|f fp Hf Hfp]; cbn; reflexivity.
  - cbn [map app]. destruct Hip as [|d1 ip Hd1 Hip]; cbn [map app].
    + destruct point; cbn [JS.NonDecimalIntegerLiteral]; [|reflexivity].
      now destruct (Ascii.eqb (digit_char d) "0").
    + cbn [JS.NonDecimalIntegerLiteral].
      rewrite (digit_char_not_radix d1 Hd1).
      now destruct (Ascii.eqb (digit_char d) "0").
Qed.

Lemma decimal_MV_value (ip fp : list N) :
  JS.decimal_MV (JS.digits_value 10 (ip ++ fp)) (0 - Z.of_nat (List.length fp))
  = decimal_value ip fp.
Proof.
  unfold JS.decimal_MV, decimal_value. rewrite digits_value_positional.
  destruct fp as [|f fp].
  - cbn [List.length Z.of_nat Z.sub Z.opp Z.add Z.leb Z.compare].
    unfold inject_Z. now rewrite Z.pow_0_r, Z.mul_1_r.
  - replace (0 <=? 0 - Z.of_nat (List.length (f :: fp)))%Z with false
      by (symmetry; apply Z.leb_gt; cbn [List.length]; lia).
    now replace (- (0 - Z.of_nat (List.length (f :: fp))))%Z
      with (Z.of_nat (List.length (f :: fp))) by lia.
Qed.

Lemma StringToNumber_spelled (s : string) (ip fp : list N) (point : bool) :
  list_ascii_of_string s = spelled ip fp point ->
  decimal_digits ip -> Forall (fun d => (d < 10)%N) fp ->
  (point = false -> fp = []) ->
  JS.StringToNumber s = JS.Number_of_MV false (decimal_value ip fp).
Proof.
  intros Hs [Hne Hip] Hfp Hpoint. unfold JS.StringToNumber.
  rewrite Hs, (trim_unspaced _ (spelled_unspaced ip fp point Hip Hfp)).
  pose proof (spelled_not_NonDecimal ip fp point Hip Hfp) as HND.
  destruct ip as [|d ip]; [contradiction|].
  apply Forall_cons_iff in Hip as [Hd Hip'].
  assert (Hip : Forall (fun d => (d < 10)%N) (d :: ip)) by now constructor.
  unfold spelled in *. cbn [map app] in *. cbv beta iota. rewrite HND.
  unfold JS.StrDecimalLiteral.
  rewrite (digit_char_not_sign d _ Hd). unfold JS.StrUnsignedDecimalLiteral.
  destruct (list_eq_dec ascii_dec _ _) as [E|_].
  { injection E as E _. now apply digit_char_not_I in E. }
  change (digit_char d :: map digit_char ip ++ (if point then "."%char :: map digit_char fp else []))
    with (map digit_char (d :: ip) ++ (if point then "."%char :: map digit_char fp else [])).
  rewrite (span_digits_numeral (d :: ip));
    [|exact Hip|destruct point; [reflexivity|exact I]].
  destruct point.
  - cbn [JS.fraction_part]. change (Ascii.eqb "." ".") with true. cbn match.
    rewrite <- (app_nil_r (map digit_char fp)), (span_digits_numeral fp []) by auto.
    cbn [app JS.exponent_part]. now rewrite <- decimal_MV_value.
  - rewrite (Hpoint eq_refl). cbn [JS.fraction_part app JS.exponent_part].
    rewrite <- decimal_MV_value. reflexivity.
Qed.

Lemma StringToNumber_decimal_numeral (r : string) (ip fp : list N) :
  decimal_numeral r ip fp ->
  JS.StringToNumber r = JS.Number_of_MV false (decimal_value ip fp).
Proof.
  intros [ds Hds | ds fs Hds Hfs].
  - apply (StringToNumber_spelled _ ds [] false); auto.
    unfold numeral, spelled. now rewrite list_ascii_of_string_of_list_ascii, app_nil_r.
  - apply (StringToNumber_spelled _ ds fs true); auto; [|apply Hfs|discriminate].
    unfold numeral, spelled.
    now rewrite !list_ascii_of_append, !list_ascii_of_string_of_list_ascii.
Qed.

Lemma decimal_value_integer (ds : list N) :
  decimal_value ds [] = inject_Z (Z.of_N (positional ds)).
Proof.
  unfold decimal_value. now rewrite app_nil_r.
Qed.

(** *** [handleAdd] *)

(** C8: committing a rating on a loaded detail whose [Runtime] is a decimal
    numeral followed by [" min"] and whose [imdbRating] is a decimal numeral
    adds, at the end of the watched list, the entry whose [runtime] is the
    Number of the integer that the leading numeral spells, whose
    [imdbRating] is the Number of the value of the rating numeral, whose
    [userRating] is the committed rating and whose [imdbID] is the selected
    identifier; the detail view is then closed. *)
Theorem handleAdd_builds_the_watched_entry
    (id : string) (movie : Detail.t) (rating : JS.Number) (count : nat) (s : state)
    (ds : list N) (r : string) (ip fp : list N) :
  decimal_digits ds ->
  Detail.Runtime movie = Some (numeral ds ++ " min")%string ->
  decimal_numeral r ip fp ->
  Detail.imdbRating movie = Some r ->
  handleAdd id movie rating count s
  = Some {| selectedId := None;
            watched :=
              watched s ++
              [{| imdbID := id;
                  title := Detail.Title movie;
                  year := Detail.Year movie;
                  poster := Detail.Poster movie;
                  runtime := JS.Number_of_MV false (inject_Z (Z.of_N (positional ds)));
                  imdbRating := JS.Number_of_MV false (decimal_value ip fp);
                  userRating := rating;
                  countRatingDecision := count |}] |}.
Proof.
  intros Hds Hruntime Hr Hrating.
  unfold handleAdd. rewrite Hruntime, Hrating.
  change (numeral ds ++ " min")%string with (numeral ds ++ String " " "min")%string.
  rewrite (split_numeral ds "min") by apply Hds.
  cbn [JS.at_ Z.ltb Z.compare Z.to_nat nth_error JS.unary_plus].
  rewrite (StringToNumber_decimal_numeral (numeral ds) ds [] (numeral_integer ds Hds)).
  rewrite (StringToNumber_decimal_numeral r ip fp Hr), decimal_value_integer.
  reflexivity.
Qed.

Lemma handleAdd_builds_the_watched_entry_witness :
  (decimal_digits [1; 1; 7]%N /\ decimal_numeral "8.5" [8]%N [5]%N) /\
  handleAdd "tt1" alien_detail 9%float 1 empty_app
  = Some {| selectedId := None;
            watched := [{| imdbID := "tt1";
                           title := Some "Alien";
                           year := Some "1979";
                           poster := Some "p.jpg";
                           runtime := 117%float;
                           imdbRating := 8.5%float;
                           userRating := 9%float;
                           countRatingDecision := 1 |}] |}.
Proof.
  assert (H117 : decimal_digits [1; 1; 7]%N)
    by (split; [discriminate|repeat constructor]).
  assert (H85 : decimal_numeral "8.5" [8]%N [5]%N)
    by (apply (numeral_fraction [8]%N [5]%N);
        (split; [discriminate|repeat constructor])).
  split; [split; [exact H117|exact H85]|].
  rewrite (handleAdd_builds_the_watched_entry "tt1" alien_detail 9%float 1 empty_app
             [1; 1; 7]%N "8.5" [8]%N [5]%N H117 eq_refl H85 eq_refl).
  vm_compute. reflexivity.
Defined.

(** Before the detail has loaded, [movie] is [{}] and [handleAdd] throws:
    nothing is added. *)
Example handleAdd_before_load :
  handleAdd "tt1"
    {| Detail.Title := None; Detail.Year := None; Detail.Plot := None;
       Detail.Poster := None; Detail.Runtime := None; Detail.imdbRating := None;
       Detail.Released := None; Detail.Actors := None; Detail.Director := None;
       Detail.Genre := None |} 9%float 1 empty_app
  = None.
Proof. reflexivity. Qed.

(** A catalog entry without a runtime or a rating gives NaN for both. *)
Example handleAdd_not_available :
  JS.unary_plus (JS.at_ (JS.split " " "N/A") 0) = JS.NaN /\
  JS.unary_plus (Some "N/A") = JS.NaN.
Proof. vm_compute. split; reflexivity. Qed.

End DetailFacts.

(* ================================================================== *)
(** ** More on the search controller *)
(* ================================================================== *)

Module UseMoviesMore.

Import UseMovies HookProps Render UseMoviesFacts.

Lemma stage_keeps_url (id : nat) (st : stage) (l : list attempt) :
  map url (update id (set_stage st) l) = map url l.
Proof.
  revert id. induction l as [|a l IH]; intros [|id]; cbn; auto. now rewrite IH.
Qed.

Lemma stage_keeps_signal (id : nat) (st : stage) (l : list attempt) :
  map aborted (update id (set_stage st) l) = map aborted l.
Proof.
  revert id. induction l as [|a l IH]; intros [|id]; cbn; auto. now rewrite IH.
Qed.

Section Hook.

Context {X : Type}.
Variable callback : option (X -> X).

Local Abbreviation world := (@world X).
Local Abbreviation step := (step callback).
Local Abbreviation run := (run callback).
Local Abbreviation mount := (mount callback).

Ltac unfold_code :=
  unfold resume, fetchMovies_start, fetchMovies_after_fetch, fetchMovies_after_json,
    fetchMovies_catch, fetchMovies_finally, exec, bind, await, ret, throw, fetch,
    setMovies, setError, setIsLoading, console_error,
    with_attempts, with_cleanup, with_query, unmounted in *.

(** What the settling of a promise does in the mounted component: nothing
    to the cells and the console, or the end of the attempt with Loading
    cleared; a line is logged only together with the error it shows. The
    requests keep their URLs and their signals. *)
Lemma settle_cells (w : world) (id : nat) (ev : event) :
  settles id ev -> mounted w = true ->
  let w' := step w ev in
  map url (attempts w') = map url (attempts w) /\
  map aborted (attempts w') = map aborted (attempts w) /\
  ((isLoading w' = isLoading w /\ error w' = error w /\ movies w' = movies w /\
    console w' = console w)
   \/
   (isLoading w' = false /\
    (console w' = console w \/ console w' = console w ++ [error w']))).
Proof.
  intros Hev Hm.
  pose proof (fun st => stage_keeps_url id st) as Hurl.
  pose proof (fun st => stage_keeps_signal id st) as Hab.
  destruct ev as [q| |i r|i r]; cbn in Hev; try contradiction; subst i;
    cbn zeta; unfold UseMovies.step;
    destruct (nth_error (attempts w) id) as [a|] eqn:Ha; try (now auto 8);
    destruct (at_stage a) eqn:Hst; try (now auto 8);
    unfold delivered; destruct (aborted a) eqn:Hab';
    destruct w as [x m q mv ld er ats cl co]; cbn in Ha, Hm; subst m;
    cbn [UseMovies.attempts].
  - unfold_code; cbn. rewrite Hurl, Hab; auto 8.
  - destruct r as [[[|]]|e]; unfold_code; cbn.
    + rewrite Hurl, Hab; auto 8.
    + rewrite Hurl, Hab; auto 8.
    + destruct (negb (JS.name e =? "AbortError")%string);
        cbn; rewrite Hurl, Hab; auto 8.
  - unfold_code; cbn. rewrite Hurl, Hab; auto 8.
  - destruct r as [[data|]|e]; unfold_code; cbn.
    + destruct (Response_is_False data); cbn; rewrite Hurl, Hab; auto 8.
    + rewrite Hurl, Hab; auto 8.
    + destruct (negb (JS.name e =? "AbortError")%string);
        cbn; rewrite Hurl, Hab; auto 8.
Qed.

(** After the unmount the settling of a promise changes no cell. *)
Lemma settle_unmounted (w : world) (id : nat) (ev : event) :
  settles id ev -> mounted w = false ->
  let w' := step w ev in
  isLoading w' = isLoading w /\ error w' = error w /\ movies w' = movies w.
Proof.
  intros Hev Hm.
  destruct ev as [q| |i r|i r]; cbn in Hev; try contradiction; subst i;
    cbn zeta; unfold UseMovies.step;
    destruct (nth_error (attempts w) id) as [a|] eqn:Ha; try (now auto);
    destruct (at_stage a) eqn:Hst; try (now auto);
    unfold delivered; destruct (aborted a) eqn:Hab';
    destruct w as [x m q mv ld er ats cl co]; cbn in Ha, Hm; subst m.
  - unfold_code; cbn. auto.
  - destruct r as [[[|]]|e]; unfold_code; cbn; auto.
    destruct (negb (JS.name e =? "AbortError")%string); cbn; auto.
  - unfold_code; cbn. auto.
  - destruct r as [[data|]|e]; unfold_code; cbn; auto.
    + destruct (Response_is_False data); cbn; auto.
    + destruct (negb (JS.name e =? "AbortError")%string); cbn; auto.
Qed.

(** The settling of a promise of an aborted attempt logs nothing. *)
Lemma settle_aborted_silent (w : world) (id : nat) (a : attempt) (ev : event) :
  settles id ev -> nth_error (attempts w) id = Some a -> aborted a = true ->
  console (step w ev) = console w.
Proof.
  intros Hev Ha Hab.
  destruct ev as [q| |i r|i r]; cbn in Hev; try contradiction; subst i;
    unfold UseMovies.step; rewrite Ha;
    destruct (at_stage a) eqn:Hst; try reflexivity;
    unfold delivered; rewrite Hab;
    destruct w as [x m q mv ld er ats cl co];
    unfold_code; cbn; destruct m; reflexivity.
Qed.

Lemma effect_outside (w : world) :
  outside (effect callback w) = called callback (outside w) /\
  console (effect callback w) = console w.
Proof.
  destruct w as [x m q mv ld er ats cl co].
  unfold effect, call_callback, called; destruct callback; cbn;
    unfold_code; cbn; destruct m; cbn;
    destruct (String.length q <=? 2)%nat; cbn; now split.
Qed.

Lemma run_cleanup_frame (w : world) :
  outside (run_cleanup w) = outside w /\ console (run_cleanup w) = console w.
Proof.
  destruct w as [x m q mv ld er ats [c|] co]; cbn; now split.
Qed.

(** *** Loading and the error are never shown together *)

Lemma effect_unmounted (w : world) :
  mounted w = false ->
  isLoading (effect callback w) = isLoading w /\ error (effect callback w) = error w.
Proof.
  intros Hm. destruct w as [x m q mv ld er ats cl co]. cbn in Hm. subst m.
  unfold effect, call_callback; destruct callback; cbn;
    unfold_code; cbn; destruct (String.length q <=? 2)%nat; cbn; now split.
Qed.

Lemma loading_without_error_effect (w : world) :
  loading_without_error w -> loading_without_error (effect callback w).
Proof.
  intros Hinv Hl.
  destruct (mounted w) eqn:Hmw.
  - destruct (Nat.lt_ge_cases (String.length (query w)) 3) as [Hlen|Hlen].
    + destruct (effect_short callback w Hlen) as (_ & _ & _ & _ & _ & Hclear).
      now destruct (Hclear Hmw).
    + destruct (effect_long callback w Hlen) as (_ & _ & _ & _ & _ & Hstart).
      now destruct (Hstart Hmw).
  - destruct (effect_unmounted w Hmw) as (Hld & Her).
    rewrite Her. apply Hinv. now rewrite <- Hld.
Qed.

Lemma loading_without_error_step (w : world) (ev : event) :
  loading_without_error w -> loading_without_error (step w ev).
Proof.
  intros Hinv.
  destruct ev as [q| |i r|i r].
  - cbn. destruct (negb (mounted w) || (q =? query w)%string); [exact Hinv|].
    apply loading_without_error_effect. intros Hl. cbn in *.
    destruct (run_cleanup_shape w) as (_ & _ & _ & Hld & Her & _).
    rewrite Her. apply Hinv. now rewrite <- Hld.
  - cbn. destruct (mounted w); [|exact Hinv]. intros Hl. cbn in *.
    destruct (run_cleanup_shape w) as (_ & _ & _ & Hld & Her & _).
    rewrite Her. apply Hinv. now rewrite <- Hld.
  - destruct (mounted w) eqn:Hm.
    + destruct (settle_cells w i (FetchSettles i r) eq_refl Hm)
        as (_ & _ & [(Hld & Her & _) | (Hld & _)]); intros Hl.
      * rewrite Her. apply Hinv. now rewrite <- Hld.
      * rewrite Hld in Hl. discriminate.
    + destruct (settle_unmounted w i (FetchSettles i r) eq_refl Hm) as (Hld & Her & _).
      intros Hl. rewrite Her. apply Hinv. now rewrite <- Hld.
  - destruct (mounted w) eqn:Hm.
    + destruct (settle_cells w i (JsonSettles i r) eq_refl Hm)
        as (_ & _ & [(Hld & Her & _) | (Hld & _)]); intros Hl.
      * rewrite Her. apply Hinv. now rewrite <- Hld.
      * rewrite Hld in Hl. discriminate.
    + destruct (settle_unmounted w i (JsonSettles i r) eq_refl Hm) as (Hld & Her & _).
      intros Hl. rewrite Her. apply Hinv. now rewrite <- Hld.
Qed.

(** X1: in every world the mounted controller can reach with a movie list
    that is an array, [App] renders the length of the list as the number of
    results and, in the first box when it is open, exactly one child: the
    loader while Loading is set, else the error message if the error is not
    empty, else the movie list. The loader and the error message are never
    shown together. A closed box shows no child. *)
Theorem results_box_shows_one_view
    (x : X) (q : string) (evs : list event) (isOpen : bool) (items : list MovieSummary) :
  let w := run (mount x q) evs in
  mounted w = true ->
  movies w = Some items ->
  App_render isOpen w
  = Some {| found := List.length items;
            results_box :=
              Box isOpen [if isLoading w then Loader
                          else if truthy (error w) then ErrorMessage (error w)
                          else MovieList items] |}.
Proof.
  intros w Hm Hmv.
  assert (Hinv : loading_without_error w).
  { apply run_invariant; [exact loading_without_error_step|].
    apply loading_without_error_effect. intros Hl. discriminate Hl. }
  unfold App_render, results_children. rewrite Hm, Hmv. cbn [NumResults MovieList_items].
  do 3 f_equal. destruct (isLoading w) eqn:Hl.
  - rewrite (Hinv Hl). reflexivity.
  - cbn. now destruct (truthy (error w)).
Qed.

(** *** The attempt whose answer can be shown *)

Lemma current_is_query_effect (w : world) :
  cleanup w = None -> current_is_query (effect callback w).
Proof.
  intros Hc id a Hid Ha.
  destruct (Nat.lt_ge_cases (String.length (query w)) 3) as [Hlen|Hlen].
  - destruct (effect_short callback w Hlen) as (_ & _ & _ & Hc' & _). congruence.
  - destruct (effect_long callback w Hlen) as (_ & Hq & Hats & Hc' & _).
    rewrite Hc' in Hid. injection Hid as <-.
    rewrite Hats, nth_error_app2, Nat.sub_diag in Ha by reflexivity.
    injection Ha as <-. rewrite Hq. now split.
Qed.

Lemma current_is_query_step (w : world) (ev : event) :
  current_is_query w -> current_is_query (step w ev).
Proof.
  intros Hinv.
  destruct ev as [q| |i r|i r].
  - cbn. destruct (negb (mounted w) || (q =? query w)%string); [exact Hinv|].
    apply current_is_query_effect. cbn. apply (run_cleanup_shape w).
  - cbn. destruct (mounted w); [|exact Hinv]. intros id a Hid. cbn in Hid.
    destruct (run_cleanup_shape w) as (_ & _ & _ & _ & _ & Hc & _). congruence.
  - destruct (settle_shape callback w i (FetchSettles i r) eq_refl)
      as (_ & _ & Hq & Hc & [-> | (b & Hb & _ & [(Hats & _) | (Hats & _)])]);
      [exact Hinv | |];
      intros id a Hid Ha; rewrite Hq; rewrite Hc in Hid;
      rewrite Hats, nth_error_update in Ha;
      (destruct (Nat.eqb i id);
       [destruct (nth_error (attempts w) id) as [a0|] eqn:Ha0; [|discriminate];
        injection Ha as <-; exact (Hinv id a0 Hid Ha0)
       |exact (Hinv id a Hid Ha)]).
  - destruct (settle_shape callback w i (JsonSettles i r) eq_refl)
      as (_ & _ & Hq & Hc & [-> | (b & Hb & _ & [(Hats & _) | (Hats & _)])]);
      [exact Hinv | |];
      intros id a Hid Ha; rewrite Hq; rewrite Hc in Hid;
      rewrite Hats, nth_error_update in Ha;
      (destruct (Nat.eqb i id);
       [destruct (nth_error (attempts w) id) as [a0|] eqn:Ha0; [|discriminate];
        injection Ha as <-; exact (Hinv id a0 Hid Ha0)
       |exact (Hinv id a Hid Ha)]).
Qed.

(** X2: in every world the controller can reach, an attempt in flight
    whose signal is not aborted is the attempt of the current effect, its
    request is the search for the current query, and that query has three
    characters or more. So there is at most one such attempt, and an answer
    that reaches the cells is an answer for the query on screen. *)
Theorem live_attempt_is_for_current_query
    (x : X) (q : string) (evs : list event) (id : nat) (a : attempt) :
  let w := run (mount x q) evs in
  nth_error (attempts w) id = Some a ->
  at_stage a <> Settled ->
  aborted a = false ->
  cleanup w = Some id /\
  url a = search_url (query w) /\
  3 <= String.length (query w).
Proof.
  intros w Ha Hst Hab.
  assert (Hc : cleanup w = Some id).
  { destruct (cleanup w) as [c|] eqn:Hc.
    - destruct (Nat.eq_dec c id) as [->|Hne]; [reflexivity|].
      assert (Hcl : cleanup w <> Some id) by (rewrite Hc; congruence).
      pose proof (stale_aborted_reachable callback x q evs id a Ha Hst Hcl).
      congruence.
    - assert (Hcl : cleanup w <> Some id) by (rewrite Hc; discriminate).
      pose proof (stale_aborted_reachable callback x q evs id a Ha Hst Hcl).
      congruence. }
  split; [exact Hc|].
  assert (Hinv : current_is_query w).
  { apply run_invariant; [exact current_is_query_step|].
    apply current_is_query_effect. reflexivity. }
  exact (Hinv id a Hc Ha).
Qed.

(** *** The requests that leave *)

Lemma searches_long_query_urls (l l' : list attempt) :
  map url l' = map url l ->
  Forall searches_long_query l -> Forall searches_long_query l'.
Proof.
  revert l'. induction l as [|a l IH]; intros [|a' l'] Hmap Hall;
    try discriminate; [constructor|].
  cbn in Hmap. injection Hmap as Hu Hmap.
  apply Forall_cons_iff in Hall as [(q0 & Hq0 & Hlen) Hall].
  constructor; [|now apply IH].
  exists q0. split; [congruence|exact Hlen].
Qed.

Lemma map_url_set_aborted (id : nat) (l : list attempt) :
  map url (update id set_aborted l) = map url l.
Proof.
  revert id. induction l as [|a l IH]; intros [|id]; cbn; auto. now rewrite IH.
Qed.

Lemma requests_after_cleanup (w : world) :
  map url (attempts (run_cleanup w)) = map url (attempts w).
Proof.
  destruct (run_cleanup_shape w) as (_ & _ & _ & _ & _ & _ & ->).
  destruct (cleanup w); [apply map_url_set_aborted|reflexivity].
Qed.

Lemma requests_after_effect (w : world) :
  map url (attempts (effect callback w))
  = map url (attempts w)
    ++ (if (String.length (query w) <? 3)%nat then [] else [search_url (query w)]).
Proof.
  destruct (Nat.lt_ge_cases (String.length (query w)) 3) as [Hlen|Hlen].
  - destruct (effect_short callback w Hlen) as (_ & _ & -> & _).
    apply Nat.ltb_lt in Hlen. rewrite Hlen. now rewrite app_nil_r.
  - destruct (effect_long callback w Hlen) as (_ & _ & -> & _).
    apply Nat.ltb_ge in Hlen. rewrite Hlen. now rewrite map_app.
Qed.

Lemma requests_after_settle (w : world) (i : nat) (ev : event) :
  settles i ev -> map url (attempts (step w ev)) = map url (attempts w).
Proof.
  intros Hev.
  destruct (settle_shape callback w i ev Hev)
    as (_ & _ & _ & _ & [-> | (b & _ & _ & [(-> & _) | (-> & _)])]);
    [reflexivity | apply stage_keeps_url | apply stage_keeps_url].
Qed.

Lemma long_queries_effect (w : world) :
  Forall searches_long_query (attempts w) ->
  Forall searches_long_query (attempts (effect callback w)).
Proof.
  intros Hall.
  destruct (Nat.lt_ge_cases (String.length (query w)) 3) as [Hlen|Hlen].
  - destruct (effect_short callback w Hlen) as (_ & _ & -> & _). exact Hall.
  - destruct (effect_long callback w Hlen) as (_ & _ & -> & _).
    apply Forall_app. split; [exact Hall|].
    constructor; [|constructor]. exists (query w). now split.
Qed.

Lemma long_queries_step (w : world) (ev : event) :
  Forall searches_long_query (attempts w) ->
  Forall searches_long_query (attempts (step w ev)).
Proof.
  intros Hall.
  destruct ev as [q| |i r|i r].
  - cbn. destruct (negb (mounted w) || (q =? query w)%string); [exact Hall|].
    apply long_queries_effect. cbn.
    apply (searches_long_query_urls (attempts w)); [apply requests_after_cleanup|exact Hall].
  - cbn. destruct (mounted w); [|exact Hall]. cbn.
    apply (searches_long_query_urls (attempts w)); [apply requests_after_cleanup|exact Hall].
  - apply (searches_long_query_urls (attempts w)); [|exact Hall].
    apply (requests_after_settle w i). reflexivity.
  - apply (searches_long_query_urls (attempts w)); [|exact Hall].
    apply (requests_after_settle w i). reflexivity.
Qed.

(** X3: every request the controller has sent, in any world it can
    reach, is a search for a query of three characters or more: a query of
    zero, one or two characters never reaches the network, whatever the
    order of query changes and answers. *)
Theorem requests_are_for_long_queries (x : X) (q : string) (evs : list event) :
  Forall searches_long_query (attempts (run (mount x q) evs)).
Proof.
  apply (run_invariant callback (fun w => Forall searches_long_query (attempts w)));
    [exact long_queries_step|].
  apply long_queries_effect. constructor.
Qed.

(** *** What a query change does *)

(** X4: a change of the query in the mounted controller, to a query of any
    length, calls the callback once, empties the error, aborts the signal of
    the attempt of the last effect and logs nothing; it sends one request,
    the search for the new query, if the query has three characters or more,
    and none otherwise. Nothing else calls the callback: the unmount, the
    settling of a promise and a render with the same query leave the
    caller's state alone. *)
Theorem query_change_resets (w : world) (q : string) :
  mounted w = true -> q <> query w ->
  (let w' := step w (QueryChange q) in
   outside w' = called callback (outside w) /\
   query w' = q /\ error w' = "" /\ console w' = console w /\
   map url (attempts w')
   = map url (attempts w)
     ++ (if (String.length q <? 3)%nat then [] else [search_url q]) /\
   (forall id a,
       cleanup w = Some id -> nth_error (attempts w) id = Some a ->
       exists a', nth_error (attempts w') id = Some a' /\ aborted a' = true))
  /\
  (forall ev,
      ev = Unmount \/ ev = QueryChange (query w) \/ (exists i, settles i ev) ->
      outside (step w ev) = outside w).
Proof.
  intros Hm Hq. split.
  - cbn zeta. cbn [UseMovies.step]. rewrite Hm. cbn [negb orb].
    apply String.eqb_neq in Hq. rewrite Hq.
    set (w0 := with_query q (run_cleanup w)).
    assert (Hm0 : mounted w0 = true).
    { subst w0. cbn. destruct (run_cleanup_shape w) as (-> & _). exact Hm. }
    destruct (effect_outside w0) as (Hout & Hco).
    destruct (run_cleanup_frame w) as (Hout0 & Hco0).
    split; [rewrite Hout; subst w0; cbn; now rewrite Hout0|].
    split.
    { destruct (Nat.lt_ge_cases (String.length (query w0)) 3) as [Hlen|Hlen].
      - now destruct (effect_short callback w0 Hlen) as (_ & -> & _).
      - now destruct (effect_long callback w0 Hlen) as (_ & -> & _). }
    split.
    { destruct (Nat.lt_ge_cases (String.length (query w0)) 3) as [Hlen|Hlen].
      - destruct (effect_short callback w0 Hlen) as (_ & _ & _ & _ & _ & Hclear).
        now destruct (Hclear Hm0).
      - destruct (effect_long callback w0 Hlen) as (_ & _ & _ & _ & _ & Hstart).
        now destruct (Hstart Hm0). }
    split; [rewrite Hco; subst w0; cbn; exact Hco0|].
    split.
    { rewrite (requests_after_effect w0). subst w0. cbn.
      now rewrite requests_after_cleanup. }
    intros id a Hid Ha.
    assert (H0 : nth_error (attempts w0) id = Some (set_aborted a)).
    { subst w0. cbn.
      destruct (run_cleanup_shape w) as (_ & _ & _ & _ & _ & _ & ->).
      rewrite Hid, nth_error_update, Nat.eqb_refl, Ha. reflexivity. }
    exists (set_aborted a). split; [|reflexivity].
    destruct (Nat.lt_ge_cases (String.length (query w0)) 3) as [Hlen|Hlen].
    + now destruct (effect_short callback w0 Hlen) as (_ & _ & -> & _).
    + destruct (effect_long callback w0 Hlen) as (_ & _ & -> & _).
      rewrite nth_error_app1; [exact H0|].
      apply nth_error_Some. congruence.
  - intros ev [-> | [-> | (i & Hev)]].
    + cbn. rewrite Hm. cbn. apply run_cleanup_frame.
    + cbn. now rewrite String.eqb_refl, orb_true_r.
    + now destruct (settle_shape callback w i ev Hev) as (Hout & _).
Qed.

(** *** What is logged *)

(** X5: in every world the mounted controller can reach, the settling of
    a promise logs nothing or logs one line, the error it then shows; a
    cancellation (the settling of a promise of a superseded attempt) logs
    nothing. *)
Theorem errors_are_logged_as_shown
    (x : X) (q : string) (evs : list event) (id : nat) (ev : event) :
  let w := run (mount x q) evs in
  mounted w = true -> settles id ev ->
  (console (step w ev) = console w \/
   console (step w ev) = console w ++ [error (step w ev)]) /\
  (superseded w id -> console (step w ev) = console w).
Proof.
  intros w Hm Hev. split.
  - destruct (settle_cells w id ev Hev Hm) as (_ & _ & [(_ & _ & _ & Hco) | (_ & Hco)]).
    + now left.
    + exact Hco.
  - intros [(a & Ha & Hst) Hcl].
    pose proof (stale_aborted_reachable callback x q evs id a Ha Hst Hcl) as Hab.
    exact (settle_aborted_silent w id a ev Hev Ha Hab).
Qed.

(** *** The movie list and the result count *)

Lemma settle_movies (w : world) (id : nat) (ev : event) :
  settles id ev ->
  movies (step w ev) = movies w \/
  exists data, ev = JsonSettles id (JS.Fulfilled (Some data)) /\
               movies (step w ev) = Search data.
Proof.
  intros Hev.
  destruct ev as [q| |i r|i r]; cbn in Hev; try contradiction; subst i;
    unfold UseMovies.step;
    destruct (nth_error (attempts w) id) as [a|] eqn:Ha; try (now left);
    destruct (at_stage a) eqn:Hst; try (now left);
    unfold delivered; destruct (aborted a) eqn:Hab';
    destruct w as [x m q mv ld er ats cl co].
  - unfold_code; cbn. destruct m; now left.
  - destruct r as [[[|]]|e]; unfold_code; cbn.
    + now left.
    + destruct m; now left.
    + destruct (negb (JS.name e =? "AbortError")%string); destruct m; now left.
  - unfold_code; cbn. destruct m; now left.
  - destruct r as [[data|]|e]; unfold_code; cbn.
    + destruct (Response_is_False data); destruct m; cbn;
        try (now left). right. now exists data.
    + destruct m; now left.
    + destruct (negb (JS.name e =? "AbortError")%string); destruct m; now left.
Qed.

Lemma movies_defined_effect (w : world) :
  mounted w = true -> movies w <> None -> movies (effect callback w) <> None.
Proof.
  intros Hm Hmv.
  destruct (Nat.lt_ge_cases (String.length (query w)) 3) as [Hlen|Hlen].
  - destruct (effect_short callback w Hlen) as (_ & _ & _ & _ & _ & Hclear).
    destruct (Hclear Hm) as (-> & _). discriminate.
  - destruct (effect_long callback w Hlen) as (_ & _ & _ & _ & -> & _). exact Hmv.
Qed.

Lemma movies_defined_step (w : world) (ev : event) :
  carries_Search ev -> movies w <> None -> movies (step w ev) <> None.
Proof.
  intros Hev Hmv.
  destruct ev as [q| |i r|i r].
  - cbn. destruct (mounted w) eqn:Hm; cbn; [|exact Hmv].
    destruct (q =? query w)%string; [exact Hmv|].
    apply movies_defined_effect; cbn.
    + destruct (run_cleanup_shape w) as (-> & _). exact Hm.
    + destruct (run_cleanup_shape w) as (_ & _ & -> & _). exact Hmv.
  - cbn. destruct (mounted w); [|exact Hmv]. cbn.
    destruct (run_cleanup_shape w) as (_ & _ & -> & _). exact Hmv.
  - destruct (settle_movies w i (FetchSettles i r) eq_refl)
      as [-> | (data & Heq & _)]; [exact Hmv|discriminate Heq].
  - destruct (settle_movies w i (JsonSettles i r) eq_refl)
      as [-> | (data & Heq & ->)]; [exact Hmv|].
    injection Heq as ->. exact Hev.
Qed.

(** X6: as long as every payload that is read carries a [Search] array,
    no render of the mounted [App] throws: in every world the controller
    reaches the movie list is an array, [NumResults] shows its length, and
    whenever the first box shows the movie list (no Loading, no error) the
    number shown is the number of items of that list. *)
Theorem result_count_is_defined
    (x : X) (q : string) (evs : list event) (isOpen : bool) :
  Forall carries_Search evs ->
  let w := run (mount x q) evs in
  mounted w = true ->
  exists items scr,
    movies w = Some items /\
    App_render isOpen w = Some scr /\
    found scr = List.length items /\
    (isLoading w = false -> error w = "" ->
     results_box scr = Box isOpen [MovieList items]).
Proof.
  intros Hevs w Hm.
  assert (Hmv : movies w <> None).
  { subst w. clear Hm. revert Hevs.
    assert (H0 : movies (mount x q) <> None)
      by (apply movies_defined_effect; [reflexivity|discriminate]).
    generalize dependent (mount x q).
    induction evs as [|ev evs IH]; intros w0 H0 Hevs; [exact H0|].
    apply Forall_cons_iff in Hevs as [Hev Hevs].
    exact (IH (step w0 ev) (movies_defined_step w0 ev Hev H0) Hevs). }
  destruct (movies w) as [items|] eqn:Hitems; [|contradiction].
  exists items. eexists. split; [reflexivity|].
  unfold App_render. rewrite Hm, Hitems. cbn [NumResults].
  split; [reflexivity|]. split; [reflexivity|].
  intros Hl Her. cbn [results_box]. unfold results_children.
  now rewrite Hl, Her, Hitems.
Qed.

(** X7: an answer that is OK, whose payload is not a "no match" and has
    no [Search] array, makes the movie list [undefined] with no error and
    Loading off. [MovieList] is guarded by [movies?.map], but [NumResults]
    throws on [movies.length], so the render of [App] has no result and
    nothing of [App] stays on screen, whether the box is open or not. *)
Theorem payload_without_Search_breaks_the_count
    (w : world) (id : nat) (a : attempt) (data : Payload) :
  mounted w = true ->
  nth_error (attempts w) id = Some a ->
  at_stage a = AwaitingJson ->
  aborted a = false ->
  Response_is_False data = false ->
  Search data = None ->
  let w' := step w (JsonSettles id (JS.Fulfilled (Some data))) in
  movies w' = None /\ error w' = "" /\ isLoading w' = false /\
  MovieList_items (movies w') = [] /\
  NumResults (movies w') = None /\
  (forall isOpen, App_render isOpen w' = None).
Proof.
  intros Hm Ha Hst Hab HF HS w'.
  destruct (step_json_data callback w id a data Hm Ha Hst Hab) as (_ & Hld & Hcells).
  fold w' in Hld, Hcells. rewrite HF in Hcells. destruct Hcells as (Her & Hmv).
  rewrite HS in Hmv.
  unfold App_render. rewrite Hld, Her, Hmv. cbn [MovieList_items NumResults].
  repeat split. intros _. now destruct (mounted w').
Qed.

(** *** A short query keeps the list empty *)

Lemma short_is_cleared_step (w : world) (ev : event) :
  stale_aborted w /\ short_is_cleared w ->
  stale_aborted (step w ev) /\ short_is_cleared (step w ev).
Proof.
  intros [Hstale Hinv]. split; [now apply stale_aborted_step|].
  destruct ev as [q| |i r|i r].
  - cbn. destruct (negb (mounted w) || (q =? query w)%string); [exact Hinv|].
    intros Hm Hlen.
    set (w0 := with_query q (run_cleanup w)) in *.
    destruct (Nat.lt_ge_cases (String.length (query w0)) 3) as [Hshort|Hlong].
    + destruct (effect_short callback w0 Hshort) as (Hm0 & _ & _ & Hc & _ & Hclear).
      rewrite Hm0 in Hm. destruct (Hclear Hm) as (Hmv & Her). now repeat split.
    + destruct (effect_long callback w0 Hlong) as (_ & Hq & _). rewrite Hq in Hlen. lia.
  - cbn. destruct (mounted w) eqn:Hmw; [|exact Hinv]. intros Hm. discriminate Hm.
  - intros Hm Hlen.
    destruct (settle_shape callback w i (FetchSettles i r) eq_refl)
      as (_ & Hm' & Hq & Hc & Hcases).
    rewrite Hm' in Hm. rewrite Hq in Hlen. destruct (Hinv Hm Hlen) as (Hmv & Her & Hcl).
    rewrite Hc.
    destruct Hcases as [-> | (a & Ha & Hst & [(_ & _ & -> & ->) | (_ & _ & _ & Hkeep)])];
      [now repeat split | now repeat split |].
    destruct Hkeep as (-> & ->); [|now repeat split].
    apply (Hstale i a Ha Hst). rewrite Hcl. discriminate.
  - intros Hm Hlen.
    destruct (settle_shape callback w i (JsonSettles i r) eq_refl)
      as (_ & Hm' & Hq & Hc & Hcases).
    rewrite Hm' in Hm. rewrite Hq in Hlen. destruct (Hinv Hm Hlen) as (Hmv & Her & Hcl).
    rewrite Hc.
    destruct Hcases as [-> | (a & Ha & Hst & [(_ & _ & -> & ->) | (_ & _ & _ & Hkeep)])];
      [now repeat split | now repeat split |].
    destruct Hkeep as (-> & ->); [|now repeat split].
    apply (Hstale i a Ha Hst). rewrite Hcl. discriminate.
Qed.

Lemma short_is_cleared_reachable (x : X) (q : string) (evs : list event) :
  short_is_cleared (run (mount x q) evs).
Proof.
  apply (run_invariant callback (fun w => stale_aborted w /\ short_is_cleared w));
    [exact short_is_cleared_step|].
  split; [apply stale_aborted_mount|].
  intros Hm Hlen. unfold mount, UseMovies.mount in *.
  match goal with
  | |- context [effect callback ?w0] =>
      destruct (Nat.lt_ge_cases (String.length (query w0)) 3) as [Hshort|Hlong];
      [destruct (effect_short callback w0 Hshort) as (_ & _ & _ & Hc & _ & Hclear);
       destruct (Hclear eq_refl) as (Hmv & Her); now repeat split
      |destruct (effect_long callback w0 Hlong) as (_ & Hq & _); rewrite Hq in Hlen; lia]
  end.
Qed.

(** X13: while the query of the mounted controller has fewer than three
    characters, the movie list is empty and there is no error, whatever was
    asked before and whichever answers arrive: no attempt is current, the
    settling of any promise leaves the list empty and the error empty, and
    [App] shows 0 results and, in the first box when it is open, the loader
    or an empty list. *)
Theorem short_query_keeps_the_list_empty (x : X) (q : string) (evs : list event) :
  let w := run (mount x q) evs in
  mounted w = true -> String.length (query w) < 3 ->
  movies w = Some [] /\ error w = "" /\ cleanup w = None /\
  (forall id ev, settles id ev ->
                 movies (step w ev) = Some [] /\ error (step w ev) = "") /\
  (forall isOpen,
      App_render isOpen w
      = Some {| found := 0;
                results_box := Box isOpen [if isLoading w then Loader
                                           else MovieList []] |}).
Proof.
  intros w Hm Hlen.
  destruct (short_is_cleared_reachable x q evs Hm Hlen) as (Hmv & Her & Hcl).
  fold w in Hmv, Her, Hcl. repeat split; try assumption.
  - pose proof (short_is_cleared_reachable x q (evs ++ [ev])) as Hnext.
    unfold run, UseMovies.run in Hnext. rewrite fold_left_app in Hnext.
    change (short_is_cleared (step w ev)) in Hnext.
    destruct (settle_shape callback w id ev H) as (_ & Hm' & Hq & _).
    apply Hnext; [now rewrite Hm'|now rewrite Hq].
  - pose proof (short_is_cleared_reachable x q (evs ++ [ev])) as Hnext.
    unfold run, UseMovies.run in Hnext. rewrite fold_left_app in Hnext.
    change (short_is_cleared (step w ev)) in Hnext.
    destruct (settle_shape callback w id ev H) as (_ & Hm' & Hq & _).
    apply Hnext; [now rewrite Hm'|now rewrite Hq].
  - intros isOpen. unfold App_render, results_children. rewrite Hm, Hmv, Her.
    destruct (isLoading w); reflexivity.
Qed.

End Hook.

(** *** The controller of [App] on concrete runs *)

Lemma short_query_keeps_the_list_empty_witness :
  let evs := [QueryChange "ali"; QueryChange "al";
              FetchSettles 0 (JS.Fulfilled {| ok := true |});
              JsonSettles 0 (JS.Fulfilled (Some found_alien))] in
  let w := UseMovies.run app_callback app_mount evs in
  (mounted w = true /\ String.length (query w) < 3) /\
  movies w = Some [] /\ error w = "".
Proof.
  intros evs w.
  assert (Hm : mounted w = true) by (vm_compute; reflexivity).
  assert (Hlen : String.length (query w) < 3) by (vm_compute; lia).
  split; [now split|].
  destruct (short_query_keeps_the_list_empty app_callback
              {| App.selectedId := None; App.watched := [] |} "" evs Hm Hlen)
    as (Hmv & Her & _).
  now split.
Defined.

Lemma live_attempt_is_for_current_query_witness :
  let w := UseMovies.run app_callback app_mount [QueryChange "ali"; QueryChange "alien"] in
  let a := {| url := search_url "alien"; aborted := false; at_stage := AwaitingFetch |} in
  (nth_error (attempts w) 1 = Some a /\ at_stage a <> Settled /\ aborted a = false) /\
  cleanup w = Some 1 /\ url a = search_url (query w).
Proof.
  intros w a.
  assert (Ha : nth_error (attempts w) 1 = Some a) by (vm_compute; reflexivity).
  assert (Hst : at_stage a <> Settled) by discriminate.
  split; [now repeat split|].
  destruct (live_attempt_is_for_current_query app_callback
              {| App.selectedId := None; App.watched := [] |} ""
              [QueryChange "ali"; QueryChange "alien"] 1 a Ha Hst eq_refl)
    as (Hc & Hu & _).
  split; [exact Hc | exact Hu].
Defined.

Lemma query_change_resets_witness :
  let w := UseMovies.step app_callback
             (UseMovies.mount app_callback
                {| App.selectedId := Some "tt1"; App.watched := [] |} "alien")
             (FetchSettles 0 (JS.Fulfilled {| ok := false |})) in
  let w' := UseMovies.step app_callback w (QueryChange "al") in
  (mounted w = true /\ "al" <> query w /\ error w = transport_failure_message) /\
  App.selectedId (outside w') = None /\ error w' = "" /\
  map url (attempts w') = [search_url "alien"].
Proof.
  intros w w'.
  assert (Hm : mounted w = true) by (vm_compute; reflexivity).
  assert (Hq : "al" <> query w) by (vm_compute; discriminate).
  split; [split; [exact Hm|split; [exact Hq|vm_compute; reflexivity]]|].
  destruct (query_change_resets app_callback w "al" Hm Hq) as (Hreset & _).
  destruct Hreset as (Hout & _ & Her & _ & Hreq & _).
  split; [fold w' in Hout; rewrite Hout; reflexivity|].
  split; [exact Her|].
  fold w' in Hreq. rewrite Hreq. vm_compute. reflexivity.
Defined.

Lemma errors_are_logged_as_shown_witness :
  let w := UseMovies.run app_callback app_mount [QueryChange "ali"] in
  let ev := FetchSettles 0 (JS.Fulfilled {| ok := false |}) in
  (mounted w = true /\ settles 0 ev) /\
  (console (UseMovies.step app_callback w ev) = console w \/
   console (UseMovies.step app_callback w ev)
   = console w ++ [error (UseMovies.step app_callback w ev)]).
Proof.
  intros w ev.
  assert (Hm : mounted w = true) by (vm_compute; reflexivity).
  split; [split; [exact Hm|reflexivity]|].
  exact (proj1 (errors_are_logged_as_shown app_callback
                  {| App.selectedId := None; App.watched := [] |} ""
                  [QueryChange "ali"] 0 ev Hm eq_refl)).
Defined.

Lemma results_box_shows_one_view_witness :
  let evs := [QueryChange "ali"; FetchSettles 0 (JS.Fulfilled {| ok := true |});
              JsonSettles 0 (JS.Fulfilled (Some found_alien));
              QueryChange "alix"; FetchSettles 1 (JS.Fulfilled {| ok := true |});
              JsonSettles 1 (JS.Fulfilled (Some no_match))] in
  let w := UseMovies.run app_callback app_mount evs in
  (mounted w = true /\ movies w = Some [alien_summary]) /\
  App_render true w
  = Some {| found := 1; results_box := [ErrorMessage not_found_message] |}.
Proof.
  intros evs w.
  assert (Hm : mounted w = true) by (vm_compute; reflexivity).
  assert (Hmv : movies w = Some [alien_summary]) by (vm_compute; reflexivity).
  split; [now split|].
  etransitivity;
    [exact (results_box_shows_one_view app_callback
              {| App.selectedId := None; App.watched := [] |} "" evs true
              [alien_summary] Hm Hmv)
    |vm_compute; reflexivity].
Defined.

Lemma result_count_is_defined_witness :
  let evs := [QueryChange "ali"; FetchSettles 0 (JS.Fulfilled {| ok := true |});
              JsonSettles 0 (JS.Fulfilled (Some found_alien))] in
  let w := UseMovies.run app_callback app_mount evs in
  (Forall carries_Search evs /\ mounted w = true) /\
  exists scr, App_render true w = Some scr /\ found scr = 1.
Proof.
  intros evs w.
  assert (Hevs : Forall carries_Search evs)
    by (repeat constructor; discriminate).
  assert (Hm : mounted w = true) by (vm_compute; reflexivity).
  split; [now split|].
  destruct (result_count_is_defined app_callback
              {| App.selectedId := None; App.watched := [] |} "" evs true Hevs Hm)
    as (items & scr & Hitems & Hscr & Hfound & _).
  exists scr. split; [exact Hscr|]. rewrite Hfound.
  assert (Hmv : movies w = Some [alien_summary]) by (vm_compute; reflexivity).
  pose proof (eq_trans (eq_sym Hitems) Hmv) as Heq. now injection Heq as ->.
Defined.

Lemma payload_without_Search_breaks_the_count_witness :
  let w := UseMovies.run app_callback app_mount
             [QueryChange "ali"; FetchSettles 0 (JS.Fulfilled {| ok := true |})] in
  let a := {| url := search_url "ali"; aborted := false; at_stage := AwaitingJson |} in
  let data := {| Response := Some "True"; Search := None |} in
  let w' := UseMovies.step app_callback w (JsonSettles 0 (JS.Fulfilled (Some data))) in
  (mounted w = true /\ nth_error (attempts w) 0 = Some a) /\
  NumResults (movies w') = None /\ App_render true w' = None.
Proof.
  intros w a data w'.
  assert (Hm : mounted w = true) by (vm_compute; reflexivity).
  assert (Ha : nth_error (attempts w) 0 = Some a) by (vm_compute; reflexivity).
  split; [split; [exact Hm|exact Ha]|].
  destruct (payload_without_Search_breaks_the_count app_callback w 0 a data
              Hm Ha eq_refl eq_refl eq_refl eq_refl) as (_ & _ & _ & _ & Hcount & Hscreen).
  split; [exact Hcount|exact (Hscreen true)].
Defined.

End UseMoviesMore.

(* ================================================================== *)
(** ** The detail view: ratings and clicks *)
(* ================================================================== *)

Module RatingFacts.

Import App Props MovieDetails.

Lemma watchedUserRating_fold (id : string) (w : list WatchedMovie) :
  watchedUserRating id w = fold_left (pick id) w zero.
Proof.
  unfold watchedUserRating, JS.reduce.
  apply (SummaryFacts.reduce_from_ignores_index
           (fun acc movie (_ : list WatchedMovie) => pick id acc movie)).
Qed.

Lemma pick_absent (id : string) (w : list WatchedMovie) :
  ~ In id (map imdbID w) -> forall acc, fold_left (pick id) w acc = acc.
Proof.
  induction w as [|e w IH]; intros Hnot acc; [reflexivity|].
  cbn [fold_left]. cbn [map In] in Hnot.
  rewrite IH by tauto. unfold pick.
  destruct (String.eqb_spec (imdbID e) id); [|reflexivity].
  exfalso. apply Hnot. now left.
Qed.

Lemma pick_after_delete (id id' : string) (w : list WatchedMovie) :
  id' <> id ->
  forall acc,
    fold_left (pick id') (filter (fun movie => negb (String.eqb (imdbID movie) id)) w) acc
    = fold_left (pick id') w acc.
Proof.
  intros Hne. induction w as [|e w IH]; intros acc; [reflexivity|].
  cbn [filter fold_left].
  destruct (String.eqb_spec (imdbID e) id) as [Heq|Hother]; cbn [negb fold_left].
  - rewrite IH. f_equal. unfold pick.
    destruct (String.eqb_spec (imdbID e) id'); [congruence|reflexivity].
  - apply IH.
Qed.

Lemma pick_rated (id : string) (w : list WatchedMovie) :
  Forall (fun movie => (0 <? userRating movie)%float = true) w ->
  forall acc,
    (0 <? acc)%float = true \/ In id (map imdbID w) ->
    (0 <? fold_left (pick id) w acc)%float = true.
Proof.
  induction 1 as [|e w He Hw IH]; intros acc Hacc; cbn [fold_left].
  - destruct Hacc as [H|[]]. exact H.
  - apply IH. unfold pick.
    destruct (String.eqb_spec (imdbID e) id) as [Heq|Hne]; [now left|].
    destruct Hacc as [H|[H|H]]; [now left|contradiction|now right].
Qed.

Lemma NoDup_ids_filter (p : WatchedMovie -> bool) (w : list WatchedMovie) :
  NoDup (map imdbID w) -> NoDup (map imdbID (filter p w)).
Proof.
  induction w as [|e w IH]; intros Hnd; [exact Hnd|].
  cbn [map] in Hnd. apply NoDup_cons_iff in Hnd as [Hfresh Hnd].
  cbn [filter]. destruct (p e); [|now apply IH].
  cbn [map]. constructor; [|now apply IH].
  intros Hin. apply Hfresh. apply in_map_iff in Hin as (m & Hm & Hin).
  apply filter_In in Hin as [Hin _]. rewrite <- Hm. now apply in_map.
Qed.

(** X8: the rating the detail view looks up in the watched list is 0 for
    an identifier the list does not hold; after an entry is added it is that
    entry's rating for the entry's identifier and what it was for every
    other; after an identifier is deleted it is 0 for that identifier and
    what it was for every other. *)
Theorem watched_rating_lookup (s : state) :
  (forall id, ~ In id (map imdbID (watched s)) ->
              watchedUserRating id (watched s) = zero) /\
  (forall movie id,
      watchedUserRating id (watched (handleAddWatched movie s))
      = if String.eqb (imdbID movie) id then userRating movie
        else watchedUserRating id (watched s)) /\
  (forall id, watchedUserRating id (watched (handleDeleteWatched id s)) = zero) /\
  (forall id id', id' <> id ->
                  watchedUserRating id' (watched (handleDeleteWatched id s))
                  = watchedUserRating id' (watched s)).
Proof.
  split; [|split; [|split]].
  - intros id Hnot. rewrite watchedUserRating_fold. now apply pick_absent.
  - intros movie id. rewrite !watchedUserRating_fold.
    cbn [handleAddWatched setWatched watched]. now rewrite fold_left_app.
  - intros id. rewrite watchedUserRating_fold.
    cbn [handleDeleteWatched setWatched watched]. apply pick_absent.
    intros Hin. apply in_map_iff in Hin as (m & Hm & Hin).
    pose proof (AppFacts.filter_other_ids_forall id (watched s)) as Hall.
    rewrite Forall_forall in Hall. now apply (Hall m Hin).
  - intros id id' Hne. rewrite !watchedUserRating_fold.
    cbn [handleDeleteWatched setWatched watched]. now apply pick_after_delete.
Qed.

(** *** The invariant of the clicks *)

Lemma rated_shows_rating (id : string) (w : list WatchedMovie) (rating : JS.Number)
    (isLoading : bool) (error : string) :
  rated_once w -> In id (map imdbID w) ->
  add_button_shown isLoading error id w rating = false.
Proof.
  intros [_ Hrated] Hin. unfold add_button_shown, rating_section.
  rewrite watchedUserRating_fold, (pick_rated id w Hrated zero) by now right.
  apply andb_false_r.
Qed.

Lemma add_keeps_rated_once (id : string) (movie : Detail.t) (isLoading : bool)
    (error : string) (rating : JS.Number) (count : nat) (s s' : state) :
  rated_once (watched s) ->
  add_button_shown isLoading error id (watched s) rating = true ->
  handleAdd id movie rating count s = Some s' ->
  rated_once (watched s').
Proof.
  intros Hinv Hshown Hadd.
  assert (Hfresh : ~ In id (map imdbID (watched s))).
  { intros Hin. rewrite (rated_shows_rating id _ rating isLoading error Hinv Hin) in Hshown.
    discriminate. }
  assert (Hpos : (0 <? rating)%float = true).
  { unfold add_button_shown, rating_section in Hshown.
    apply andb_prop in Hshown as [_ Hshown].
    destruct (0 <? watchedUserRating id (watched s))%float; [discriminate|exact Hshown]. }
  unfold handleAdd in Hadd. destruct (Detail.Runtime movie); [|discriminate].
  injection Hadd as <-. cbn [handleCloseMovie setSelectedId handleAddWatched setWatched watched].
  destruct Hinv as [Hnd Hrated]. split.
  - rewrite map_app. cbn [map imdbID].
    apply NoDup_app; [exact Hnd|repeat constructor; intros []|].
    intros x Hx [<-|[]]. contradiction.
  - apply Forall_app. split; [exact Hrated|]. now repeat constructor.
Qed.

Lemma click_keeps_rated_once (s : state) (c : click) :
  rated_once (watched s) -> rated_once (watched (click_step s c)).
Proof.
  intros Hinv. destruct c as [id| |movie il er rating count|id]; cbn [click_step].
  - exact Hinv.
  - destruct (details_open s); exact Hinv.
  - destruct (details_open s) as [id|]; [|exact Hinv].
    destruct (add_button_shown il er id (watched s) rating) eqn:Hshown; [|exact Hinv].
    destruct (handleAdd id movie rating count s) as [s'|] eqn:Hadd; [|exact Hinv].
    exact (add_keeps_rated_once id movie il er rating count s s' Hinv Hshown Hadd).
  - destruct (details_open s); [exact Hinv|].
    cbn [handleDeleteWatched setWatched watched]. destruct Hinv as [Hnd Hrated]. split.
    + now apply NoDup_ids_filter.
    + apply Forall_forall. intros m Hm. apply filter_In in Hm as [Hm _].
      rewrite Forall_forall in Hrated. now apply Hrated.
Qed.

(** X9: clicks never put an identifier into the watched list twice. From
    a list in which every identifier occurs once and every rating is above
    0 (the empty list, for one), any sequence of clicks on movies, on the
    back button, on the add button and on delete buttons leads to such a
    list: the add button is not rendered for a movie the list holds. In
    every list so reached, deleting an identifier it holds removes exactly
    one entry. *)
Theorem clicks_keep_rated_once (s : state) (clicks : list click) :
  rated_once (watched s) ->
  let s' := fold_left click_step clicks s in
  rated_once (watched s') /\
  (forall id isLoading error rating,
      In id (map imdbID (watched s')) ->
      add_button_shown isLoading error id (watched s') rating = false) /\
  (forall id, In id (map imdbID (watched s')) ->
              removes_exactly_one id (watched s')
                (watched (handleDeleteWatched id s'))).
Proof.
  intros Hinv s'.
  assert (Hinv' : rated_once (watched s')).
  { subst s'. revert s Hinv. induction clicks as [|c clicks IH]; intros s Hinv;
      [exact Hinv|]. exact (IH (click_step s c) (click_keeps_rated_once s c Hinv)). }
  split; [exact Hinv'|]. split.
  - intros id il er rating Hin. now apply rated_shows_rating.
  - intros id Hin. cbn [handleDeleteWatched setWatched watched].
    apply AppFacts.filter_unique_id; [apply Hinv'|exact Hin].
Qed.

Lemma clicks_keep_rated_once_witness :
  let clicks := [ClickMovie "tt1"; ClickAdd alien_detail false "" 9%float 1;
                 ClickMovie "tt1"; ClickAdd alien_detail false "" 7%float 2] in
  rated_once (watched empty_app) /\
  List.length (watched (fold_left click_step clicks empty_app)) = 1 /\
  rated_once (watched (fold_left click_step clicks empty_app)).
Proof.
  intros clicks.
  assert (H0 : rated_once (watched empty_app)) by (split; constructor).
  split; [exact H0|]. split; [vm_compute; reflexivity|].
  exact (proj1 (clicks_keep_rated_once empty_app clicks H0)).
Defined.

End RatingFacts.

(* ================================================================== *)
(** ** The detail view: [getMovieDetails] *)
(* ================================================================== *)

Module MovieDetailsFacts.

Import App Props MovieDetails.

Lemma update_urls (st : UseMovies.stage) (l : list request) (id : nat) :
  map url (update id (set_stage st) l) = map url l.
Proof.
  revert id. induction l as [|r l IH]; intros [|id]; cbn; try reflexivity.
  now rewrite IH.
Qed.

Lemma nth_error_update_other (f : request -> request) (l : list request) (i j : nat) :
  i <> j -> nth_error (update i f l) j = nth_error l j.
Proof.
  revert i j. induction l as [|r l IH]; intros [|i] [|j] Hne; cbn;
    try reflexivity; try congruence.
  apply IH. congruence.
Qed.

Lemma nth_error_update_same (f : request -> request) (l : list request) (i : nat)
    (r : request) :
  nth_error l i = Some r -> nth_error (update i f l) i = Some (f r).
Proof.
  revert i. induction l as [|r' l IH]; intros [|i] H; cbn in *; try discriminate.
  - now injection H as ->.
  - now apply IH.
Qed.

Lemma update_last (f : request -> request) (l : list request) (r : request) :
  update (List.length l) f (l ++ [r]) = l ++ [f r].
Proof.
  induction l as [|r' l IH]; cbn; [reflexivity|]. now rewrite IH.
Qed.

(** The effect in a mounted component. *)
Lemma effect_mounted (selectedId : string) (w : world) :
  mounted w = true ->
  effect selectedId w
  = {| mounted := true; movie := movie w; isLoading := true; error := "";
       requests := requests w ++ [{| url := detail_url selectedId;
                                     at_stage := UseMovies.AwaitingFetch |}];
       console := console w |}.
Proof.
  intros Hm. destruct w as [m mv il er rqs cs]. cbn in Hm. subst m.
  unfold effect, resume. cbn. unfold with_requests. cbn.
  now rewrite update_last.
Qed.

(** A good answer of a call that awaits its body. *)
Lemma json_ok_step (w : world) (id : nat) (rq : request) (data : Payload) :
  mounted w = true ->
  nth_error (requests w) id = Some rq ->
  at_stage rq = UseMovies.AwaitingJson ->
  Response_is_False data = false ->
  step w (JsonSettles id (JS.Fulfilled (Some data)))
  = {| mounted := true; movie := detail data; isLoading := false; error := "";
       requests := update id (set_stage UseMovies.Settled) (requests w);
       console := console w |}.
Proof.
  intros Hm Hrq Hst Hok. cbn [step]. rewrite Hrq, Hst.
  destruct w as [m mv il er rqs cs]. cbn in Hm. subst m.
  unfold resume, getMovieDetails_after_json. cbn. rewrite Hok. reflexivity.
Qed.

(** A settlement that makes the [try] block throw. *)
Lemma failure_step (w : world) (ev : event) (msg : string) :
  awaited w ev ->
  failure ev = Some msg ->
  step w ev
  = if mounted w then
      {| mounted := true; movie := movie w; isLoading := false; error := msg;
         requests := update (match ev with
                             | FetchSettles id _ | JsonSettles id _ => id
                             | _ => 0
                             end) (set_stage UseMovies.Settled) (requests w);
         console := console w ++ [["Error: "; msg]] |}
    else
      {| mounted := false; movie := movie w; isLoading := isLoading w;
         error := error w;
         requests := update (match ev with
                             | FetchSettles id _ | JsonSettles id _ => id
                             | _ => 0
                             end) (set_stage UseMovies.Settled) (requests w);
         console := console w ++ [["Error: "; msg]] |}.
Proof.
  intros Haw Hfail.
  destruct ev as [sid| |id r|id r]; cbn in Hfail; try discriminate;
    destruct Haw as (rq & Hrq & Hst); cbn [step]; rewrite Hrq, Hst;
    destruct w as [m mv il er rqs cs]; cbn [mounted movie isLoading error requests console].
  - destruct r as [res|err].
    + destruct (UseMovies.ok res) eqn:Hok; [discriminate|]. injection Hfail as <-.
      unfold resume, getMovieDetails_after_fetch. cbn. rewrite Hok. cbn.
      destruct m; reflexivity.
    + injection Hfail as <-. unfold resume, getMovieDetails_after_fetch. cbn.
      destruct m; reflexivity.
  - destruct r as [[data|]|err].
    + destruct (Response_is_False data) eqn:Hf; [|discriminate]. injection Hfail as <-.
      unfold resume, getMovieDetails_after_json. cbn. rewrite Hf. cbn.
      destruct m; reflexivity.
    + injection Hfail as <-. unfold resume, getMovieDetails_after_json. cbn.
      destruct m; reflexivity.
    + injection Hfail as <-. unfold resume, getMovieDetails_after_json. cbn.
      destruct m; reflexivity.
Qed.

(** A response that is OK. *)
Lemma fetch_ok_step (w : world) (id : nat) (rq : request) (res : UseMovies.FetchResponse) :
  nth_error (requests w) id = Some rq ->
  at_stage rq = UseMovies.AwaitingFetch ->
  UseMovies.ok res = true ->
  step w (FetchSettles id (JS.Fulfilled res))
  = with_requests (update id (set_stage UseMovies.AwaitingJson)) w.
Proof.
  intros Hrq Hst Hok. cbn [step]. rewrite Hrq, Hst.
  unfold resume, getMovieDetails_after_fetch. cbn. rewrite Hok. reflexivity.
Qed.

Lemma in_flight_update (w : world) (id i : nat) (st : UseMovies.stage) (l : list request) :
  (i = id -> st <> UseMovies.Settled) ->
  (exists rq, nth_error l i = Some rq /\ at_stage rq <> UseMovies.Settled) ->
  exists rq, nth_error (update id (set_stage st) l) i = Some rq /\
             at_stage rq <> UseMovies.Settled.
Proof.
  intros Hst (rq & Hrq & Hfl). destruct (Nat.eq_dec id i) as [->|Hne].
  - exists (set_stage st rq). split; [now apply nth_error_update_same|].
    cbn. now apply Hst.
  - exists rq. split; [|exact Hfl]. now rewrite nth_error_update_other.
Qed.

(** X10: the detail view shows the answer that arrived last, whichever
    call it belongs to. When two calls of a mounted view await their bodies
    and both bodies are fine, the movie cell holds the detail of the second
    one to arrive, in either order; after the first of them the detail is
    rendered (not loading, no error) although the other call is still in
    flight. *)
Theorem last_answer_is_shown (w : world) (i j : nat) (ri rj : request)
    (di dj : Payload) :
  mounted w = true ->
  i <> j ->
  nth_error (requests w) i = Some ri -> at_stage ri = UseMovies.AwaitingJson ->
  nth_error (requests w) j = Some rj -> at_stage rj = UseMovies.AwaitingJson ->
  Response_is_False di = false ->
  Response_is_False dj = false ->
  let first := step w (JsonSettles i (JS.Fulfilled (Some di))) in
  movie first = detail di /\
  detail_shown (isLoading first) (error first) = true /\
  in_flight first j /\
  movie (run w [JsonSettles i (JS.Fulfilled (Some di));
                JsonSettles j (JS.Fulfilled (Some dj))]) = detail dj /\
  movie (run w [JsonSettles j (JS.Fulfilled (Some dj));
                JsonSettles i (JS.Fulfilled (Some di))]) = detail di.
Proof.
  intros Hm Hne Hi Hsi Hj Hsj Hdi Hdj first.
  assert (Hafter : forall a b ra rb da db,
             a <> b ->
             nth_error (requests w) a = Some ra -> at_stage ra = UseMovies.AwaitingJson ->
             nth_error (requests w) b = Some rb -> at_stage rb = UseMovies.AwaitingJson ->
             Response_is_False da = false -> Response_is_False db = false ->
             movie (run w [JsonSettles a (JS.Fulfilled (Some da));
                           JsonSettles b (JS.Fulfilled (Some db))]) = detail db).
  { intros a b ra rb da db Hab Ha Hsa Hb Hsb Hda Hdb. unfold run. cbn [fold_left].
    rewrite (json_ok_step w a ra da Hm Ha Hsa Hda).
    rewrite (json_ok_step _ b rb db); cbn [mounted requests movie];
      try reflexivity; try assumption.
    now rewrite nth_error_update_other. }
  subst first. rewrite (json_ok_step w i ri di Hm Hi Hsi Hdi).
  cbn [movie isLoading error]. repeat split.
  - exists rj. cbn [requests]. rewrite nth_error_update_other by exact Hne.
    split; [exact Hj|]. rewrite Hsj. discriminate.
  - exact (Hafter i j ri rj di dj Hne Hi Hsi Hj Hsj Hdi Hdj).
  - apply (Hafter j i rj ri dj di); auto.
Qed.

Lemma last_answer_is_shown_witness :
  let w := run (mount "tt1")
             [Trigger "tt2";
              FetchSettles 0 (JS.Fulfilled {| UseMovies.ok := true |});
              FetchSettles 1 (JS.Fulfilled {| UseMovies.ok := true |})] in
  map url (requests w) = [detail_url "tt1"; detail_url "tt2"] /\
  movie (run w [JsonSettles 1 (JS.Fulfilled (Some aliens_payload));
                JsonSettles 0 (JS.Fulfilled (Some alien_payload))])
  = detail alien_payload.
Proof.
  intros w. split; [vm_compute; reflexivity|].
  refine (proj2 (proj2 (proj2 (proj2
    (last_answer_is_shown w 0 1
       {| url := detail_url "tt1"; at_stage := UseMovies.AwaitingJson |}
       {| url := detail_url "tt2"; at_stage := UseMovies.AwaitingJson |}
       alien_payload aliens_payload _ _ _ _ _ _ _ _)))));
    try (vm_compute; reflexivity).
  discriminate.
Defined.

(** X11: the detail view shows and logs every failure, whatever the name
    of the error. When an awaited settlement makes [getMovieDetails] throw
    (a rejected fetch or body, a response that is not OK, a body that is
    null, an answer "False"), the console gets the one entry
    ["Error: ", message], the movie cell and the requests sent stay as they
    are and, in a mounted view, the error cell holds the message and Loading
    is off; an unmounted view keeps its cells. *)
Theorem every_failure_is_shown_and_logged (w : world) (ev : event) (msg : string) :
  awaited w ev ->
  failure ev = Some msg ->
  let w' := step w ev in
  console w' = console w ++ [["Error: "; msg]] /\
  movie w' = movie w /\
  map url (requests w') = map url (requests w) /\
  (if mounted w then error w' = msg /\ isLoading w' = false
   else error w' = error w /\ isLoading w' = isLoading w).
Proof.
  intros Haw Hfail w'. subst w'. rewrite (failure_step w ev msg Haw Hfail).
  destruct (mounted w); cbn [console movie requests error isLoading];
    rewrite update_urls; repeat split.
Qed.

Lemma every_failure_is_shown_and_logged_witness :
  let w := mount "tt1" in
  let ev := FetchSettles 0 (JS.Rejected {| JS.name := "AbortError";
                                           JS.message := "The user aborted a request." |}) in
  awaited w ev /\
  error (step w ev) = "The user aborted a request." /\
  console (step w ev) = [["Error: "; "The user aborted a request."]].
Proof.
  intros w ev.
  assert (Haw : awaited w ev).
  { exists {| url := detail_url "tt1"; at_stage := UseMovies.AwaitingFetch |}.
    split; reflexivity. }
  split; [exact Haw|].
  pose proof (every_failure_is_shown_and_logged w ev "The user aborted a request."
                Haw eq_refl) as (Hc & _ & _ & Hcells).
  split; [exact (proj1 Hcells)|exact Hc].
Defined.

(** *** Loading and the calls in flight *)

Lemma loading_is_awaited_effect (selectedId : string) (w : world) :
  mounted w = true -> loading_is_awaited (effect selectedId w).
Proof.
  intros Hm _ _. rewrite (effect_mounted selectedId w Hm).
  exists (List.length (requests w)). unfold in_flight. cbn [requests].
  eexists. rewrite nth_error_app2, Nat.sub_diag by lia. split; [reflexivity|].
  cbn. discriminate.
Qed.

Lemma step_keeps_mounted (w : world) (ev : event) :
  mounted (step w ev) = true -> mounted w = true.
Proof.
  destruct (mounted w) eqn:Hm; [reflexivity|]. intros H. rewrite <- H. clear H.
  destruct w as [m mv il er rqs cs]. cbn in Hm. subst m.
  destruct ev as [sid| |id r|id r]; cbn [step mounted requests]; try reflexivity.
  - destruct (nth_error rqs id) as [rq|]; [|reflexivity].
    destruct (at_stage rq); try reflexivity.
    destruct r as [res|err]; [destruct res as [[|]]|]; reflexivity.
  - destruct (nth_error rqs id) as [rq|]; [|reflexivity].
    destruct (at_stage rq); try reflexivity.
    destruct r as [[data|]|err]; try reflexivity.
    unfold resume, getMovieDetails_after_json. cbn.
    destruct (Response_is_False data); reflexivity.
Qed.

Lemma loading_is_awaited_step (w : world) (ev : event) :
  loading_is_awaited w -> loading_is_awaited (step w ev).
Proof.
  intros Hinv Hm' Hl'. pose proof (step_keeps_mounted w ev Hm') as Hm.
  destruct ev as [sid| |id r|id r].
  - cbn [step] in *. rewrite Hm in *.
    exact (loading_is_awaited_effect sid w Hm Hm' Hl').
  - discriminate Hm'.
  - cbn [step] in *.
    destruct (nth_error (requests w) id) as [rq|] eqn:Hrq; [|now apply Hinv].
    destruct (at_stage rq) eqn:Hst; try now apply Hinv.
    destruct (failure (FetchSettles id r)) as [msg|] eqn:Hfail.
    + assert (Haw : awaited w (FetchSettles id r)) by (exists rq; now split).
      pose proof (failure_step w _ msg Haw Hfail) as Hstep. cbn [step] in Hstep.
      rewrite Hrq, Hst, Hm in Hstep. rewrite Hstep in Hl'. discriminate Hl'.
    + destruct r as [res|err]; [|discriminate]. cbn in Hfail.
      destruct (UseMovies.ok res) eqn:Hok; [|discriminate].
      pose proof (fetch_ok_step w id rq res Hrq Hst Hok) as Hstep. cbn [step] in Hstep.
      rewrite Hrq, Hst in Hstep. rewrite Hstep in *. cbn in Hl'.
      destruct (Hinv Hm Hl') as (i & Hi). exists i. unfold in_flight. cbn [requests with_requests].
      apply (in_flight_update w); [discriminate|exact Hi].
  - cbn [step] in *.
    destruct (nth_error (requests w) id) as [rq|] eqn:Hrq; [|now apply Hinv].
    destruct (at_stage rq) eqn:Hst; try now apply Hinv.
    destruct (failure (JsonSettles id r)) as [msg|] eqn:Hfail.
    + assert (Haw : awaited w (JsonSettles id r)) by (exists rq; now split).
      pose proof (failure_step w _ msg Haw Hfail) as Hstep. cbn [step] in Hstep.
      rewrite Hrq, Hst, Hm in Hstep. rewrite Hstep in Hl'. discriminate Hl'.
    + destruct r as [[data|]|err]; try discriminate. cbn in Hfail.
      destruct (Response_is_False data) eqn:Hf; [discriminate|].
      pose proof (json_ok_step w id rq data Hm Hrq Hst Hf) as Hstep. cbn [step] in Hstep.
      rewrite Hrq, Hst in Hstep. rewrite Hstep in Hl'. discriminate Hl'.
Qed.

(** X12: a mounted detail view that shows Loading has a call in flight.
    In every state reached from the first render by renders with other
    dependencies, settlements and the unmount, a mounted view whose calls
    have all come to their end is not loading. *)
Theorem idle_detail_is_not_loading (selectedId : string) (evs : list event) :
  let w := run (mount selectedId) evs in
  mounted w = true ->
  (forall i, ~ in_flight w i) ->
  isLoading w = false.
Proof.
  intros w Hm Hidle.
  assert (Hinv : loading_is_awaited w).
  { clear Hm Hidle. subst w. unfold run.
    assert (H0 : loading_is_awaited (mount selectedId))
      by (unfold mount; apply loading_is_awaited_effect; reflexivity).
    revert H0. generalize (mount selectedId).
    induction evs as [|ev evs IH]; intros w0 H0; [exact H0|].
    cbn [fold_left]. apply IH. now apply loading_is_awaited_step. }
  destruct (isLoading w) eqn:Hl; [|reflexivity].
  destruct (Hinv Hm Hl) as (i & Hi). now destruct (Hidle i).
Qed.

Lemma idle_detail_is_not_loading_witness :
  let evs := [FetchSettles 0 (JS.Fulfilled {| UseMovies.ok := true |});
              JsonSettles 0 (JS.Fulfilled (Some alien_payload))] in
  movie (run (mount "tt1") evs) = detail alien_payload /\
  isLoading (run (mount "tt1") evs) = false.
Proof.
  intros evs. split; [vm_compute; reflexivity|].
  apply (idle_detail_is_not_loading "tt1" evs); [vm_compute; reflexivity|].
  intros i (rq & Hrq & Hfl). destruct i as [|i].
  - vm_compute in Hrq. injection Hrq as <-. now apply Hfl.
  - destruct i; discriminate Hrq.
Defined.

End MovieDetailsFacts.

(* ================================================================== *)
(** ** The title of the document *)
(* ================================================================== *)

Module DocumentTitleFacts.

Import DocumentTitle.

Lemma titled_effect (d : string) (w : world) :
  mounted w = true ->
  cleanup w = false ->
  document_title w = "usePopcorn" \/ document_title w = d ->
  titled d (effect w).
Proof.
  intros Hm Hc Hd. unfold titled, effect.
  destruct (no_title (title w)) eqn:Ht.
  - rewrite Ht, andb_false_r. now split.
  - cbn. rewrite Ht, Hm. cbn. now split.
Qed.

Lemma cleaned_mounted (w : world) : mounted (run_cleanup w) = mounted w.
Proof. unfold run_cleanup. now destruct (cleanup w). Qed.

Lemma cleaned (d : string) (w : world) :
  titled d w ->
  cleanup (run_cleanup w) = false /\
  (document_title (run_cleanup w) = "usePopcorn" \/ document_title (run_cleanup w) = d).
Proof.
  unfold titled, run_cleanup. intros Hinv.
  destruct (cleanup w) eqn:Hc; cbn; [auto|].
  destruct (mounted w && negb (no_title (title w))).
  - destruct Hinv as [_ Hc']. congruence.
  - destruct Hinv as [_ Hd]. auto.
Qed.

Lemma titled_step (d : string) (w : world) (ev : event) :
  titled d w -> titled d (step w ev).
Proof.
  intros Hinv. destruct ev as [t|]; cbn [step].
  - destruct (mounted w) eqn:Hm; [|exact Hinv]. cbn [negb orb].
    destruct (same_title t (title w)); [exact Hinv|].
    destruct (cleaned d w Hinv) as [Hc Hd].
    apply titled_effect; cbn; [now rewrite cleaned_mounted|exact Hc|exact Hd].
  - destruct (mounted w) eqn:Hm; [|exact Hinv].
    destruct (cleaned d w Hinv) as [Hc Hd]. unfold titled. cbn. now split.
Qed.

(** X14: the title of the document follows the movie of the detail view.
    After the first render and any renders and unmount, the document is
    titled "Movie | " and the title of the movie while a detail view with a
    non-empty title is mounted; otherwise it has the title "usePopcorn" or
    the title of before the mount. A render of the mounted view with another
    title makes that title the one the effect has seen. *)
Theorem tab_title_follows_the_movie (d : string) (t : option string) (evs : list event) :
  let w := run (mount d t) evs in
  (if mounted w && negb (no_title (title w))
   then document_title w = movie_title (title w)
   else document_title w = "usePopcorn" \/ document_title w = d) /\
  (forall t', mounted w = true ->
              title (step w (Render t')) = t' /\ mounted (step w (Render t')) = true).
Proof.
  intros w. split.
  - assert (Hinv : titled d w).
    { subst w. unfold run.
      assert (H0 : titled d (mount d t)) by (unfold mount; apply titled_effect; cbn; auto).
      revert H0. generalize (mount d t).
      induction evs as [|ev evs IH]; intros w0 H0; [exact H0|].
      cbn [fold_left]. apply IH. now apply titled_step. }
    unfold titled in Hinv. destruct (mounted w && negb (no_title (title w)));
      [apply Hinv|apply Hinv].
  - intros t' Hm. cbn [step]. rewrite Hm. cbn [negb orb].
    destruct (same_title t' (title w)) eqn:Hsame.
    + split; [|exact Hm].
      destruct t' as [a|], (title w) as [b|]; cbn in Hsame; try discriminate;
        [apply String.eqb_eq in Hsame; now subst|reflexivity].
    + unfold effect, run_cleanup, with_title.
      destruct (cleanup w); cbn; destruct (no_title t'); cbn; now split.
Qed.

End DocumentTitleFacts.



(* ================================================================== *)
(** ** The summary and figures that are not numbers *)
(* ================================================================== *)

Module SummaryMore.
Import App.

Lemma nan_is_unique (x : float) : Prim2SF x = S754_nan -> x = nan.
Proof. intros H. rewrite <- (SF2Prim_Prim2SF x), H. reflexivity. Qed.

Lemma div_nan (y : float) : (nan / y)%float = nan.
Proof.
  apply nan_is_unique. rewrite FloatAxioms.div_spec. reflexivity.
Qed.

Lemma add_nan_r (x : float) : (x + nan)%float = nan.
Proof.
  apply nan_is_unique. rewrite FloatAxioms.add_spec. 
  change (Prim2SF nan) with S754_nan. destruct (Prim2SF x) as [| [|] | |]; reflexivity.
Qed.

Lemma add_nan_l (x : float) : (nan + x)%float = nan.
Proof.
  apply nan_is_unique. rewrite FloatAxioms.add_spec. reflexivity.
Qed.

Lemma accumulate_nan (n : float) (arr : list float) :
  fold_left (fun acc cur => (acc + cur / n)%float) arr nan = nan.
Proof.
  induction arr as [|x arr IH]; [reflexivity|]. cbn [fold_left].
  now rewrite add_nan_l.
Qed.

Lemma average_nan (arr : list JS.Number) :
  In JS.NaN arr -> average arr = JS.NaN.
Proof.
  rewrite SummaryFacts.average_accumulates.
  generalize (JS.Number_of_nat (List.length arr)) as n. intros n.
  generalize zero as acc. induction arr as [|x arr IH]; intros acc Hin;
    [destruct Hin|destruct Hin as [Hx|Hin]].
  - subst x. cbn [fold_left]. unfold JS.NaN. rewrite div_nan, add_nan_r.
    apply accumulate_nan.
  - cbn [fold_left]. now apply IH.
Qed.

(** X17: one figure that is not a number spoils its average. If an entry
    of the watched list has NaN as its runtime, its catalog rating or its
    user rating, the corresponding average of the summary is NaN, whatever
    the other entries are. Adding a movie the first word of whose [Runtime]
    converts to NaN (the catalog's "N/A", for one) gives such a list. *)
Theorem nan_poisons_the_averages (watched : list WatchedMovie) (movie : WatchedMovie) :
  In movie watched ->
  (runtime movie = JS.NaN -> avgRuntime (WatchedSummary watched) = JS.NaN) /\
  (imdbRating movie = JS.NaN -> avgImdbRating (WatchedSummary watched) = JS.NaN) /\
  (userRating movie = JS.NaN -> avgUserRating (WatchedSummary watched) = JS.NaN) /\
  (forall id detail r rating count s s',
      Detail.Runtime detail = Some r ->
      JS.unary_plus (JS.at_ (JS.split " " r) 0) = JS.NaN ->
      handleAdd id detail rating count s = Some s' ->
      avgRuntime (WatchedSummary (App.watched s')) = JS.NaN).
Proof.
  intros Hin. unfold WatchedSummary. cbn [avgRuntime avgImdbRating avgUserRating].
  split; [|split; [|split]].
  - intros Hnan. apply average_nan. rewrite <- Hnan.
    now apply (in_map (fun movie => runtime movie)).
  - intros Hnan. apply average_nan. rewrite <- Hnan.
    now apply (in_map (fun movie => imdbRating movie)).
  - intros Hnan. apply average_nan. rewrite <- Hnan.
    now apply (in_map (fun movie => userRating movie)).
  - intros id detail r rating count s s' Hr Hnan Hadd.
    unfold handleAdd in Hadd. rewrite Hr, Hnan in Hadd. injection Hadd as <-.
    cbn [handleCloseMovie setSelectedId handleAddWatched setWatched App.watched].
    apply average_nan. rewrite map_app. apply in_or_app. right. now left.
Qed.

Lemma nan_poisons_the_averages_witness :
  let not_available :=
    {| Detail.Title := Some "Lost"; Detail.Year := Some "2004";
       Detail.Plot := None; Detail.Poster := None;
       Detail.Runtime := Some "N/A"; Detail.imdbRating := Some "8.3";
       Detail.Released := None; Detail.Actors := None;
       Detail.Director := None; Detail.Genre := None |} in
  let s := {| selectedId := Some "tt3"; App.watched := [Props.alien; Props.aliens] |} in
  exists s',
    handleAdd "tt3" not_available 9%float 1 s = Some s' /\
    List.length (App.watched s') = 3 /\
    avgRuntime (WatchedSummary (App.watched s')) = JS.NaN.
Proof.
  intros not_available s. eexists. split; [reflexivity|]. split; [reflexivity|].
  refine (proj2 (proj2 (proj2
    (nan_poisons_the_averages [Props.alien] Props.alien (or_introl eq_refl))))
    "tt3" not_available "N/A" 9%float 1 s _ eq_refl _ eq_refl).
  vm_compute. reflexivity.
Defined.

End SummaryMore.

(* ================================================================== *)
(** ** The search effect before and after [useMovies] *)
(* ================================================================== *)

Module InlineSearchFacts.

Import UseMovies HookProps InlineSearch.

Ltac unfold_code :=
  unfold resume, fetchMovies_start, fetchMovies_after_fetch, fetchMovies_after_json,
    fetchMovies_catch, fetchMovies_finally, exec, bind, await, ret, throw, fetch,
    setMovies, setError, setIsLoading, console_error,
    with_attempts, with_cleanup, with_query, unmounted in *.

(** Two worlds with the same cells, whatever the caller's states. *)
Ltac same_cells w1 w2 H :=
  destruct w1 as [x1 m q mv ld er ats cl co];
  destruct w2 as [x2 m2 q2 mv2 ld2 er2 ats2 cl2 co2];
  unfold cells in H; cbn in H; injection H as -> -> -> -> -> -> -> ->.

Lemma cleanup_cells {X Y : Type} (w1 : @world X) (w2 : @world Y) :
  cells w1 = cells w2 -> cells (run_cleanup w1) = cells (run_cleanup w2).
Proof.
  intros H. same_cells w1 w2 H. unfold run_cleanup. cbn.
  destruct cl2; reflexivity.
Qed.

Lemma effect_cells (callback : option (App.state -> App.state))
    (w1 w2 : @world App.state) :
  cells w1 = cells w2 ->
  cells (InlineSearch.effect w1) = cells (UseMovies.effect callback w2).
Proof.
  intros H. same_cells w1 w2 H.
  unfold InlineSearch.effect, UseMovies.effect, call_callback, close_movie.
  destruct callback; cbn; destruct (String.length q2 <=? 2)%nat; cbn;
    unfold_code; cbn; destruct m2; reflexivity.
Qed.

Lemma step_cells (callback : option (App.state -> App.state))
    (w1 w2 : @world App.state) (ev : event) :
  cells w1 = cells w2 ->
  cells (InlineSearch.step w1 ev) = cells (UseMovies.step callback w2 ev).
Proof.
  intros H. destruct ev as [q'| |id r|id r].
  - cbn [InlineSearch.step UseMovies.step].
    assert (Hm : mounted w1 = mounted w2) by (unfold cells in H; congruence).
    assert (Hq : query w1 = query w2) by (unfold cells in H; congruence).
    rewrite Hm, Hq.
    destruct (negb (mounted w2) || (q' =? query w2)%string); [exact H|].
    apply effect_cells.
    pose proof (cleanup_cells w1 w2 H) as Hc.
    destruct (run_cleanup w1), (run_cleanup w2). unfold cells in *; cbn in *.
    congruence.
  - cbn [InlineSearch.step UseMovies.step].
    assert (Hm : mounted w1 = mounted w2) by (unfold cells in H; congruence).
    rewrite Hm. destruct (mounted w2); [|exact H].
    pose proof (cleanup_cells w1 w2 H) as Hc.
    destruct (run_cleanup w1), (run_cleanup w2). unfold cells in *; cbn in *.
    congruence.
  - same_cells w1 w2 H. cbn [InlineSearch.step UseMovies.step attempts].
    destruct (nth_error ats2 id) as [a|]; [|reflexivity].
    destruct (at_stage a); try reflexivity.
    unfold delivered. destruct (aborted a).
    + unfold_code; cbn. destruct m2; reflexivity.
    + destruct r as [[[|]]|e]; unfold_code; cbn; try reflexivity.
      * destruct m2; reflexivity.
      * destruct (negb (JS.name e =? "AbortError")%string); destruct m2; reflexivity.
  - same_cells w1 w2 H. cbn [InlineSearch.step UseMovies.step attempts].
    destruct (nth_error ats2 id) as [a|]; [|reflexivity].
    destruct (at_stage a); try reflexivity.
    unfold delivered. destruct (aborted a).
    + unfold_code; cbn. destruct m2; reflexivity.
    + destruct r as [[data|]|e]; unfold_code; cbn.
      * destruct (Response_is_False data); destruct m2; reflexivity.
      * destruct m2; reflexivity.
      * destruct (negb (JS.name e =? "AbortError")%string); destruct m2; reflexivity.
Qed.

(** X18: the search effect written in [App] and the hook differ in one
    thing, when the open detail view is closed. For a query of three
    characters or more the effect of that [App] is the effect of
    [useMovies] called with [handleCloseMovie]; for a shorter query it is
    the effect of [useMovies] called without a callback, so a change to a
    short query leaves the detail open where the hook closes it. In every run
    the two show the same movies, Loading flag, error, requests and console
    lines. *)
Theorem hook_closes_the_detail_on_short_queries :
  (forall w, 3 <= String.length (query w) ->
             InlineSearch.effect w = UseMovies.effect app_callback w) /\
  (forall w, String.length (query w) < 3 ->
             InlineSearch.effect w = UseMovies.effect None w) /\
  (forall w q, mounted w = true -> q <> query w -> String.length q < 3 ->
               outside (InlineSearch.step w (QueryChange q)) = outside w /\
               outside (UseMovies.step app_callback w (QueryChange q))
               = App.handleCloseMovie (outside w)) /\
  (forall x q evs,
      cells (InlineSearch.run (InlineSearch.mount x q) evs)
      = cells (UseMovies.run app_callback (UseMovies.mount app_callback x q) evs)).
Proof.
  split; [|split; [|split]].
  - intros w Hlen. apply Nat.ltb_ge in Hlen.
    unfold InlineSearch.effect, UseMovies.effect, call_callback, close_movie, app_callback.
    cbn [query]. now rewrite Hlen.
  - intros w Hlen. apply Nat.ltb_lt in Hlen.
    unfold InlineSearch.effect, UseMovies.effect, call_callback.
    now rewrite Hlen.
  - intros w q Hm Hq Hlen. apply String.eqb_neq in Hq. apply Nat.ltb_lt in Hlen.
    cbn [InlineSearch.step UseMovies.step]. rewrite Hm, Hq. cbn [negb orb].
    destruct w as [x m q0 mv ld er ats [c|] co];
      unfold InlineSearch.effect, UseMovies.effect, call_callback, app_callback;
      cbn; cbn in Hlen; rewrite Hlen; unfold_code; cbn; destruct m; now split.
  - intros x q evs. unfold InlineSearch.run, UseMovies.run.
    assert (H0 : cells (InlineSearch.mount x q)
                 = cells (UseMovies.mount app_callback x q))
      by (unfold InlineSearch.mount, UseMovies.mount; now apply effect_cells).
    revert H0. generalize (InlineSearch.mount x q) (UseMovies.mount app_callback x q).
    induction evs as [|ev evs IH]; intros w1 w2 H; [exact H|].
    cbn [fold_left]. apply IH. now apply step_cells.
Qed.

End InlineSearchFacts.

(* ================================================================== *)
(** ** The listener of [useKey] *)
(* ================================================================== *)

Module UseKeyFacts.

Import UseKey.

Section Hook.

Context {S : Type}.

Local Abbreviation listener := (@listener S).
Local Abbreviation world := (@world S).
Local Abbreviation others := (Forall (fun l : listener => is_other (ident l) = true)).

Lemma same_function_other (l : listener) (f : function) :
  is_other (ident l) = true -> is_other f = false -> same_function (ident l) f = false.
Proof. destruct (ident l), f; cbn; congruence. Qed.

Lemma others_lack (d : list listener) (f : function) :
  others d -> is_other f = false ->
  existsb (fun l' : listener => same_function (ident l') f) d = false.
Proof.
  intros Hd Hf. induction Hd as [|l d Hl Hd IH]; [reflexivity|].
  cbn. now rewrite IH, (same_function_other l f Hl Hf).
Qed.

Lemma remove_app (f : function) (a b : list listener) :
  removeEventListener f (a ++ b)
  = if existsb (fun l : listener => same_function (ident l) f) a
    then removeEventListener f a ++ b
    else a ++ removeEventListener f b.
Proof.
  induction a as [|l a IH]; [reflexivity|]. cbn.
  destruct (same_function (ident l) f); cbn; [reflexivity|].
  rewrite IH. now destruct (existsb _ a).
Qed.

Lemma existsb_own (f : function) (a b : list listener) (own : listener) :
  same_function (ident own) f = false ->
  existsb (fun l : listener => same_function (ident l) f) (a ++ [own] ++ b)
  = existsb (fun l : listener => same_function (ident l) f) (a ++ b).
Proof.
  intros Hown. rewrite !existsb_app. cbn. now rewrite Hown.
Qed.

Lemma others_remove (f : function) (d : list listener) :
  others d -> others (removeEventListener f d).
Proof.
  induction 1 as [|l d Hl Hd IH]; [constructor|]. cbn.
  destruct (same_function (ident l) f); [exact Hd|now constructor].
Qed.

Lemma others_add (n : nat) (h : string -> S -> S) (d : list listener) :
  others d -> others (addEventListener {| ident := Other n; handle := h |} d).
Proof.
  intros Hd. unfold addEventListener. destruct (existsb _ d); [exact Hd|].
  apply Forall_app. split; [exact Hd|]. now repeat constructor.
Qed.

Lemma registered_effect (d : list listener) (w : world) (key : string) (action : S -> S) :
  others d -> mounted w = true -> listeners w = d ->
  registered d (effect key action w) (Some (key, action)).
Proof.
  intros Hd Hm Hl. split; [exact Hd|]. split; [exact Hm|].
  exists (runs w), d, []. cbn. split; [reflexivity|]. split; [now rewrite app_nil_r|].
  rewrite Hl. unfold addEventListener. cbn [ident].
  now rewrite (others_lack d (Callback (runs w)) Hd eq_refl).
Qed.

Lemma registered_cleanup (d : list listener) (w : world)
    (deps : option (string * (S -> S))) :
  registered d w deps ->
  mounted (run_cleanup w) = mounted w /\
  listeners (run_cleanup w) = d /\ cleanup (run_cleanup w) = None.
Proof.
  unfold registered, run_cleanup. intros [Hd Hinv].
  destruct deps as [[k a]|].
  - destruct Hinv as (Hm & n & pre & post & Hc & Hpp & Hl). rewrite Hc. cbn.
    split; [reflexivity|]. split; [|reflexivity].
    rewrite Hl, remove_app. subst d. apply Forall_app in Hd as [Hpre Hpost].
    rewrite (others_lack pre (Callback n) Hpre eq_refl). cbn.
    now rewrite Nat.eqb_refl.
  - destruct Hinv as (Hm & Hc & Hl). rewrite Hc. now repeat split.
Qed.

Lemma registered_step (d : list listener) (w : world)
    (deps : option (string * (S -> S))) (ev : event) :
  registered d w deps ->
  registered (elsewhere d [ev]) (step w ev) (current deps [ev]).
Proof.
  intros Hinv. destruct (registered_cleanup d w deps Hinv) as (Hm & Hl & Hc).
  pose proof (proj1 Hinv) as Hd.
  destruct ev as [key action| |n h|n]; cbn [step current elsewhere].
  - destruct deps as [[k a]|].
    + destruct Hinv as (_ & Hmw & _). rewrite Hmw in *.
      now apply registered_effect.
    + destruct Hinv as (_ & Hmw & Hrest). rewrite Hmw. split; [exact Hd|]. now split.
  - destruct (mounted w) eqn:Hmw.
    + split; [exact Hd|]. unfold unmounted. cbn. now repeat split.
    + destruct deps as [[k a]|]; [destruct Hinv as (_ & Hmw' & _); congruence|exact Hinv].
  - split; [now apply others_add|].
    destruct deps as [[k a]|].
    + destruct Hinv as (_ & Hmw & m & pre & post & Hcw & Hpp & Hlw).
      split; [exact Hmw|]. cbn [with_listeners cleanup listeners].
      unfold addEventListener. cbn [ident]. rewrite Hlw, existsb_own by reflexivity.
      rewrite <- Hpp. destruct (existsb _ d).
      * exists m, pre, post. now repeat split.
      * exists m, pre, (post ++ [{| ident := Other n; handle := h |}]).
        split; [exact Hcw|]. subst d. now rewrite !app_assoc.
    + destruct Hinv as (_ & Hmw & Hcw & Hlw). cbn. rewrite Hlw. now repeat split.
  - split; [now apply others_remove|].
    destruct deps as [[k a]|].
    + destruct Hinv as (_ & Hmw & m & pre & post & Hcw & Hpp & Hlw).
      split; [exact Hmw|]. cbn [with_listeners cleanup listeners].
      rewrite Hlw, Hpp, !remove_app.
      destruct (existsb _ pre).
      * exists m, (removeEventListener (Other n) pre), post. now repeat split.
      * exists m, pre, (removeEventListener (Other n) post). cbn. now repeat split.
    + destruct Hinv as (_ & Hmw & Hcw & Hlw). cbn. rewrite Hlw. now repeat split.
Qed.

Lemma registered_run (evs : list event) (d : list listener) (w : world)
    (deps : option (string * (S -> S))) :
  registered d w deps ->
  registered (elsewhere d evs) (run w evs) (current deps evs).
Proof.
  revert d w deps. induction evs as [|ev evs IH]; intros d w deps Hinv; [exact Hinv|].
  pose proof (IH _ _ _ (registered_step d w deps ev Hinv)) as Hnext.
  destruct ev as [key action| |n h|n]; exact Hnext.
Qed.

Lemma keydown_app (code : string) (d d' : list listener) (s : S) :
  keydown code (d ++ d') s = keydown code d' (keydown code d s).
Proof. apply fold_left_app. Qed.

(** X15: a mounted [useKey] has exactly one listener in the document, that
    of its latest key and action, whatever the component renders and
    whatever the rest of the page registers and removes meanwhile; the
    listeners of the rest of the page are what they are without the hook, in
    their order. A [keydown] event whose code is not the key does what it
    does without the hook; one whose code is the key runs the latest action
    once, between the listeners registered before and after it. After the
    unmount the listeners are those of the rest of the page. *)
Theorem key_runs_the_latest_action
    (d0 : list listener) (key : string) (action : S -> S) (evs : list event) :
  Forall (fun l : listener => is_other (ident l) = true) d0 ->
  let w := run (mount d0 key action) evs in
  let rest := elsewhere d0 evs in
  match current (Some (key, action)) evs with
  | Some (k, a) =>
      mounted w = true /\
      exists n pre post,
        rest = pre ++ post /\
        listeners w = pre ++ [{| ident := Callback n; handle := callback k a |}] ++ post /\
        forall code s,
          keydown code (listeners w) s
          = if String.eqb code k then keydown code post (a (keydown code pre s))
            else keydown code rest s
  | None =>
      mounted w = false /\ listeners w = rest
  end.
Proof.
  intros Hd w rest.
  assert (Hinv : registered rest w (current (Some (key, action)) evs)).
  { apply registered_run. unfold mount. now apply registered_effect. }
  destruct Hinv as [_ Hinv].
  destruct (current (Some (key, action)) evs) as [[k a]|].
  - destruct Hinv as (Hm & n & pre & post & _ & Hpp & Hl).
    split; [exact Hm|]. exists n, pre, post. split; [exact Hpp|]. split; [exact Hl|].
    intros code s. rewrite Hl, Hpp, !keydown_app. cbn. unfold callback.
    now destruct (code =? k)%string.
  - destruct Hinv as (Hm & _ & Hl). now split.
Qed.

End Hook.

Lemma key_runs_the_latest_action_witness :
  let enter n := {| ident := Other n; handle := callback "Enter" Search.handleEnter |} in
  let d0 := [enter 0] in
  let evs := [Removed 0; Added 1 (callback "Enter" Search.handleEnter)] in
  let w := run (mount d0 "Escape" Search.onCloseMovie) evs in
  let p := {| Search.hook :=
                UseMovies.mount HookProps.app_callback
                  {| App.selectedId := Some "tt1"; App.watched := [] |} "";
              Search.input_focused := true |} in
  Forall (fun l => is_other (ident l) = true) d0 /\
  List.length (listeners w) = 2 /\
  keydown "Escape" (listeners w) p = Search.onCloseMovie p /\
  keydown "KeyA" (listeners w) p = p.
Proof.
  intros enter d0 evs w p.
  assert (Hd : Forall (fun l : @listener Search.page => is_other (ident l) = true) d0)
    by (repeat constructor).
  split; [exact Hd|].
  pose proof (key_runs_the_latest_action d0 "Escape" Search.onCloseMovie evs Hd)
    as (_ & n & pre & post & Hrest & Hl & Hkey).
  fold w in Hl, Hkey.
  assert (Hrest' : [enter 1] = pre ++ post) by (rewrite <- Hrest; reflexivity).
  split; [|split].
  - rewrite Hl, length_app. cbn [List.length app].
    apply (f_equal (@List.length _)) in Hrest'. rewrite length_app in Hrest'.
    cbn [List.length] in Hrest'. lia.
  - rewrite Hkey, String.eqb_refl.
    destruct pre as [|l pre].
    + cbn in Hrest'. subst post. reflexivity.
    + injection Hrest' as <- Hnil. symmetry in Hnil.
      apply app_eq_nil in Hnil as [-> ->]. reflexivity.
  - rewrite Hkey. reflexivity.
Defined.

End UseKeyFacts.

(* ================================================================== *)
(** ** The Enter key of [Search] *)
(* ================================================================== *)

Module SearchFacts.

Import UseMovies HookProps Render Search.

(** The clicks leave the controller alone. *)
Lemma settled_with_outside (f : App.state -> App.state) (w : @world App.state) :
  stale_aborted w /\ short_is_cleared w ->
  stale_aborted (with_outside f w) /\ short_is_cleared (with_outside f w).
Proof. intros [Hstale Hshort]. split; [exact Hstale|exact Hshort]. Qed.

Lemma settled_step (p : page) (ev : Search.event) :
  stale_aborted (hook p) /\ short_is_cleared (hook p) ->
  stale_aborted (hook (Search.step p ev)) /\ short_is_cleared (hook (Search.step p ev)).
Proof.
  intros Hinv. destruct ev as [ev|c|b|]; cbn [Search.step hook].
  - now apply UseMoviesMore.short_is_cleared_step.
  - now apply settled_with_outside.
  - exact Hinv.
  - unfold handleEnter. destruct (input_focused p); [exact Hinv|].
    cbn [setQuery focus hook]. now apply UseMoviesMore.short_is_cleared_step.
Qed.

Lemma settled_run (evs : list Search.event) (p : page) :
  stale_aborted (hook p) /\ short_is_cleared (hook p) ->
  stale_aborted (hook (Search.run p evs)) /\ short_is_cleared (hook (Search.run p evs)).
Proof.
  revert p. induction evs as [|ev evs IH]; intros p Hinv; [exact Hinv|].
  exact (IH _ (settled_step p ev Hinv)).
Qed.

(** X16: the Enter key brings the search back to its start. In every state
    the page can reach from the first render by events of the controller,
    clicks, changes of the focus and Enter keys, with [App] mounted:
    when the input of [Search] has the focus [handleEnter] does nothing;
    when it has not, the input gets the focus and the query is emptied, the
    movie list is then empty, there is no error, no attempt is current, no
    request is sent, the watched list is kept and, if the query was not
    empty before, the selection is emptied, which closes an open detail
    view; a second Enter changes nothing. *)
Theorem enter_restarts_the_search
    (x : App.state) (q : string) (evs : list Search.event) :
  let p := Search.run (Search.mount x q) evs in
  mounted (hook p) = true ->
  let p' := handleEnter p in
  (input_focused p = true -> p' = p) /\
  (input_focused p = false ->
   input_focused p' = true /\ query (hook p') = "" /\
   movies (hook p') = Some [] /\ error (hook p') = "" /\
   cleanup (hook p') = None /\
   map url (attempts (hook p')) = map url (attempts (hook p)) /\
   App.watched (outside (hook p')) = App.watched (outside (hook p)) /\
   (query (hook p) <> "" -> App.selectedId (outside (hook p')) = None) /\
   (query (hook p) = "" -> hook p' = hook p)) /\
  handleEnter p' = p'.
Proof.
  intros p Hm p'.
  assert (Hinv : stale_aborted (hook p) /\ short_is_cleared (hook p)).
  { apply settled_run. split; [apply UseMoviesFacts.stale_aborted_mount|].
    exact (UseMoviesMore.short_is_cleared_reachable app_callback x q []). }
  destruct Hinv as [_ Hshort]. subst p'. unfold handleEnter.
  generalize dependent p. intros [w focused]. cbn [hook input_focused].
  intros Hm Hshort.
  destruct focused; cbn [input_focused hook focus setQuery].
  - split; [reflexivity|]. split; [discriminate|reflexivity].
  - split; [discriminate|]. split; [|reflexivity]. intros _.
    split; [reflexivity|].
    cbn [UseMovies.step]. rewrite Hm. cbn [negb orb].
    destruct (String.eqb_spec "" (query w)) as [Heq|Hne].
    + destruct Hshort as (Hmv & Her & Hc); [exact Hm|rewrite <- Heq; cbn; lia|].
      repeat split; auto. congruence.
    + set (w0 := with_query "" (run_cleanup w)).
      assert (Hlen : String.length (query w0) < 3) by (cbn; lia).
      destruct (UseMoviesFacts.effect_short app_callback w0 Hlen)
        as (_ & Hq & Hats & Hc & _ & Hclear).
      destruct (UseMoviesFacts.run_cleanup_shape w) as (Hm0 & _).
      destruct Hclear as (Hmv & Her); [cbn; congruence|].
      destruct (UseMoviesMore.effect_outside app_callback w0) as (Hout & _).
      destruct (UseMoviesMore.run_cleanup_frame w) as (Hout0 & _).
      rewrite Hq, Hats, Hout. cbn [w0 with_query query attempts outside].
      rewrite Hout0, (UseMoviesMore.requests_after_cleanup w).
      repeat split; auto. congruence.
Qed.

Lemma enter_restarts_the_search_witness :
  let x := {| App.selectedId := None; App.watched := [] |} in
  let evs := [Focus true; Controller (QueryChange "alien");
              Controller (FetchSettles 0 (JS.Fulfilled {| ok := true |}));
              Controller (JsonSettles 0 (JS.Fulfilled (Some found_alien)));
              Focus false; Click (MovieDetails.ClickMovie "tt1")] in
  let p := Search.run (Search.mount x "") evs in
  (mounted (hook p) = true /\ input_focused p = false /\
   movies (hook p) = Some [alien_summary] /\
   App.selectedId (outside (hook p)) = Some "tt1") /\
  movies (hook (handleEnter p)) = Some [] /\
  App.selectedId (outside (hook (handleEnter p))) = None.
Proof.
  intros x evs p.
  assert (Hm : mounted (hook p) = true) by (vm_compute; reflexivity).
  split; [split; [exact Hm|vm_compute; repeat split]|].
  destruct (enter_restarts_the_search x "" evs Hm) as (_ & Hclear & _).
  destruct (Hclear eq_refl) as (_ & _ & Hmv & _ & _ & _ & _ & Hsel & _).
  split; [exact Hmv|]. apply Hsel. vm_compute. discriminate.
Defined.

End SearchFacts.
